(** * Re-evaluation core of estimate-analyze: percentile engine, batch
      orchestrator and multi-round convergence combine

    Shallow embedding of
      - [gemini_reanalyzer.calculate_percentile_scores],
      - [gemini_reanalyzer.reanalyze_property_batch],
      - [run_reanalysis.calculate_weighted_average_scores].

    Modelling conventions.
      - A Python value is a [value]; a [dict] is an association list in
        insertion order (Python dicts keep insertion order); a record is a
        dict.
      - A Python exception is an explicit [Raise] outcome; [try]/[except]
        blocks are pattern matches on the outcome.
      - Text is a [string] of bytes; the character classes of [re] and
        [str.strip] are their ASCII parts.
      - A finite binary64 number is represented by the rational it denotes
        and float arithmetic is carried out exactly; [round(x, n)] rounds the
        exact value half-to-even.  A value that lies exactly on a rounding
        tie can therefore differ from the binary64 result in the last kept
        digit; no example below sits on a tie.
      - What the code takes from outside is a variable of the section that
        uses it: [json.loads], [repr], the client constructor, the reply of
        the service to the attempt with a given number, the time a call
        takes and the order in which a set is iterated.
      - The clock, the time of the last call and the sleeps and calls made
        so far are the fields of a [world] that the orchestrator threads.
      - The records of a batch are shared objects: the orchestrator keeps
        them in a store addressed by position, and its map from identifiers
        and its result list hold positions, so that an update through one
        is seen through the others.

    Layout: the model of the code, then the vocabulary of the statements
    and the inputs of the examples, then the properties. *)

From Stdlib Require Import ZArith QArith Qround Lia Lqa Ascii String.
From stdpp Require Import base list strings gmap sorting pretty.

Set Warnings "-register-all,-clear-no-such-hyp".
Local Open Scope string_scope.
Local Open Scope list_scope.

(** ** Python values *)

Inductive pyfloat :=
| FFin (q : Q)
| FInf (negative : bool)
| FNan.

Inductive value :=
| VNone
| VBool (b : bool)
| VInt (z : Z)
| VFloat (f : pyfloat)
| VStr (s : string)
| VList (l : list value)
| VDict (d : list (string * value)).

Abbreviation dict := (list (string * value)).
Abbreviation record := (list (string * value)).

Definition VNum (q : Q) : value := VFloat (FFin q).

(** ** Exceptions *)

Inductive exn :=
| ValueError
| TypeError
| OverflowError
| AttributeError
| IndexError
| JSONDecodeError
| OtherError (msg : string).

Inductive outcome (A : Type) :=
| Return (a : A)
| Raise (e : exn).
Arguments Return {A} a.
Arguments Raise {A} e.

#[global] Instance outcome_ret : MRet outcome := @Return.
#[global] Instance outcome_bind : MBind outcome := fun A B k m =>
  match m with
  | Return a => k a
  | Raise e => Raise e
  end.

#[global] Instance outcome_fmap : FMap outcome := fun A B f m =>
  match m with
  | Return a => Return (f a)
  | Raise e => Raise e
  end.

(** A loop whose body may raise. *)
Fixpoint foldM {A B} (f : B -> A -> outcome B) (l : list A) (b : B) : outcome B :=
  match l with
  | [] => Return b
  | a :: l' => b' ← f b a; foldM f l' b'
  end.

(** [try: m except: handler] for a handler that catches everything. *)
Definition try_except {A} (m : outcome A) (handler : exn -> outcome A)
  : outcome A :=
  match m with
  | Return a => Return a
  | Raise e => handler e
  end.

(** ** Dictionaries in insertion order *)

Fixpoint dict_get {V} (k : string) (d : list (string * V)) : option V :=
  match d with
  | [] => None
  | (k', v) :: d' => if String.eqb k k' then Some v else dict_get k d'
  end.

(** [d[k] = v]: an existing key keeps its position. *)
Fixpoint dict_set {V} (k : string) (v : V) (d : list (string * V))
  : list (string * V) :=
  match d with
  | [] => [(k, v)]
  | (k', v') :: d' =>
      if String.eqb k k' then (k, v) :: d' else (k', v') :: dict_set k v d'
  end.

Definition dict_has {V} (k : string) (d : list (string * V)) : bool :=
  match dict_get k d with Some _ => true | None => false end.

(** [d.get(k, default)] *)
Definition dict_get_default {V} (k : string) (default : V)
  (d : list (string * V)) : V :=
  match dict_get k d with Some v => v | None => default end.

(** [d.update(other)] *)
Definition dict_update {V} (d other : list (string * V)) : list (string * V) :=
  fold_left (fun acc kv => dict_set (fst kv) (snd kv) acc) other d.

(** ** Numbers *)

Definition Z_of_bool (b : bool) : Z := if b then 1%Z else 0%Z.

(** Round half to even, as [round] and [numpy.rint] do. *)
Definition round_half_even (q : Q) : Z :=
  let f := Qfloor q in
  match Qcompare (q - inject_Z f) (1 # 2) with
  | Lt => f
  | Gt => (f + 1)%Z
  | Eq => if Z.even f then f else (f + 1)%Z
  end.

(** [round(x, ndigits)] on a finite float. *)
Definition py_round (q : Q) (ndigits : nat) : Q :=
  let scale := (10 ^ Z.of_nat ndigits)%Z in
  Qred (Qmake (round_half_even (q * inject_Z scale)) (Z.to_pos scale)).

(** Truncation toward zero, as [int(x)] on a finite float. *)
Definition Qtrunc (q : Q) : Z := Z.quot (Qnum q) (Zpos (Qden q)).

(** [float(n)] for an integer [n]: nearest binary64 (ties to even), or
    [OverflowError] beyond the binary64 range. *)
Definition Z_to_double (z : Z) : outcome pyfloat :=
  let a := Z.abs z in
  if (a <? 2 ^ 53)%Z then Return (FFin (inject_Z z))
  else
    let e := (Z.log2 a - 52)%Z in
    let m := round_half_even (Qmake a (Z.to_pos (2 ^ e))) in
    let r := (m * 2 ^ e)%Z in
    if (r <? 2 ^ 1024)%Z then Return (FFin (inject_Z (Z.sgn z * r)))
    else Raise OverflowError.

(** ** Text *)

Definition is_digit (c : ascii) : bool :=
  let n := nat_of_ascii c in (48 <=? n)%nat && (n <=? 57)%nat.

Definition digit_val (c : ascii) : Z := Z.of_nat (nat_of_ascii c - 48).

(** [\s] of [re] and the characters removed by [str.strip] (ASCII part). *)
Definition is_space (c : ascii) : bool :=
  let n := nat_of_ascii c in
  ((9 <=? n)%nat && (n <=? 13)%nat) || ((28 <=? n)%nat && (n <=? 32)%nat).

Definition is_alpha (c : ascii) : bool :=
  let n := nat_of_ascii c in
  ((65 <=? n)%nat && (n <=? 90)%nat) || ((97 <=? n)%nat && (n <=? 122)%nat).

(** [\w] of [re] (ASCII part). *)
Definition is_word (c : ascii) : bool :=
  is_alpha c || is_digit c || Ascii.eqb c "_".

Fixpoint lstrip (s : string) : string :=
  match s with
  | String c r => if is_space c then lstrip r else s
  | EmptyString => EmptyString
  end.

Definition string_rev (s : string) : string :=
  string_of_list_ascii (rev (list_ascii_of_string s)).

(** [s.strip()] *)
Definition strip (s : string) : string :=
  string_rev (lstrip (string_rev (lstrip s))).

Definition lower (c : ascii) : ascii :=
  let n := nat_of_ascii c in
  if (65 <=? n)%nat && (n <=? 90)%nat then ascii_of_nat (n + 32) else c.

Fixpoint lower_string (s : string) : string :=
  match s with
  | String c r => String (lower c) (lower_string r)
  | EmptyString => EmptyString
  end.

(** [needle in s] *)
Fixpoint contains (needle s : string) : bool :=
  String.prefix needle s ||
  match s with
  | String _ r => contains needle r
  | EmptyString => false
  end.

Definition startswith (p s : string) : bool := String.prefix p s.
Definition endswith (p s : string) : bool :=
  String.prefix (string_rev p) (string_rev s).

(** The longest prefix of the shape digit ('_'? digit)*, as Python's
    numeric literals in [int(str)] and [float(str)] accept it; returns the
    accumulated value, the number of digits read and the rest. *)
Fixpoint span_digits (acc : Z) (n : nat) (s : string) : Z * nat * string :=
  match s with
  | String c r =>
      if is_digit c then span_digits (10 * acc + digit_val c)%Z (S n) r
      else if Ascii.eqb c "_" then
        match r with
        | String c2 _ =>
            if is_digit c2 && (0 <? n)%nat then span_digits acc n r
            else (acc, n, s)
        | EmptyString => (acc, n, s)
        end
      else (acc, n, s)
  | EmptyString => (acc, n, s)
  end.

Definition split_sign (s : string) : bool * string :=
  match s with
  | String "+" r => (false, r)
  | String "-" r => (true, r)
  | _ => (false, s)
  end.

(** [int(s)] for a string, base ten. *)
Definition int_of_string (s : string) : option Z :=
  let '(neg, t) := split_sign (strip s) in
  match span_digits 0 0 t with
  | (v, S _, EmptyString) => Some (if neg then (- v)%Z else v)
  | _ => None
  end.

(** Magnitudes from this bound on round to infinity in binary64. *)
Definition double_overflow_bound : Z := (2 ^ 1024 - 2 ^ 970)%Z.

Definition pow10 (e : Z) : Q :=
  if (0 <=? e)%Z then inject_Z (10 ^ e) else Qmake 1 (Z.to_pos (10 ^ (- e))).

Definition parse_exponent (s : string) : option Z :=
  match s with
  | EmptyString => Some 0%Z
  | String c r =>
      if Ascii.eqb (lower c) "e" then
        let '(neg, t) := split_sign r in
        match span_digits 0 0 t with
        | (v, S _, EmptyString) => Some (if neg then (- v)%Z else v)
        | _ => None
        end
      else None
  end.

Definition split_exponent (s : string) : string * string :=
  match index 0 "e" (lower_string s) with
  | Some i => (substring 0 i s, substring i (String.length s - i) s)
  | None => (s, EmptyString)
  end.

(** [float(s)] for a string. *)
Definition float_of_string (s : string) : option pyfloat :=
  let '(neg, t) := split_sign (strip s) in
  let w := lower_string t in
  if String.eqb w "inf" || String.eqb w "infinity" then Some (FInf neg)
  else if String.eqb w "nan" then Some FNan
  else
    let '(mant_str, exp_str) := split_exponent t in
    let '(i, ni, r1) := span_digits 0 0 mant_str in
    let '(m, nf, r2) :=
      match r1 with
      | String "." r => span_digits i 0 r
      | _ => (i, 0%nat, r1)
      end in
    match r2, (ni + nf)%nat, parse_exponent exp_str with
    | EmptyString, S _, Some e =>
        let q := (inject_Z m * pow10 (e - Z.of_nat nf))%Q in
        if Qle_bool (inject_Z double_overflow_bound) q then Some (FInf neg)
        else Some (FFin (Qred (if neg then - q else q)))
    | _, _, _ => None
    end.

Definition string_of_Z (z : Z) : string := pretty z.

(** ** Conversions *)

(** [int(f)] for a float. *)
Definition int_of_float (f : pyfloat) : outcome Z :=
  match f with
  | FFin q => Return (Qtrunc q)
  | FInf _ => Raise OverflowError
  | FNan => Raise ValueError
  end.

(** [int(v)] *)
Definition py_int (v : value) : outcome Z :=
  match v with
  | VBool b => Return (Z_of_bool b)
  | VInt z => Return z
  | VFloat f => int_of_float f
  | VStr s =>
      match int_of_string s with Some z => Return z | None => Raise ValueError end
  | VNone | VList _ | VDict _ => Raise TypeError
  end.

(** [float(v)] *)
Definition py_float (v : value) : outcome pyfloat :=
  match v with
  | VBool b => Return (FFin (inject_Z (Z_of_bool b)))
  | VInt z => Z_to_double z
  | VFloat f => Return f
  | VStr s =>
      match float_of_string s with Some f => Return f | None => Raise ValueError end
  | VNone | VList _ | VDict _ => Raise TypeError
  end.

(** [isinstance(v, (str, int, float))]; [bool] is a subclass of [int]. *)
Definition is_str_int_float (v : value) : bool :=
  match v with
  | VBool _ | VInt _ | VFloat _ | VStr _ => true
  | VNone | VList _ | VDict _ => false
  end.

Definition is_dict (v : value) : bool :=
  match v with VDict _ => true | _ => false end.

(** * The percentile engine: [calculate_percentile_scores] *)

Module Percentile.

Inductive column := Location | Building | Convenience | Price | Total.

Definition all_columns : list column :=
  [Location; Building; Convenience; Price; Total].

(** The five score lists built by the first loop. *)
Record score_lists := {
  location_scores : list Z;
  building_scores : list Z;
  convenience_scores : list Z;
  price_scores : list Z;
  total_scores : list Z;
}.

Definition no_scores : score_lists :=
  {| location_scores := []; building_scores := []; convenience_scores := [];
     price_scores := []; total_scores := [] |}.

Definition col (c : column) (sl : score_lists) : list Z :=
  match c with
  | Location => location_scores sl
  | Building => building_scores sl
  | Convenience => convenience_scores sl
  | Price => price_scores sl
  | Total => total_scores sl
  end.

(** [<column>_scores.append(z)] *)
Definition append_score (c : column) (z : Z) (sl : score_lists) : score_lists :=
  match c with
  | Location =>
      {| location_scores := location_scores sl ++ [z];
         building_scores := building_scores sl;
         convenience_scores := convenience_scores sl;
         price_scores := price_scores sl; total_scores := total_scores sl |}
  | Building =>
      {| location_scores := location_scores sl;
         building_scores := building_scores sl ++ [z];
         convenience_scores := convenience_scores sl;
         price_scores := price_scores sl; total_scores := total_scores sl |}
  | Convenience =>
      {| location_scores := location_scores sl;
         building_scores := building_scores sl;
         convenience_scores := convenience_scores sl ++ [z];
         price_scores := price_scores sl; total_scores := total_scores sl |}
  | Price =>
      {| location_scores := location_scores sl;
         building_scores := building_scores sl;
         convenience_scores := convenience_scores sl;
         price_scores := price_scores sl ++ [z]; total_scores := total_scores sl |}
  | Total =>
      {| location_scores := location_scores sl;
         building_scores := building_scores sl;
         convenience_scores := convenience_scores sl;
         price_scores := price_scores sl; total_scores := total_scores sl ++ [z] |}
  end.

(** The handler of the bare [except:]: a zero on each of the five lists. *)
Definition append_zeros (sl : score_lists) : score_lists :=
  fold_left (fun acc c => append_score c 0%Z acc) all_columns sl.

(** [int(x) if isinstance(x, (str, int, float)) else 0] *)
Definition score_of (v : value) : outcome Z :=
  if is_str_int_float v then py_int v else Return 0%Z.

(** The sub-dict and key a category subtotal is read from; the total
    is read from the record itself. *)
Definition category_key (c : column) : option (string * string) :=
  match c with
  | Location => Some ("location_accessibility", "location_total")
  | Building => Some ("building_quality", "building_total")
  | Convenience => Some ("living_convenience", "convenience_total")
  | Price => Some ("price_value", "price_total")
  | Total => None
  end.

(** The score one block of the [try] body appends for [prop]. *)
Definition column_score (c : column) (prop : record) : outcome Z :=
  match category_key c with
  | Some (cat, key) =>
      match dict_get cat prop with
      | Some (VDict d) => score_of (dict_get_default key (VInt 0) d)
      | _ => Return 0%Z
      end
  | None => score_of (dict_get_default "total_score" (VInt 0) prop)
  end.

(** The [try] body for one record: the five blocks in order; a block that
    raises leaves the appends of the blocks before it in place. The boolean
    tells whether the body raised. *)
Fixpoint try_body (cols : list column) (prop : record) (sl : score_lists)
  : score_lists * bool :=
  match cols with
  | [] => (sl, false)
  | c :: cs =>
      match column_score c prop with
      | Return z => try_body cs prop (append_score c z sl)
      | Raise _ => (sl, true)
      end
  end.

Definition collect_one (sl : score_lists) (prop : record) : score_lists :=
  let '(sl', raised) := try_body all_columns prop sl in
  if raised then append_zeros sl' else sl'.

(** The first loop. *)
Definition collect_scores (properties_list : list record) : score_lists :=
  fold_left collect_one properties_list no_scores.

(** [l.index(x)] *)
Fixpoint list_index (x : Z) (l : list Z) : outcome nat :=
  match l with
  | [] => Raise ValueError
  | y :: l' => if (x =? y)%Z then Return 0%nat else S <$> list_index x l'
  end.

(** The percentile of one score: [round(rank / len(sorted_scores) * 100, 1)]. *)
Definition percentile_of (sorted_scores : list Z) (score : Z) : outcome Q :=
  i ← list_index score sorted_scores;
  let rank := Z.of_nat (i + 1) in
  mret (py_round (inject_Z rank / inject_Z (Z.of_nat (length sorted_scores)) * 100) 1).

(** The inner function [calculate_percentile]: the dict from each distinct
    score to its percentile. *)
Definition calculate_percentile (scores : list Z) : outcome (gmap Z Q) :=
  let sorted_scores := merge_sort Z.le scores in
  entries ← mapM (fun score => p ← percentile_of sorted_scores score; mret (score, p))
                 (elements (list_to_set scores : gset Z));
  mret (list_to_map entries).

(** [xs[i]] *)
Definition list_item (xs : list Z) (i : nat) : outcome Z :=
  match xs !! i with Some x => Return x | None => Raise IndexError end.

(** [percentiles.get(score, 0)] *)
Definition percentile_get (percentiles : gmap Z Q) (score : Z) : value :=
  match percentiles !! score with Some p => VNum p | None => VInt 0 end.

(** The number a stored percentile stands for in the weighted sum. *)
Definition number_of (v : value) : Q :=
  match v with
  | VFloat (FFin q) => q
  | VInt z => inject_Z z
  | _ => 0
  end.

Definition weighted_sum (l b c p : Q) : Q :=
  l * (4 # 10) + b * (3 # 10) + c * (15 # 100) + p * (15 # 100).

Definition percentile_key (c : column) : string :=
  match c with
  | Location => "location_percentile"
  | Building => "building_percentile"
  | Convenience => "convenience_percentile"
  | Price => "price_percentile"
  | Total => "total_percentile"
  end.

(** The body of the second loop for the record at index [i]. *)
Definition annotate (sl : score_lists) (pcts : column -> gmap Z Q)
  (i : nat) (prop : record) : outcome record :=
  profile ← mapM (fun c => s ← list_item (col c sl) i;
                          mret (percentile_key c, percentile_get (pcts c) s))
                 all_columns;
  let prop1 := dict_set "percentile_scores" (VDict profile) prop in
  let get k := number_of (dict_get_default k VNone profile) in
  let weighted_percentile :=
    weighted_sum (get "location_percentile") (get "building_percentile")
                 (get "convenience_percentile") (get "price_percentile") in
  mret (dict_set "weighted_percentile_score"
          (VNum (py_round weighted_percentile 2)) prop1).

Definition calculate_percentile_scores (properties_list : list record)
  : outcome (list record) :=
  match properties_list with
  | [] => Return []
  | _ =>
      let sl := collect_scores properties_list in
      lp ← calculate_percentile (location_scores sl);
      bp ← calculate_percentile (building_scores sl);
      cp ← calculate_percentile (convenience_scores sl);
      pp ← calculate_percentile (price_scores sl);
      tp ← calculate_percentile (total_scores sl);
      let pcts c :=
        match c with
        | Location => lp | Building => bp | Convenience => cp
        | Price => pp | Total => tp
        end in
      mapM (fun ip => annotate sl pcts (fst ip) (snd ip))
           (imap (fun i prop => (i, prop)) properties_list)
  end.

End Percentile.

(** * Regular expressions, as far as the parser of the response uses them

    A backtracking matcher with the priorities of Python's [re]: greedy
    and lazy repetition of a character class, one capture group,
    lookahead. *)

Module Re.

Inductive regex :=
| Eps
| Chr (p : ascii -> bool)
| Seq (r1 r2 : regex)
| Star (greedy : bool) (p : ascii -> bool)
| Group (r : regex)
| Ahead (r : regex).

(** The text consumed between [s] and its suffix [rest]. *)
Definition consumed (s rest : string) : string :=
  substring 0 (String.length s - String.length rest) s.

Section matcher.
(** What is left of the text, and the text of group 1 if it took part. *)
Let mstate : Type := string * option string.

Fixpoint star (greedy : bool) (p : ascii -> bool)
  (k : string -> option mstate) (s : string) : option mstate :=
  if greedy then
    match s with
    | String c r =>
        if p c then
          match star greedy p k r with
          | Some m => Some m
          | None => k s
          end
        else k s
    | EmptyString => k s
    end
  else
    match k s with
    | Some m => Some m
    | None =>
        match s with
        | String c r => if p c then star greedy p k r else None
        | EmptyString => None
        end
    end.

Fixpoint run (r : regex) (s : string) (g : option string)
  (k : string -> option string -> option mstate) : option mstate :=
  match r with
  | Eps => k s g
  | Chr p =>
      match s with
      | String c s' => if p c then k s' g else None
      | EmptyString => None
      end
  | Seq r1 r2 => run r1 s g (fun s1 g1 => run r2 s1 g1 k)
  | Star greedy p => star greedy p (fun s' => k s' g) s
  | Group r1 => run r1 s g (fun s1 _ => k s1 (Some (consumed s s1)))
  | Ahead r1 =>
      match run r1 s g (fun s1 g1 => Some (s1, g1)) with
      | Some _ => k s g
      | None => None
      end
  end.
End matcher.

(** A match anchored at the start of [s]: the rest and group 1. *)
Definition match_at (r : regex) (s : string) : option (string * option string) :=
  run r s None (fun s' g => Some (s', g)).

Record found := {
  before : string;          (* the text in front of the match *)
  group0 : string;          (* [m.group(0)] *)
  group1 : option string;   (* [m.group(1)] *)
  after : string;           (* the text behind the match *)
}.

(** [re.search]: the leftmost match. *)
Fixpoint search (r : regex) (s : string) : option found :=
  match match_at r s with
  | Some (rest, g) =>
      Some {| before := ""; group0 := consumed s rest; group1 := g; after := rest |}
  | None =>
      match s with
      | String c s' =>
          match search r s' with
          | Some f =>
              Some {| before := String c (before f); group0 := group0 f;
                      group1 := group1 f; after := after f |}
          | None => None
          end
      | EmptyString => None
      end
  end.

(** Where the scan resumes behind a match (one character further when the
    match is empty). *)
Definition resume (f : found) : option (string * string) :=
  match group0 f, after f with
  | EmptyString, String c rest => Some (String c "", rest)
  | EmptyString, EmptyString => None
  | _, rest => Some ("", rest)
  end.

Fixpoint finditer_fuel (fuel : nat) (r : regex) (s : string) : list found :=
  match fuel with
  | O => []
  | S fuel' =>
      match search r s with
      | None => []
      | Some f =>
          f :: match resume f with
               | Some (_, rest) => finditer_fuel fuel' r rest
               | None => []
               end
      end
  end.

(** [re.finditer]: the non-overlapping matches from left to right. *)
Definition finditer (r : regex) (s : string) : list found :=
  finditer_fuel (S (String.length s)) r s.

Fixpoint sub_fuel (fuel : nat) (r : regex) (repl : string -> string)
  (s : string) : string :=
  match fuel with
  | O => s
  | S fuel' =>
      match search r s with
      | None => s
      | Some f =>
          before f +:+ repl (default "" (group1 f)) +:+
          match resume f with
          | Some (skipped, rest) => skipped +:+ sub_fuel fuel' r repl rest
          | None => ""
          end
      end
  end.

(** [re.sub] with a replacement template that mentions group 1 only. *)
Definition sub (r : regex) (repl : string -> string) (s : string) : string :=
  sub_fuel (S (String.length s)) r repl s.

(** ** Building patterns *)

Fixpoint lit (s : string) : regex :=
  match s with
  | EmptyString => Eps
  | String c r => Seq (Chr (Ascii.eqb c)) (lit r)
  end.

(** A literal under [re.IGNORECASE]. *)
Fixpoint lit_nocase (s : string) : regex :=
  match s with
  | EmptyString => Eps
  | String c r => Seq (Chr (fun x => Ascii.eqb (lower x) (lower c))) (lit_nocase r)
  end.

Fixpoint seq (rs : list regex) : regex :=
  match rs with
  | [] => Eps
  | r :: rs' => Seq r (seq rs')
  end.

Definition any_char (c : ascii) : bool := true.

Fixpoint one_of (set : string) (c : ascii) : bool :=
  match set with
  | EmptyString => false
  | String x r => Ascii.eqb c x || one_of r c
  end.

Definition none_of (set : string) (c : ascii) : bool := negb (one_of set c).

(** [p+] *)
Definition plus (p : ascii -> bool) : regex := Seq (Chr p) (Star true p).

Definition spaces : regex := Star true is_space.

End Re.

(** ** Strings of the source *)

(** The double quote character, and a helper that lets JSON-like text be
    written with apostrophes in place of double quotes. *)
Definition dquote : ascii := ascii_of_nat 34.

Fixpoint dq (s : string) : string :=
  match s with
  | EmptyString => EmptyString
  | String c r => String (if Ascii.eqb c "'" then dquote else c) (dq r)
  end.

(** [str(v)]; [py_repr] supplies the text of floats and containers. *)
Definition py_str (py_repr : value -> string) (v : value) : string :=
  match v with
  | VNone => "None"
  | VBool true => "True"
  | VBool false => "False"
  | VInt z => string_of_Z z
  | VStr s => s
  | VFloat _ | VList _ | VDict _ => py_repr v
  end.

(** [len(v)] *)
Definition py_len (v : value) : outcome nat :=
  match v with
  | VList l => Return (length l)
  | VDict d => Return (length d)
  | VStr s => Return (String.length s)
  | _ => Raise TypeError
  end.

(** The items a [for] loop over [v] visits. *)
Definition py_iter (v : value) : outcome (list value) :=
  match v with
  | VList l => Return l
  | VDict d => Return (map (fun kv => VStr (fst kv)) d)
  | VStr s => Return (map (fun c => VStr (String c "")) (list_ascii_of_string s))
  | _ => Raise TypeError
  end.

(** * Tolerant parsing of the response (lines 240-340) *)

Module Parse.
Import Re.

(** Step 1, under [re.IGNORECASE]: ```json\s*([\s\S]*?)\s*``` *)
Definition json_fence : regex :=
  seq [lit "```"; lit_nocase "json"; spaces; Group (Star false any_char);
       spaces; lit "```"].

(** Step 2: ```\s*([\s\S]*?)\s*``` *)
Definition plain_fence : regex :=
  seq [lit "```"; spaces; Group (Star false any_char); spaces; lit "```"].

(** Step 3: \[\s*\{[\s\S]*?\}\s*\] *)
Definition bare_array : regex :=
  seq [lit "["; spaces; lit "{"; Star false any_char; lit "}"; spaces; lit "]"].

(** Steps 4 and 6, with ' written for the double quote:
    \{\s*'hidx'\s*:\s*'([^']+)'[^}]*\} *)
Definition object_pattern : regex :=
  seq [lit "{"; spaces; lit (dq "'hidx'"); spaces; lit ":"; spaces;
       lit (dq "'"); Group (plus (none_of (dq "'"))); lit (dq "'");
       Star true (none_of "}"); lit "}"].

(** [not json_str] *)
Definition falsy (json_str : option string) : bool :=
  match json_str with
  | None | Some EmptyString => true
  | Some _ => false
  end.

(** Steps 1 to 4: the text handed to [json.loads], if any. *)
Definition extract_json_str (response_text : string) : option string :=
  let json_str : option string :=
    match search json_fence response_text with
    | Some m => Some (strip (default "" (group1 m)))
    | None => None
    end in
  let json_str :=
    if falsy json_str then
      match search plain_fence response_text with
      | Some m =>
          let potential_json := strip (default "" (group1 m)) in
          if startswith "[" potential_json && endswith "]" potential_json
          then Some potential_json else json_str
      | None => json_str
      end
    else json_str in
  let json_str :=
    if falsy json_str then
      match search bare_array response_text with
      | Some m => Some (strip (group0 m))
      | None => json_str
      end
    else json_str in
  if falsy json_str then
    match search object_pattern response_text with
    | Some m => Some ("[" +:+ strip (group0 m) +:+ "]")
    | None => json_str
    end
  else json_str.

(** Step 5: the five [re.sub] repairs. *)
Definition repair (json_str : string) : string :=
  (* trailing commas: ,(\s*[}\]]) becomes \1 *)
  let fixed_json :=
    sub (seq [lit ","; Group (Seq spaces (Chr (one_of "}]")))])
        (fun g => g) json_str in
  (* bare keys: (\w+): becomes '\1': with ' for the double quote *)
  let fixed_json :=
    sub (seq [Group (plus is_word); lit ":"])
        (fun g => dq "'" +:+ g +:+ dq "':") fixed_json in
  (* bare values: :\s*([^',\[\]{}]+)(?=\s*[,}\]]) becomes : '\1' *)
  let fixed_json :=
    sub (seq [lit ":"; spaces; Group (plus (none_of (dq "',[]{}")));
              Ahead (Seq spaces (Chr (one_of ",}]")))])
        (fun g => dq ": '" +:+ g +:+ dq "'") fixed_json in
  (* quoted integers: :\s*'(\d+)' becomes : \1 *)
  let fixed_json :=
    sub (seq [lit ":"; spaces; lit (dq "'"); Group (plus is_digit); lit (dq "'")])
        (fun g => ": " +:+ g) fixed_json in
  (* quoted decimals: :\s*'(\d+\.\d+)' becomes : \1 *)
  sub (seq [lit ":"; spaces; lit (dq "'");
            Group (seq [plus is_digit; lit "."; plus is_digit]); lit (dq "'")])
      (fun g => ": " +:+ g) fixed_json.

(** The placeholder scorecard of step 6. *)
Definition placeholder (hidx : string) : value :=
  VDict [("hidx", VStr hidx); ("total_score", VInt 50);
         ("reanalysis_comment", VStr "JSON 파싱 실패로 기본값 사용")].

Section loads.
(** [json.loads]: the parsed value, [JSONDecodeError], or another error. *)
Variable json_loads : string -> outcome value.

(** One object found by the scan of step 6: parsed on its own, or replaced
    by the placeholder whatever the error (bare [except:]). *)
Definition salvage (m : found) : value :=
  match json_loads (group0 m) with
  | Return obj => obj
  | Raise _ => placeholder (default "" (group1 m))
  end.

Definition individual_objects (response_text : string) : list value :=
  map salvage (finditer object_pattern response_text).

(** What the parsing phase hands to the merge: [Return (Some l)] is
    [reanalyzed_list = l]; [Return None] is one of the early
    [return calculate_percentile_scores(properties_batch_data)]; [Raise]
    is an exception that leaves the phase. *)
Definition parse_response (response_text : string) : outcome (option value) :=
  match extract_json_str response_text with
  | None | Some EmptyString => Return None
  | Some json_str =>
      match json_loads json_str with
      | Return reanalyzed_list =>
          _ ← py_len reanalyzed_list;          (* the f-string of line 283 *)
          Return (Some reanalyzed_list)
      | Raise JSONDecodeError =>
          match json_loads (repair json_str) with
          | Return reanalyzed_list => Return (Some reanalyzed_list)
          | Raise JSONDecodeError =>
              match individual_objects response_text with
              | [] => Return None
              | objs => Return (Some (VList objs))
              end
          | Raise e => Raise e
          end
      | Raise e => Raise e
      end
  end.
End loads.

End Parse.

(** * The batch orchestrator: [reanalyze_property_batch] *)

Module Reanalyzer.
Import Percentile.

Definition API_MIN_DELAY_SECONDS_REANALYZER : Q := 2.
Definition MAX_RETRY : nat := 3.

(** ** Time and the external service *)

Inductive event :=
| Sleep (seconds : Q)       (* [time.sleep(seconds)] *)
| Call (attempt : nat).     (* [client.models.generate_content(...)] *)

(** The clock, the module-level [last_api_call_time_reanalyzer] and the
    calls and sleeps made so far. *)
Record world := {
  now : Q;
  last_api_call_time_reanalyzer : Q;
  trace : list event;
}.

Definition sleep (seconds : Q) (w : world) : world :=
  {| now := now w + seconds;
     last_api_call_time_reanalyzer := last_api_call_time_reanalyzer w;
     trace := trace w ++ [Sleep seconds] |}.

(** What one call of [generate_content] produces: a response whose [text]
    may be missing, or an exception with its message [str(e)]. *)
Inductive api_reply :=
| Reply (text : option string)
| ApiFailure (message : string).

(** Lines 138-144: wait until [API_MIN_DELAY_SECONDS_REANALYZER] have passed
    since the last recorded call. *)
Definition rate_limit_gate (w : world) : world :=
  let elapsed_since_last_call := (now w - last_api_call_time_reanalyzer w)%Q in
  if negb (Qle_bool API_MIN_DELAY_SECONDS_REANALYZER elapsed_since_last_call)
  then sleep (API_MIN_DELAY_SECONDS_REANALYZER - elapsed_since_last_call) w
  else w.

(** [60 + (retry_count * 30)] *)
Definition quota_wait (retry_count : nat) : Q :=
  inject_Z (60 + Z.of_nat retry_count * 30).

(** [2 ** retry_count] *)
Definition plain_wait (retry_count : nat) : Q :=
  inject_Z (2 ^ Z.of_nat retry_count).

Definition is_quota_error (error_message : string) : bool :=
  contains "429" error_message || contains "RESOURCE_EXHAUSTED" error_message.

Section externals.
(** [repr] of floats and containers, used by [str]. *)
Variable py_repr : value -> string.
(** [json.loads] *)
Variable json_loads : string -> outcome value.
(** [genai.Client(api_key=...)], which may raise. *)
Variable new_client : string -> outcome unit.
(** The reply to the attempt with the given [retry_count], and the time
    that attempt takes. *)
Variable generate_content : nat -> api_reply.
Variable latency : nat -> Q.
(** The order in which [for hidx in batch_hidx_set] visits a set. *)
Variable set_iter : gset string -> list string.

Definition do_call (retry_count : nat) (w : world) : world :=
  {| now := now w + latency retry_count;
     last_api_call_time_reanalyzer := last_api_call_time_reanalyzer w;
     trace := trace w ++ [Call retry_count] |}.

(** Lines 189-232: the [while retry_count < MAX_RETRY] loop; [remaining]
    is [MAX_RETRY - retry_count]. Returns [response_text]. *)
Fixpoint call_loop (remaining retry_count : nat) (w : world)
  : world * option string :=
  match remaining with
  | O => (w, None)
  | S remaining' =>
      let w := do_call retry_count w in
      match generate_content retry_count with
      | Reply (Some (String c s)) => (w, Some (strip (String c s)))
      | Reply _ =>
          let retry_count := S retry_count in
          let w :=
            if (retry_count <? MAX_RETRY)%nat
            then sleep (plain_wait retry_count) w else w in
          call_loop remaining' retry_count w
      | ApiFailure error_message =>
          let retry_count := S retry_count in
          let w :=
            if (retry_count <? MAX_RETRY)%nat then
              if is_quota_error error_message
              then sleep (quota_wait retry_count) w
              else sleep (plain_wait retry_count) w
            else w in
          call_loop remaining' retry_count w
      end
  end.

(** ** Reconciliation of the response with the batch (lines 342-401) *)

(** [prop.get('hidx')] when it is not [None]. *)
Definition hidx_of (prop : record) : option value :=
  match dict_get "hidx" prop with
  | Some VNone | None => None
  | Some v => Some v
  end.

Definition batch_hidx_list (properties_batch_data : list record) : list string :=
  omap (fun prop => py_str py_repr <$> hidx_of prop) properties_batch_data.

(** The records of the batch are objects shared between
    [properties_batch_data], [initial_batch_map] and [final_properties]:
    the store holds their current states by position in the batch, and
    the map and the result list hold positions. *)
Definition initial_batch_map (properties_batch_data : list record)
  : list (string * nat) :=
  fold_left
    (fun m ip =>
       match dict_get "hidx" (snd ip) with
       | Some v => dict_set (py_str py_repr v) (fst ip) m
       | None => m
       end)
    (imap (fun i prop => (i, prop)) properties_batch_data) [].

Record merge_state := {
  store : list record;
  final_properties : list nat;
  processed_hidxs : gset string;
}.

(** [int(float(v))] under [except (ValueError, TypeError)]: the integer,
    [None] when the value is kept, or the exception that escapes. *)
Definition coerce (v : value) : outcome (option Z) :=
  match f ← py_float v; int_of_float f with
  | Return z => Return (Some z)
  | Raise ValueError | Raise TypeError => Return None
  | Raise e => Raise e
  end.

Definition coerce_key (key : string) (d : dict) : outcome dict :=
  match dict_get key d with
  | Some v =>
      o ← coerce v;
      mret (match o with Some z => dict_set key (VInt z) d | None => d end)
  | None => Return d
  end.

Definition coerce_keys (keys : list string) (d : dict) : outcome dict :=
  foldM (fun d sub_key =>
           if contains "total" sub_key || contains "score" sub_key
           then coerce_key sub_key d else Return d)
        keys d.

Definition coerce_category (category : string) (item : dict) : outcome dict :=
  match dict_get category item with
  | Some (VDict sub) =>
      sub' ← coerce_keys (map fst sub) sub;
      mret (dict_set category (VDict sub') item)
  | _ => Return item
  end.

Definition categories : list string :=
  ["location_accessibility"; "building_quality"; "living_convenience";
   "price_value"].

(** Lines 356-370 *)
Definition coerce_item (item : dict) : outcome dict :=
  item ← coerce_key "total_score" item;
  foldM (fun item category => coerce_category category item) categories item.

Section merge.
Variable properties_batch_data : list record.

Definition batch_hidx_set : gset string :=
  list_to_set (batch_hidx_list properties_batch_data).

Definition initial_state : merge_state :=
  {| store := properties_batch_data; final_properties := [];
     processed_hidxs := ∅ |}.

(** [str(item.get('hidx', ''))]; only a dict has [get]. *)
Definition item_hidx (item : value) : outcome string :=
  match item with
  | VDict d => Return (py_str py_repr (dict_get_default "hidx" (VStr "") d))
  | _ => Raise AttributeError
  end.

(** The body of [for item in reanalyzed_list] (lines 350-382). *)
Definition merge_item (st : merge_state) (item : value) : outcome merge_state :=
  hidx ← item_hidx item;
  if bool_decide (hidx ∈ batch_hidx_set)
     && bool_decide (hidx ∉ processed_hidxs st) then
    match dict_get hidx (initial_batch_map properties_batch_data), item with
    | Some i, VDict d =>
        d' ← coerce_item d;
        mret {| store := alter (fun prop => dict_update prop d') i (store st);
                final_properties := final_properties st ++ [i];
                processed_hidxs := {[hidx]} ∪ processed_hidxs st |}
    | _, _ => Return st
    end
  else Return st.

(** The loop; when an item raises, the state reached before it and the
    exception. *)
Fixpoint merge_items (st : merge_state) (items : list value)
  : merge_state * option exn :=
  match items with
  | [] => (st, None)
  | item :: items' =>
      match merge_item st item with
      | Return st' => merge_items st' items'
      | Raise e => (st, Some e)
      end
  end.

Definition missing_comment : string :=
  "재평가 API 응답에서 누락되어 원본 데이터 유지".

(** The body of [for hidx in batch_hidx_set] (lines 386-392). *)
Definition mark_missing (st : merge_state) (hidx : string) : merge_state :=
  if bool_decide (hidx ∉ processed_hidxs st) then
    match dict_get hidx (initial_batch_map properties_batch_data) with
    | Some i =>
        {| store := alter (dict_set "reanalysis_comment" (VStr missing_comment))
                          i (store st);
           final_properties := final_properties st ++ [i];
           processed_hidxs := processed_hidxs st |}
    | None => st
    end
  else st.

Definition add_missing (st : merge_state) : merge_state :=
  fold_left mark_missing (set_iter batch_hidx_set) st.

(** The records [final_properties] refers to. *)
Definition final_records (st : merge_state) : list record :=
  omap (fun i => store st !! i) (final_properties st).

(** Lines 342-401 for a given [reanalyzed_list]: the states of the
    records of the batch at the exit, and the result or the exception. *)
Definition reconcile (reanalyzed_list : value)
  : list record * outcome (list record) :=
  match _ ← py_len reanalyzed_list; py_iter reanalyzed_list with
  | Raise e => (properties_batch_data, Raise e)
  | Return items =>
      match merge_items initial_state items with
      | (st, Some e) => (store st, Raise e)
      | (st, None) =>
          let st := add_missing st in
          (store st, calculate_percentile_scores (final_records st))
      end
  end.

(** Lines 240-401, the body of the inner [try]. *)
Definition process_response (response_text : string)
  : list record * outcome (list record) :=
  match Parse.parse_response json_loads response_text with
  | Raise e => (properties_batch_data, Raise e)
  | Return None =>
      (properties_batch_data, calculate_percentile_scores properties_batch_data)
  | Return (Some reanalyzed_list) => reconcile reanalyzed_list
  end.

(** The two handlers (lines 403-411): each returns
    [calculate_percentile_scores(properties_batch_data)] on the records
    as they are by then. *)
Definition handled (r : list record * outcome (list record))
  : outcome (list record) :=
  let fallback (_ : exn) := calculate_percentile_scores (fst r) in
  try_except (try_except (snd r) fallback) fallback.
End merge.

(** [not api_key] *)
Definition no_key (api_key : option string) : bool :=
  match api_key with
  | None | Some EmptyString => true
  | Some _ => false
  end.

Definition reanalyze_property_batch (w : world)
  (properties_batch_data : list record) (api_key : option string)
  : world * outcome (list record) :=
  match properties_batch_data with
  | [] => (w, Return [])
  | _ =>
      if no_key api_key then (w, calculate_percentile_scores properties_batch_data)
      else
        let api_key := strip (default "" api_key) in
        match batch_hidx_list properties_batch_data with
        | [] => (w, calculate_percentile_scores properties_batch_data)
        | _ =>
            let w := rate_limit_gate w in
            match new_client api_key with
            | Raise e =>
                (w, handled (properties_batch_data, Raise e))
            | Return _ =>
                let '(w, response_text) := call_loop MAX_RETRY 0 w in
                let w :=
                  {| now := now w; last_api_call_time_reanalyzer := now w;
                     trace := trace w |} in
                match response_text with
                | None | Some EmptyString =>
                    (w, handled (properties_batch_data,
                                 calculate_percentile_scores properties_batch_data))
                | Some response_text =>
                    (w, handled (process_response properties_batch_data
                                                  response_text))
                end
            end
        end
  end.
End externals.

End Reanalyzer.

(** * The convergence combine: [calculate_weighted_average_scores] *)

Module Convergence.

(** [CONVERGENCE_THRESHOLD], imported from [gemini_reanalyzer]. *)
Definition CONVERGENCE_THRESHOLD : Q := 5.

(** One entry of [property_results]. *)
Record group := {
  scores : list value;
  weights : list Q;
  properties : list record;
}.

Definition empty_group : group :=
  {| scores := []; weights := []; properties := [] |}.

Definition Qsum (l : list Q) : Q := fold_right Qplus 0%Q l.

(** The number a score stands for in a numpy array. A score that is not a
    finite number makes the function raise: numpy rejects a non-numeric
    score, and [int(round(...))] rejects a non-finite average. *)
Definition numeric (v : value) : outcome Q :=
  match v with
  | VBool b => Return (inject_Z (Z_of_bool b))
  | VInt z => Return (inject_Z z)
  | VFloat (FFin q) => Return q
  | VFloat _ => Raise ValueError
  | VNone | VStr _ | VList _ | VDict _ => Raise TypeError
  end.

(** [np.average(a, weights=w)] *)
Definition np_average (a w : list Q) : Q :=
  Qsum (zip_with Qmult a w) / Qsum w.

(** [np.var(a)]: the population variance. *)
Definition np_var (a : list Q) : Q :=
  let n := inject_Z (Z.of_nat (length a)) in
  let mean : Q := (Qsum a / n)%Q in
  Qsum (map (fun x : Q => (x - mean) * (x - mean))%Q a) / n.

(** [f"{x:.2f}"] for a number that is not negative. *)
Definition format_2f (x : Q) : string :=
  let h := round_half_even (x * 100)%Q in
  let frac := (h mod 100)%Z in
  string_of_Z (h / 100) +:+ "." +:+
  (if (frac <? 10)%Z then "0" else "") +:+ string_of_Z frac.

Section externals.
Variable py_repr : value -> string.

(** The body of [for prop in round_result] (lines 220-231). *)
Definition add_result (weight : Q) (property_results : list (string * group))
  (prop : record) : list (string * group) :=
  let hidx := py_str py_repr (dict_get_default "hidx" VNone prop) in
  let data := dict_get_default hidx empty_group property_results in
  dict_set hidx
    {| scores := scores data ++ [dict_get_default "total_score" (VInt 0) prop];
       weights := weights data ++ [weight];
       properties := properties data ++ [prop] |}
    property_results.

(** The grouping loop (lines 216-231). *)
Definition group_results (all_round_results : list (list record))
  : list (string * group) :=
  fold_left
    (fun property_results ir =>
       let weight : Q :=
         (inject_Z (Z.of_nat (fst ir + 1)%nat)
          / inject_Z (Z.of_nat (length all_round_results)))%Q in
       fold_left (add_result weight) (snd ir) property_results)
    (imap (fun round_idx round_result => (round_idx, round_result))
          all_round_results)
    [].

(** The body of [for hidx, data in property_results.items()]
    (lines 238-264); [None] is the [continue]. *)
Definition combine (data : group) : outcome (option record) :=
  match last (properties data) with
  | None => Return None
  | Some latest =>
      a ← mapM numeric (scores data);
      let weighted_score := np_average a (weights data) in
      let many := (1 <? length (scores data))%nat in
      let variance : Q := if many then np_var a else 0%Q in
      let is_converged := Qle_bool variance CONVERGENCE_THRESHOLD in
      let final_prop := latest in
      let final_prop :=
        dict_set "total_score" (VInt (round_half_even weighted_score)) final_prop in
      let final_prop :=
        dict_set "score_variance"
          (if many then VNum (py_round variance 2) else VInt 0) final_prop in
      let final_prop := dict_set "score_rounds" (VList (scores data)) final_prop in
      let final_prop := dict_set "is_converged" (VBool is_converged) final_prop in
      let final_prop :=
        dict_set "reanalysis_comment"
          (VStr ("다중 라운드 재평가 완료 (라운드: "
                 +:+ string_of_Z (Z.of_nat (length (scores data)))
                 +:+ ", 분산: " +:+ format_2f variance +:+ ")"))
          final_prop in
      Return (Some final_prop)
  end.

Definition calculate_weighted_average_scores
  (all_round_results : list (list record)) : outcome (list record) :=
  match all_round_results with
  | [] => Return []
  | _ =>
      results ← mapM (fun kv => combine (snd kv)) (group_results all_round_results);
      mret (omap id results)
  end.
End externals.

End Convergence.

(** * Saving the results: [flatten_nested_dict] *)

Module Flatten.

(** [dict(items)]: a later pair with a key already met replaces the value
    and keeps the position. *)
Definition dict_of_items (items : list (string * value)) : dict :=
  dict_update [] items.

(** [f"{parent_key}{sep}{k}" if parent_key else k] *)
Definition child_key (parent_key sep k : string) : string :=
  match parent_key with
  | EmptyString => k
  | _ => parent_key +:+ sep +:+ k
  end.

(** What the loop adds to [items] for the value [v] under the key
    [new_key]: the items of [flatten_nested_dict(v, new_key, sep)] when [v]
    is a dict, the pair itself otherwise. *)
Fixpoint flatten_value (sep new_key : string) (v : value) : list (string * value) :=
  match v with
  | VDict d =>
      dict_of_items
        ((fix items (d : dict) : list (string * value) :=
            match d with
            | [] => []
            | (k, v) :: d' => flatten_value sep (child_key new_key sep k) v ++ items d'
            end) d)
  | _ => [(new_key, v)]
  end.

Definition flatten_nested_dict (d : dict) (parent_key sep : string) : dict :=
  flatten_value sep parent_key (VDict d).

End Flatten.

(** * Loading the sheet: [process_nested_structure] and
      [load_properties_from_excel] *)

Module Rows.

(** A cell of a row as pandas hands it over: [None], a boolean, a number
    or a text. *)
Inductive scalar :=
| SNone
| SBool (b : bool)
| SInt (z : Z)
| SFloat (f : pyfloat)
| SStr (s : string).

Definition value_of (c : scalar) : value :=
  match c with
  | SNone => VNone
  | SBool b => VBool b
  | SInt z => VInt z
  | SFloat f => VFloat f
  | SStr s => VStr s
  end.

(** [row_dict]: the column names with the cells of one row. *)
Definition row : Type := list (string * scalar).

(** [s.split(sep)] for a separator of one character. *)
Fixpoint split (sep : ascii) (s : string) : list string :=
  match s with
  | EmptyString => [EmptyString]
  | String c r =>
      if Ascii.eqb c sep then EmptyString :: split sep r
      else match split sep r with
           | part :: parts => String c part :: parts
           | [] => [String c EmptyString]
           end
  end.

(** Lines 32-37: the walk along [parts[:-1]] that creates the dicts that
    are missing, and the assignment to [parts[-1]] at its end. Walking
    into a value that is no dict raises [TypeError]. *)
Fixpoint set_path (parts : list string) (value : value) (current : dict)
  : outcome dict :=
  match parts with
  | [] => Return current
  | [last_part] => Return (dict_set last_part value current)
  | part :: rest =>
      match dict_get part current with
      | None =>
          sub ← set_path rest value [];
          mret (dict_set part (VDict sub) current)
      | Some (VDict sub) =>
          sub ← set_path rest value sub;
          mret (dict_set part (VDict sub) current)
      | Some _ => Raise TypeError
      end
  end.

(** The body of the first loop (lines 28-40). *)
Definition place (result : dict) (kv : string * scalar) : outcome dict :=
  let '(key, value) := kv in
  if contains "." key then set_path (split "." key) (value_of value) result
  else Return (dict_set key (value_of value) result).

Definition field_mapping : list (string * string) :=
  [("매물 ID", "hidx");
   ("총점 (100점)", "total_score");
   ("주소", "address");
   ("보증금", "deposit");
   ("추천 대상 및 종합 의견", "recommendation")].

Definition nested_fields : list (string * list (string * string)) :=
  [("location_accessibility",
    [("광화문 접근성 (15점)", "gwanghwamun_score");
     ("주변 편의시설 (15점)", "amenities_score");
     ("교통 편의성 (10점)", "transportation_score");
     ("위치/접근성 총점 (40점)", "location_total")]);
   ("building_quality",
    [("건물 상태 (15점)", "condition_score");
     ("공간 효율성 (10점)", "space_score");
     ("층수/향 (5점)", "floor_score");
     ("건물/시설 총점 (30점)", "building_total")]);
   ("living_convenience",
    [("가전제품 (8점)", "appliances_score");
     ("가구/시설 (7점)", "furniture_score");
     ("생활 편의성  총점 (15점)", "convenience_total")]);
   ("price_value",
    [("시세 대비 가격 (10점)", "market_score");
     ("관리비/추가비용 (5점)", "extra_cost_score");
     ("가격 경쟁력 총점 (15 점)", "price_total")]);
   ("credibility",
    [("허위매물 가능성", "fake_possibility");
     ("신뢰도 평가", "credibility_comment")])].

(** Lines 51-53 *)
Definition map_field (row_dict : row) (result : dict) (names : string * string) : dict :=
  let '(old_key, new_key) := names in
  match dict_get old_key row_dict with
  | Some v => dict_set new_key (value_of v) result
  | None => result
  end.

(** Lines 89-91: the fields of one category that the row holds and that
    are not [None]. *)
Definition category_fields (row_dict : row) (field_map : list (string * string)) : dict :=
  fold_left
    (fun sub names =>
       match dict_get (fst names) row_dict with
       | Some SNone | None => sub
       | Some v => dict_set (snd names) (value_of v) sub
       end)
    field_map [].

(** Lines 86-91 *)
Definition nest_category (row_dict : row) (result : dict)
  (entry : string * list (string * string)) : dict :=
  let '(category, field_map) := entry in
  if existsb (fun names => dict_has (fst names) row_dict) field_map
  then dict_set category (VDict (category_fields row_dict field_map)) result
  else result.

(** [del d[k]] *)
Fixpoint dict_remove {V} (k : string) (d : list (string * V)) : list (string * V) :=
  match d with
  | [] => []
  | (k', v) :: d' => if String.eqb k k' then d' else (k', v) :: dict_remove k d'
  end.

(** The longest text of digits [int] converts (the default of
    [sys.set_int_max_str_digits]). *)
Definition MAX_STR_DIGITS : nat := 4300.

(** [int(digits)] for a run of digits. *)
Definition int_of_digits (digits : string) : outcome Z :=
  if (MAX_STR_DIGITS <? String.length digits)%nat then Raise ValueError
  else match int_of_string digits with
       | Some z => Return z
       | None => Raise ValueError
       end.

Definition unknown_keywords : list string :=
  ["확인 불가"; "정보 없음"; "미제공"; "없음"].

(** [x == 0] for a number. *)
Definition is_zero (c : scalar) : bool :=
  match c with
  | SBool b => negb b
  | SInt z => (z =? 0)%Z
  | SFloat (FFin q) => Qeq_bool q 0
  | _ => false
  end.

(** Lines 100-119: what is stored as [maintenance_cost]. *)
Definition maintenance (maintenance_cost : scalar) : outcome value :=
  match maintenance_cost with
  | SStr s =>
      if existsb (fun keyword => contains keyword s) unknown_keywords
      then Return (VStr "확인 불가")
      else if String.eqb (strip s) "" || String.eqb (strip s) "0"
      then Return (VStr "정보 없음")
      else
        match Re.search (Re.plus is_digit) s with
        | Some numbers0 =>
            z ← int_of_digits (Re.group0 numbers0);
            mret (VInt (z * 10000))
        | None => Return (VStr s)
        end
  | SBool _ | SInt _ | SFloat _ =>
      if is_zero maintenance_cost then Return (VStr "정보 없음")
      else Return (value_of maintenance_cost)
  | SNone => Return (VStr "정보 없음")
  end.

(** Lines 94-119 *)
Definition move_deposit (row_dict : row) (result : dict) : outcome dict :=
  match dict_get "deposit" result with
  | Some deposit =>
      let result := dict_remove "deposit" result in
      price ←
        match dict_get "관리비" row_dict with
        | Some maintenance_cost =>
            m ← maintenance maintenance_cost;
            mret [("deposit", deposit); ("maintenance_cost", m)]
        | None => Return [("deposit", deposit)]
        end;
      mret (dict_set "price" (VDict price) result)
  | None => Return result
  end.

(** Lines 122-124 *)
Definition move_recommendation (result : dict) : dict :=
  match dict_get "recommendation" result with
  | Some recommendation =>
      dict_set "summary" (VDict [("recommendation", recommendation)])
               (dict_remove "recommendation" result)
  | None => result
  end.

Definition initial_comment : string := "초기 분석 결과, 재평가 대기 중".

Definition process_nested_structure (row_dict : row) : outcome dict :=
  result ← foldM place row_dict [];
  let result := fold_left (map_field row_dict) field_mapping result in
  let result := fold_left (nest_category row_dict) nested_fields result in
  result ← move_deposit row_dict result;
  let result := move_recommendation result in
  mret (dict_set "reanalysis_comment" (VStr initial_comment) result).

Section externals.
Variable py_repr : value -> string.

(** Lines 153-167 for the row with the index label [index]. *)
Definition property_of_row (index : nat) (row_dict : row) : outcome record :=
  property_dict ← process_nested_structure row_dict;
  let property_dict :=
    if dict_has "hidx" property_dict then property_dict
    else
      match dict_get "매물 ID" row_dict with
      | Some v => dict_set "hidx" (VStr (py_str py_repr (value_of v))) property_dict
      | None =>
          match dict_get "id" property_dict with
          | Some v => dict_set "hidx" (VStr (py_str py_repr v)) property_dict
          | None =>
              dict_set "hidx" (VStr (string_of_Z (Z.of_nat index + 1))) property_dict
          end
      end in
  mret (match dict_get "hidx" property_dict with
        | Some (VStr _) | None => property_dict
        | Some v => dict_set "hidx" (VStr (py_str py_repr v)) property_dict
        end).

(** [load_properties_from_excel] on the rows of the sheet, given as the
    [row_dict]s that lines 134-150 build, under the default index 0, 1, ...:
    an exception in any row is caught by the handler of the whole
    function, which returns the empty list. *)
Definition load_properties_from_excel (rows : list row) : list record :=
  match mapM (fun ir => property_of_row (fst ir) (snd ir))
             (imap (fun index row_dict => (index, row_dict)) rows) with
  | Return properties_data => properties_data
  | Raise _ => []
  end.
End externals.

End Rows.

(** * The drivers: batches, ranking and the safety net of [main] *)

Module Batching.

(** [l[start:stop]] for indices that are not negative. *)
Definition slice {A} (l : list A) (start stop : nat) : list A :=
  take (stop - start) (drop start l).

Fixpoint range_from (fuel start stop step : nat) : list nat :=
  match fuel with
  | O => []
  | S fuel' =>
      if (start <? stop)%nat then start :: range_from fuel' (start + step) stop step
      else []
  end.

(** [range(start, stop, step)] for a positive [step]. *)
Definition range3 (start stop step : nat) : list nat :=
  range_from stop start stop step.

(** The batch sizes of [run_reanalysis.py] and of [main.py]. *)
Definition REANALYSIS_BATCH_SIZE : nat := 15.
Definition INITIAL_ANALYSIS_BATCH_SIZE : nat := 60.
Definition MAIN_REANALYSIS_BATCH_SIZE : nat := 100.

(** [run_reanalysis.main], lines 318-320:
    [[l[i:i + size] for i in range(0, len(l), size)]]. *)
Definition batches {A} (size : nat) (l : list A) : list (list A) :=
  map (fun i => slice l i (i + size)) (range3 0 (length l) size).

(** [main.main], lines 154-157: the batches of the initial analysis. *)
Definition initial_batches {A} (size : nat) (l : list A) : list (list A) :=
  map (fun i => slice l i (Nat.min (i + size) (length l))) (range3 0 (length l) size).

(** [math.ceil(n / size)]; the quotient is a float, read as the rational
    it stands for. *)
Definition num_batches (size n : nat) : nat :=
  Z.to_nat (Qceiling (inject_Z (Z.of_nat n) / inject_Z (Z.of_nat size))).

(** [main.main], lines 196-201: the slice of each batch index. *)
Definition reanalysis_slices {A} (size : nat) (l : list A) : list (list A) :=
  map (fun batch_idx =>
         slice l (batch_idx * size) (Nat.min ((batch_idx + 1) * size) (length l)))
      (seq 0 (num_batches size (length l))).

(** Lines 203-205: an empty slice is skipped. *)
Definition reanalysis_batches {A} (size : nat) (l : list A) : list (list A) :=
  filter (fun batch => batch <> []) (reanalysis_slices size l).

End Batching.

Module Ranking.
Import Percentile.

(** The number of digits [int] reads from a text. *)
Definition digits_of (s : string) : nat :=
  let '(_, t) := split_sign (strip s) in snd (fst (span_digits 0 0 t)).

(** [int(v)], with the limit on the digits of a text. *)
Definition int_checked (v : value) : outcome Z :=
  match v with
  | VStr s =>
      if (Rows.MAX_STR_DIGITS <? digits_of s)%nat then Raise ValueError else py_int v
  | _ => py_int v
  end.

(** [get_score_for_sort] of [main.main] (lines 171-174): only [ValueError]
    is handled. *)
Definition get_score_for_sort (prop : record) : outcome Z :=
  let score_val := dict_get_default "total_score" (VInt 0) prop in
  match (if is_str_int_float score_val then int_checked score_val else Return 0%Z) with
  | Raise ValueError => Return 0%Z
  | r => r
  end.

(** One step of a stable sort by descending key: [x], which stood in front
    of all of [l], goes behind the entries with a greater key only. *)
Fixpoint insert_desc {A} (x : Z * A) (l : list (Z * A)) : list (Z * A) :=
  match l with
  | [] => [x]
  | y :: l' =>
      if (fst x <? fst y)%Z then y :: insert_desc x l' else x :: y :: l'
  end.

(** [sorted(l, key=key, reverse=True)]: the keys are computed first, in
    order; the sort is stable, which fixes its result. *)
Definition sorted_desc {A} (key : A -> outcome Z) (l : list A) : outcome (list A) :=
  keys ← mapM key l;
  mret (map snd (foldr insert_desc [] (zip keys l))).

(** [for i, prop in enumerate(l): prop['rank'] = i + 1], the records being
    distinct objects. *)
Definition set_ranks (l : list record) : list record :=
  imap (fun i prop => dict_set "rank" (VInt (Z.of_nat i + 1)) prop) l.

(** Lines 177-185 of [main.main]: sort by total score, keep the unsorted
    list when that raises, then rank. *)
Definition rank_by_score (l : list record) : list record :=
  let sorted_l :=
    match sorted_desc get_score_for_sort l with
    | Return sorted_l => sorted_l
    | Raise _ => l
    end in
  set_ranks sorted_l.

End Ranking.

Module Fill.

(** The truth value of a Python value. *)
Definition truthy (v : value) : bool :=
  match v with
  | VNone => false
  | VBool b => b
  | VInt z => negb (z =? 0)%Z
  | VFloat (FFin q) => negb (Qeq_bool q 0)
  | VFloat _ => true
  | VStr s => negb (String.eqb s "")
  | VList l => match l with [] => false | _ => true end
  | VDict d => match d with [] => false | _ => true end
  end.

(** An element of [final_reanalyzed_properties]: one of the objects of
    [initially_analyzed_properties], by its position there, or another
    object. *)
Inductive ref :=
| Initial (i : nat)
| Other (prop : record).

Definition resolve (store : list record) (r : ref) : option record :=
  match r with
  | Initial i => store !! i
  | Other prop => Some prop
  end.

Definition note_error : string := "; 최종 재평가 결과에서 누락됨".
Definition note_comment : string :=
  "; 최종 재평가 결과에서 누락되어 초기 분석 데이터 사용".

(** [prop[field] = prop.get(field, "") + note]: [+] with a text on the
    right raises [TypeError] unless the left is a text. *)
Definition append_note (field note : string) (prop : record) : outcome record :=
  match dict_get_default field (VStr "") prop with
  | VStr s => Return (dict_set field (VStr (s +:+ note)) prop)
  | _ => Raise TypeError
  end.

(** Lines 242-243 *)
Definition mark (prop : record) : outcome record :=
  prop ← append_note "ai_reanalysis_error" note_error prop;
  append_note "reanalysis_comment" note_comment prop.

Section externals.
Variable py_repr : value -> string.

(** [prop.get('hidx')] as a condition, and [str(prop.get('hidx'))]. *)
Definition has_hidx (prop : record) : bool :=
  truthy (dict_get_default "hidx" VNone prop).
Definition hidx_str (prop : record) : string :=
  py_str py_repr (dict_get_default "hidx" VNone prop).

(** [{str(prop.get('hidx')) for prop in props if prop.get('hidx')}]; of the
    sets only membership and emptiness are used, so they are kept as
    lists. *)
Definition hidx_set (props : list record) : list string :=
  map hidx_str (filter (fun prop => has_hidx prop = true) props).

(** Lines 233-244 of [main.main]: the records of the initial analysis
    (distinct objects, in [initial]) whose identifier is in no record of
    the result are marked and appended. Returns the initial records as
    they are afterwards, and the result list. *)
Definition fill_missing (initial : list record) (final : list ref)
  : outcome (list record * list ref) :=
  let reanalyzed_hidxs := hidx_set (omap (resolve initial) final) in
  let initial_hidxs := hidx_set initial in
  let missing_hidxs := filter (fun hidx => hidx ∉ reanalyzed_hidxs) initial_hidxs in
  match missing_hidxs with
  | [] => Return (initial, final)
  | _ =>
      let missing (prop : record) := bool_decide (hidx_str prop ∈ missing_hidxs) in
      store ← mapM (fun prop => if missing prop then mark prop else Return prop) initial;
      mret (store,
            final ++ omap (fun ip => if missing (snd ip) then Some (Initial (fst ip)) else None)
                          (imap (fun i prop => (i, prop)) initial))
  end.

(** The records the result list stands for. *)
Definition final_records (r : list record * list ref) : list record :=
  omap (resolve (fst r)) (snd r).

End externals.

End Fill.

(** * The vocabulary of the statements *)

(** ** The percentile engine *)

Module PercentileSpec.
Import Percentile.

(** The position of the first occurrence of [x]. *)
Fixpoint first_index (x : Z) (l : list Z) : nat :=
  match l with
  | [] => 0
  | y :: l' => if (x =? y)%Z then 0 else S (first_index x l')
  end.

(** The percentile as the specification words it: the 1-based rank of the
    first occurrence of the score in the ascending-sorted score list,
    divided by the number of scores, times 100, rounded to one decimal. *)
Definition spec_percentile (scores : list Z) (score : Z) : Q :=
  let sorted_scores := merge_sort Z.le scores in
  let rank := Z.of_nat (first_index score sorted_scores + 1) in
  py_round (inject_Z rank / inject_Z (Z.of_nat (length scores)) * 100) 1.

(** The score of a column when its block does not raise. *)
Definition score (c : column) (prop : record) : Z :=
  match column_score c prop with Return z => z | Raise _ => 0%Z end.

(** No block of the [try] body raises on [prop]. *)
Definition clean (prop : record) : bool :=
  forallb (fun c => match column_score c prop with Return _ => true | Raise _ => false end)
          all_columns.

(** The percentile the record at position [i] gets in column [c]. *)
Definition column_percentile (sl : score_lists) (c : column) (i : nat) : Q :=
  spec_percentile (col c sl) (nth i (col c sl) 0%Z).

(** The composite of four category percentiles. *)
Definition composite (l b c p : Q) : Q := py_round (weighted_sum l b c p) 2.

Definition annotated (sl : score_lists) (i : nat) (prop : record) : record :=
  dict_set "weighted_percentile_score"
    (VNum (composite (column_percentile sl Location i) (column_percentile sl Building i)
                     (column_percentile sl Convenience i) (column_percentile sl Price i)))
    (dict_set "percentile_scores"
       (VDict (map (fun c => (percentile_key c, VNum (column_percentile sl c i)))
                   all_columns))
       prop).

Definition profile (f : column -> Q) : dict :=
  map (fun c => (percentile_key c, VNum (f c))) all_columns.

(** What a record carries under [percentile_scores][k]. *)
Definition profile_entry (r : record) (k : string) : option Q :=
  match dict_get "percentile_scores" r with
  | Some (VDict d) =>
      match dict_get k d with
      | Some (VFloat (FFin q)) => Some q
      | _ => None
      end
  | _ => None
  end.

Definition weighted_entry (r : record) : option Q :=
  match dict_get "weighted_percentile_score" r with
  | Some (VFloat (FFin q)) => Some q
  | _ => None
  end.

End PercentileSpec.

(** ** The convergence combine *)

Module ConvergenceSpec.
Import Convergence.

(** The keys of a list in the order of their first appearance, as the keys
    of a dict filled in that order. *)
Definition first_occurrences (l : list string) : list string :=
  fold_left (fun (acc : list string) h =>
               if bool_decide (h ∈ acc) then acc else (acc ++ [h])%list) l [].

(** A dict given by its keys and a function. *)
Definition tabulate {V} (f : string -> V) (keys : list string) : list (string * V) :=
  map (fun k => (k, f k)) keys.

(** The number a numeric score stands for. *)
Definition num (v : value) : Q :=
  match numeric v with Return q => q | Raise _ => 0%Q end.

Definition is_numeric (v : value) : bool :=
  match numeric v with Return _ => true | Raise _ => false end.

Section grouping.
Variable py_repr : value -> string.

(** [str(prop.get('hidx'))] and [prop.get('total_score', 0)] *)
Definition identifier (prop : record) : string :=
  py_str py_repr (dict_get_default "hidx" VNone prop).
Definition raw_score (prop : record) : value :=
  dict_get_default "total_score" (VInt 0) prop.

(** Every record of every round with the 1-based number of its round. *)
Definition tagged (rounds : list (list record)) : list (nat * record) :=
  concat (imap (fun i round => map (fun prop => ((i + 1)%nat, prop)) round) rounds).

(** The samples of one identifier, round by round. *)
Definition samples (h : string) (rounds : list (list record)) : list (nat * record) :=
  filter (fun rp => identifier (snd rp) = h) (tagged rounds).

(** The identifiers in the order of their first appearance. *)
Definition identifiers (rounds : list (list record)) : list string :=
  first_occurrences (map (fun rp => identifier (snd rp)) (tagged rounds)).

(** The weight of round [r] (1-based): [r / roundCount]. *)
Definition round_weight (roundCount r : nat) : Q :=
  inject_Z (Z.of_nat r) / inject_Z (Z.of_nat roundCount).

Definition group_of (n : nat) (l : list (nat * record)) (h : string) : group :=
  let ss := filter (fun rp => identifier (snd rp) = h) l in
  {| scores := map (fun rp => raw_score (snd rp)) ss;
     weights := map (fun rp => round_weight n (fst rp)) ss;
     properties := map snd ss |}.

Definition step (n : nat) (acc : list (string * group)) (rp : nat * record) :=
  add_result py_repr (round_weight n (fst rp)) acc (snd rp).

(** What the combine step yields for the samples [ss] of one identifier. *)
Definition combined_as_specified (roundCount : nat) (ss : list (nat * record))
  (r : record) : Prop :=
  let xs := map (fun rp => num (raw_score (snd rp))) ss in
  let ws := map (fun rp => round_weight roundCount (fst rp)) ss in
  dict_get "total_score" r = Some (VInt (round_half_even (np_average xs ws))) /\
  dict_get "is_converged" r = Some (VBool (Qle_bool (np_var xs) CONVERGENCE_THRESHOLD)) /\
  dict_get "score_rounds" r = Some (VList (map (fun rp => raw_score (snd rp)) ss)).

End grouping.

End ConvergenceSpec.

(** ** The matcher *)

Module ReSpec.
Import Re.

(** [s] is [u] followed by [s'], all characters of [u] in the class [p]. *)
Inductive run_of (p : ascii -> bool) : string -> string -> Prop :=
| run_nil s : run_of p s s
| run_cons c s s' : p c = true -> run_of p s s' -> run_of p (String c s) s'.

(** [matches r s g s' g']: [r] matches a prefix of [s] and leaves [s'];
    group 1 goes from [g] to [g']. *)
Inductive matches : regex -> string -> option string -> string -> option string -> Prop :=
| M_eps s g : matches Eps s g s g
| M_chr p c s g : p c = true -> matches (Chr p) (String c s) g s g
| M_seq r1 r2 s s1 s2 g g1 g2 :
    matches r1 s g s1 g1 -> matches r2 s1 g1 s2 g2 -> matches (Seq r1 r2) s g s2 g2
| M_star greedy p s s' g : run_of p s s' -> matches (Star greedy p) s g s' g
| M_group r s s' g g1 :
    matches r s g s' g1 -> matches (Group r) s g s' (Some (consumed s s'))
| M_ahead r s s1 g g1 : matches r s g s1 g1 -> matches (Ahead r) s g s g.

(** Every character of [s] is in the class [p]. *)
Fixpoint all_in (p : ascii -> bool) (s : string) : bool :=
  match s with
  | EmptyString => true
  | String c r => p c && all_in p r
  end.

End ReSpec.

(** ** Tolerant parsing *)

Module ParseSpec.
Import Re ReSpec.

(** A span that opens with a brace and the key [hidx] bound to the quoted,
    non-empty identifier [id], and runs to the first closing brace. *)
Definition hidx_object (obj id : string) : Prop :=
  exists ws1 ws2 ws3 body,
    obj = "{" +:+ ws1 +:+ dq "'hidx'" +:+ ws2 +:+ ":" +:+ ws3 +:+ dq "'" +:+ id
              +:+ dq "'" +:+ body +:+ "}" /\
    all_in is_space ws1 = true /\ all_in is_space ws2 = true /\
    all_in is_space ws3 = true /\
    id <> "" /\ all_in (none_of (dq "'")) id = true /\
    all_in (none_of "}") body = true.

End ParseSpec.

(** ** Reconciliation of the response with the batch *)

Module ReconcileSpec.
Import Reanalyzer.

Section batch.
Variable py_repr : value -> string.
Variable batch : list record.

Abbreviation ibm := (initial_batch_map py_repr batch).
Abbreviation expected_ids := (batch_hidx_set py_repr batch).

(** The key under which a record enters [initial_batch_map]. *)
Definition key_of (prop : record) : option string :=
  py_str py_repr <$> dict_get "hidx" prop.

Definition enter (m : list (string * nat)) (ip : nat * record) : list (string * nat) :=
  match dict_get "hidx" (snd ip) with
  | Some v => dict_set (py_str py_repr v) (fst ip) m
  | None => m
  end.

(** An identifier is settled once it is processed or not expected: an item
    that carries it changes nothing any more. *)
Definition settled (st : merge_state) (h : string) : Prop :=
  h ∈ processed_hidxs st \/ h ∉ expected_ids.

(** The first item of the response that carries the identifier [h]. *)
Fixpoint first_with (h : string) (items : list value) : option dict :=
  match items with
  | [] => None
  | VDict d :: items' =>
      if decide (py_str py_repr (dict_get_default "hidx" (VStr "") d) = h)
      then Some d else first_with h items'
  | _ :: items' => first_with h items'
  end.

(** The record of the batch filed under [h], before the merge. *)
Definition orig (h : string) : record :=
  default [] (i ← dict_get h ibm; batch !! i).

(** A record with the data of a response item merged in. *)
Definition merged (prop : record) (d : dict) : record :=
  match coerce_item d with
  | Return d' => dict_update prop d'
  | Raise _ => prop
  end.

Definition merged_of (items : list value) (h : string) : record :=
  match first_with h items with
  | Some d => merged (orig h) d
  | None => orig h
  end.

Record inv (done : list value) (st : merge_state) (ord : list string) : Prop := {
  inv_length : length (store st) = length batch;
  inv_processed :
    forall h, h ∈ processed_hidxs st <-> h ∈ expected_ids /\ is_Some (first_with h done);
  inv_nodup : NoDup ord;
  inv_ord : forall h, h ∈ ord <-> h ∈ processed_hidxs st;
  inv_final : Forall2 (fun h i => dict_get h ibm = Some i) ord (final_properties st);
  inv_store :
    forall h i, dict_get h ibm = Some i ->
      store st !! i
      = Some (if decide (h ∈ processed_hidxs st) then merged_of done h else orig h);
  inv_coerced :
    forall h d, h ∈ processed_hidxs st -> first_with h done = Some d ->
      exists d', coerce_item d = Return d';
}.

Definition unprocessed (st : merge_state) (h : string) : Prop :=
  h ∉ processed_hidxs st.

(** What the reconciliation leaves for an expected identifier: the record
    of the batch with the data of the first response item for it merged
    in, or, when the response has none, the record as it was with the
    comment that it was missing. *)
Definition expected (items : list value) (h : string) : record :=
  match first_with h items with
  | Some d => merged (orig h) d
  | None => dict_set "reanalysis_comment" (VStr missing_comment) (orig h)
  end.

End batch.

Section run.
Variable py_repr : value -> string.
Variable json_loads : string -> outcome value.
Variable new_client : string -> outcome unit.
Variable generate_content : nat -> api_reply.
Variable latency : nat -> Q.

(** The call is made with a key, for a batch with at least one identifier,
    a response text arrives and is parsed into the list [items]. *)
Definition parsed_response (w : world) (batch : list record)
  (api_key : option string) (items : list value) : Prop :=
  no_key api_key = false /\
  batch_hidx_list py_repr batch <> [] /\
  (exists u, new_client (strip (default "" api_key)) = Return u) /\
  exists c text,
    snd (call_loop generate_content latency MAX_RETRY 0 (rate_limit_gate w))
    = Some (String c text) /\
    Parse.parse_response json_loads (String c text) = Return (Some (VList items)).

End run.

(** [o] has the fields of [r], the two fields of the percentile engine
    apart. *)
Definition same_fields (o r : record) : Prop :=
  forall k, k <> "percentile_scores" -> k <> "weighted_percentile_score" ->
            dict_get k o = dict_get k r.

End ReconcileSpec.

(** ** Attempts and waits *)

Module RetrySpec.
Import Reanalyzer.

Definition is_call (e : event) : bool :=
  match e with Call _ => true | Sleep _ => false end.

Section calls.
Variable generate_content : nat -> api_reply.

(** The wait in front of the attempt numbered [retry_count], decided by
    the reply to the attempt before it: [60 + 30 * retry_count] seconds
    after a quota signal, [2 ** retry_count] seconds otherwise. *)
Definition backoff (previous : api_reply) (retry_count : nat) : Q :=
  match previous with
  | ApiFailure error_message =>
      if is_quota_error error_message then quota_wait retry_count
      else plain_wait retry_count
  | Reply _ => plain_wait retry_count
  end.

(** The calls and sleeps of the retry loop. *)
Fixpoint loop_events (remaining retry_count : nat) : list event :=
  match remaining with
  | O => []
  | S remaining' =>
      Call retry_count ::
      match generate_content retry_count with
      | Reply (Some (String _ _)) => []
      | reply =>
          (if (S retry_count <? MAX_RETRY)%nat
           then [Sleep (backoff reply (S retry_count))] else [])
          ++ loop_events remaining' (S retry_count)
      end
  end.

End calls.

End RetrySpec.

(** ** The orchestrator as a whole *)

Module OrchestratorSpec.
Import Reanalyzer.

Section run.
Variable py_repr : value -> string.
Variable json_loads : string -> outcome value.
Variable new_client : string -> outcome unit.
Variable generate_content : nat -> api_reply.
Variable latency : nat -> Q.

(** The ways in which scoring fails before any record is touched: no key,
    no identifier in the batch, a client that cannot be built, no response
    text after the attempts, a response without usable JSON, or an error
    while parsing. *)
Definition scoring_failed (w : world) (batch : list record)
  (api_key : option string) : Prop :=
  no_key api_key = true \/
  batch_hidx_list py_repr batch = [] \/
  (exists e, new_client (strip (default "" api_key)) = Raise e) \/
  match snd (call_loop generate_content latency MAX_RETRY 0 (rate_limit_gate w)) with
  | None | Some EmptyString => True
  | Some response_text =>
      Parse.parse_response json_loads response_text = Return None \/
      exists e, Parse.parse_response json_loads response_text = Raise e
  end.

End run.

End OrchestratorSpec.

(** ** Inputs used in examples *)

Module Scenarios.
Import Reanalyzer.

Definition rec_total (z : Z) : record := [("total_score", VInt z)].

Definition scored (hidx : string) (z : Z) : record :=
  [("hidx", VStr hidx); ("total_score", VInt z)].

(** Two records of which the first has a total score that is no number. *)
Definition shifted_batch : list record :=
  [ [("location_accessibility", VDict [("location_total", VInt 30)]);
     ("total_score", VStr "N/A")];
    [("location_accessibility", VDict [("location_total", VInt 20)]);
     ("total_score", VInt 50)] ].

(** A service that answers the first attempt with a fenced array of two
    scorecards, for the identifiers 1 (expected) and 9 (not expected), and
    what [json.loads] makes of that array. *)
Definition demo_array : string :=
  dq "[{'hidx':'1','total_score':'85'},{'hidx':'9','total_score':10}]".

Definition demo_items : list value :=
  [VDict [("hidx", VStr "1"); ("total_score", VStr "85")];
   VDict [("hidx", VStr "9"); ("total_score", VInt 10)]].

Definition demo_loads (s : string) : outcome value :=
  if String.eqb s demo_array then Return (VList demo_items) else Raise JSONDecodeError.

Definition demo_reply (attempt : nat) : api_reply :=
  Reply (Some ("```json " +:+ demo_array +:+ " ```")).

Definition demo_batch : list record :=
  [scored "1" 70; scored "2" 60; [("total_score", VInt 40)]].

Definition demo_world : world :=
  {| now := 100; last_api_call_time_reanalyzer := 0; trace := [] |}.

Abbreviation demo_reanalyze :=
  (reanalyze_property_batch (fun _ => "") demo_loads (fun _ => Return tt) demo_reply
                            (fun _ => 0%Q) elements).

(** A service that answers every attempt with a quota signal. *)
Definition quota_service (attempt : nat) : api_reply :=
  ApiFailure "429 RESOURCE_EXHAUSTED".

(** A response that is no JSON but holds an object that opens with the
    identifier 2. *)
Definition garbage : string := dq "oops {'hidx':'2' 'total_score' 50}".

(** A response that holds a brace-delimited object with the field
    [hidx], which is not its first key. *)
Definition trailing_hidx : string := dq "{'total_score': 80,, 'hidx':'2'}".

End Scenarios.

Import Scenarios.

(** ** More vocabulary: the percentile engine *)

Module PercentileOrderSpec.

(** The number of scores strictly below [s]. *)
Definition lower_count (scores : list Z) (s : Z) : nat :=
  length (filter (fun x => (x < s)%Z) scores).

(** [round(rank / n * 100, 1)] *)
Definition rank_percentile (rank n : nat) : Q :=
  py_round (inject_Z (Z.of_nat rank) / inject_Z (Z.of_nat n) * 100) 1.

End PercentileOrderSpec.

(** ** More vocabulary: the convergence combine *)

Module ConvergenceMoreSpec.

(** The fields the combine step writes. *)
Definition combine_fields : list string :=
  ["total_score"; "score_variance"; "score_rounds"; "is_converged"; "reanalysis_comment"].

End ConvergenceMoreSpec.

(** ** More vocabulary: the order of the reconciled records *)

Module ReconcileOrderSpec.
Import Reanalyzer ConvergenceSpec.

Section batch.
Variable py_repr : value -> string.
Variable batch : list record.

(** The identifier a response item carries, if it is an object. *)
Definition item_id (item : value) : option string :=
  match item with
  | VDict d => Some (py_str py_repr (dict_get_default "hidx" (VStr "") d))
  | _ => None
  end.

(** The expected identifiers the response answers, in the order in which
    the response first mentions them. *)
Definition answered (items : list value) : list string :=
  first_occurrences
    (filter (fun h => h ∈ batch_hidx_set py_repr batch) (omap item_id items)).

(** The loop has appended the records in that order. *)
Definition in_order (done : list value) (st : merge_state) : Prop :=
  (forall h, h ∈ processed_hidxs st <-> h ∈ answered done) /\
  Forall2 (fun h i => dict_get h (initial_batch_map py_repr batch) = Some i)
          (answered done) (final_properties st).

End batch.

End ReconcileOrderSpec.

(** ** More vocabulary: fenced responses *)

Module ParseMoreSpec.

(** A response that holds a fenced block: [tag] is the word behind the
    opening fence, [inner] the text up to the closing fence. *)
Definition fenced (pre tag inner post : string) : string :=
  pre +:+ "```" +:+ tag +:+ inner +:+ "```" +:+ post.

End ParseMoreSpec.

(** ** Vocabulary: flattening *)

Module FlattenSpec.
Import Flatten.

(** The leaves of a nested dict with their joined keys, in the order of
    the text, nothing merged. *)
Fixpoint leaves_value (sep new_key : string) (v : value) : list (string * value) :=
  match v with
  | VDict d =>
      (fix items (d : dict) : list (string * value) :=
         match d with
         | [] => []
         | (k, v) :: d' => leaves_value sep (child_key new_key sep k) v ++ items d'
         end) d
  | _ => [(new_key, v)]
  end.

Definition leaves (d : dict) (parent_key sep : string) : list (string * value) :=
  leaves_value sep parent_key (VDict d).

(** No value of the dict is a dict. *)
Definition flat (d : dict) : Prop := Forall (fun kv => is_dict (snd kv) = false) d.

(** The items the loop collects for the entries of [d]. *)
Definition items_of (sep parent_key : string) (d : dict) : list (string * value) :=
  concat (map (fun kv => flatten_value sep (child_key parent_key sep (fst kv)) (snd kv)) d).

End FlattenSpec.

(** ** More inputs used in examples *)

Module MoreScenarios.
Import Reanalyzer.

(** A service that answers the first attempt with the fenced text [array],
    and a [json.loads] that reads [array] as [items]. *)
Definition fenced_reply (array : string) (attempt : nat) : api_reply :=
  Reply (Some ("```json " +:+ array +:+ " ```")).

Definition loads_as (array : string) (items : list value) (s : string) : outcome value :=
  if String.eqb s array then Return (VList items) else Raise JSONDecodeError.

(** A record with an address, and a record whose score is a text. *)
Definition located (hidx : string) (z : Z) (address : string) : record :=
  [("hidx", VStr hidx); ("total_score", VInt z); ("address", VStr address)].

Definition scored_text (hidx s : string) : record :=
  [("hidx", VStr hidx); ("total_score", VStr s)].

Definition three_batch : list record := [scored "1" 70; scored "2" 60; scored "3" 50].

(** A response that mentions 3, an identifier that is not expected, 1,
    and 3 again; 2 is missing. *)
Definition shuffled_array : string :=
  dq "[{'hidx':'3','total_score':55},{'hidx':'9','total_score':10},{'hidx':'1','total_score':75},{'hidx':'3','total_score':1}]".

Definition shuffled_items : list value :=
  [VDict [("hidx", VStr "3"); ("total_score", VInt 55)];
   VDict [("hidx", VStr "9"); ("total_score", VInt 10)];
   VDict [("hidx", VStr "1"); ("total_score", VInt 75)];
   VDict [("hidx", VStr "3"); ("total_score", VInt 1)]].

(** A response whose second item is a number. *)
Definition broken_array : string :=
  dq "[{'hidx':'1','total_score':85}, 5, {'hidx':'2','total_score':65}]".

Definition broken_items : list value :=
  [VDict [("hidx", VStr "1"); ("total_score", VInt 85)];
   VInt 5;
   VDict [("hidx", VStr "2"); ("total_score", VInt 65)]].

End MoreScenarios.

Import MoreScenarios.

(** ** Loading the sheet *)

Module RowsSpec.
Import Rows Percentile.

(** No column name holds a dot. *)
Definition plain_keys (row_dict : row) : Prop :=
  Forall (fun kv => contains "." (fst kv) = false) row_dict.

(** The cell under [관리비], when it is a text, is within the length [int]
    converts. *)
Definition short_maintenance (row_dict : row) : Prop :=
  match dict_get "관리비" row_dict with
  | Some (SStr s) => (String.length s <= MAX_STR_DIGITS)%nat
  | _ => True
  end.

(** The column of the sheet a score column of the percentile engine is
    read from. *)
Definition sheet_column (c : column) : string :=
  match c with
  | Location => "위치/접근성 총점 (40점)"
  | Building => "건물/시설 총점 (30점)"
  | Convenience => "생활 편의성  총점 (15점)"
  | Price => "가격 경쟁력 총점 (15 점)"
  | Total => "총점 (100점)"
  end.

(** The keys the steps behind the first two write or remove. *)
Definition late_keys : list string :=
  ["location_accessibility"; "building_quality"; "living_convenience"; "price_value";
   "credibility"; "deposit"; "price"; "recommendation"; "summary"; "reanalysis_comment"].

(** What a loaded record shares with the processed row: everything but
    the identifier. *)
Definition loaded_from (row_dict : row) (property_dict : record) : Prop :=
  exists result,
    process_nested_structure row_dict = Return result /\
    forall k, k <> "hidx" -> dict_get k property_dict = dict_get k result.

(** A row of the sheet and what [process_nested_structure] makes of it. *)
Definition demo_row : row :=
  [("매물 ID", SInt 101); ("주소", SStr "서울 종로구"); ("보증금", SInt 1000);
   ("관리비", SStr "5만원"); ("총점 (100점)", SInt 82);
   ("위치/접근성 총점 (40점)", SStr "31"); ("추천 대상 및 종합 의견", SStr "직장인")].

Definition demo_property : record :=
  [("매물 ID", VInt 101); ("주소", VStr "서울 종로구"); ("보증금", VInt 1000);
   ("관리비", VStr "5만원"); ("총점 (100점)", VInt 82);
   ("위치/접근성 총점 (40점)", VStr "31"); ("추천 대상 및 종합 의견", VStr "직장인");
   ("hidx", VInt 101); ("total_score", VInt 82); ("address", VStr "서울 종로구");
   ("location_accessibility", VDict [("location_total", VStr "31")]);
   ("price", VDict [("deposit", VInt 1000); ("maintenance_cost", VInt 50000)]);
   ("summary", VDict [("recommendation", VStr "직장인")]);
   ("reanalysis_comment", VStr "초기 분석 결과, 재평가 대기 중")].

(** A sheet of two rows, the second without an identifier. *)
Definition demo_sheet : list row :=
  [ demo_row;
    [("주소", SStr "서울 중구"); ("관리비", SStr ""); ("총점 (100점)", SFloat (FFin 77.5))] ].

End RowsSpec.

(** ** The drivers *)

Module DriverSpec.
Import Batching Ranking.

(** The score a record is sorted by. *)
Definition sort_score (prop : record) : Z :=
  match get_score_for_sort prop with Return z => z | Raise _ => 0%Z end.

(** The total score is an infinite float. *)
Definition infinite_score (prop : record) : Prop :=
  exists negative, dict_get "total_score" prop = Some (VFloat (FInf negative)).

(** Records of equal score keep the order they have in [l]. *)
Definition stable (l order : list record) : Prop :=
  forall z, filter (fun prop => sort_score prop = z) order
          = filter (fun prop => sort_score prop = z) l.

Definition unranked_sample : list record :=
  [ [("hidx", VStr "a"); ("total_score", VInt 70)];
    [("hidx", VStr "b"); ("total_score", VStr "85")];
    [("hidx", VStr "c"); ("total_score", VStr "N/A")];
    [("hidx", VStr "d"); ("total_score", VFloat (FFin 70.9))];
    [("hidx", VStr "e")] ].

Definition unrankable_sample : list record :=
  [ [("hidx", VStr "a"); ("total_score", VInt 70)];
    [("hidx", VStr "b"); ("total_score", VFloat (FInf false))];
    [("hidx", VStr "c"); ("total_score", VInt 90)] ].

(** Forty and two hundred and fifty records, by their positions. *)
Definition forty : list nat := seq 0 40.
Definition many : list nat := seq 0 250.

End DriverSpec.

Module FillSpec.
Import Fill.

(** The field is absent or holds a text. *)
Definition text_or_absent (field : string) (prop : record) : Prop :=
  match dict_get field prop with
  | Some (VStr _) | None => True
  | Some _ => False
  end.

Definition notes_are_text (prop : record) : Prop :=
  text_or_absent "ai_reanalysis_error" prop /\ text_or_absent "reanalysis_comment" prop.

(** Two records with the same [hidx] field. *)
Definition same_hidx (a b : record) : Prop := dict_get "hidx" a = dict_get "hidx" b.

(** The record carries the two notes of the safety net. *)
Definition marked (prop : record) : Prop :=
  (exists s, dict_get "ai_reanalysis_error" prop = Some (VStr (s +:+ note_error))) /\
  (exists s, dict_get "reanalysis_comment" prop = Some (VStr (s +:+ note_comment))).

(** Three analysed records of which the reanalysis returned the first,
    as the same object, and a copy of the third. *)
Definition analysed : list record :=
  [ [("hidx", VStr "1"); ("total_score", VInt 70)];
    [("hidx", VInt 2); ("total_score", VInt 60); ("reanalysis_comment", VStr "초기")];
    [("hidx", VStr "3"); ("total_score", VInt 50)] ].

Definition reanalysed : list ref :=
  [ Initial 0; Other [("hidx", VInt 3); ("total_score", VInt 55)] ].

(** What the safety net makes of them: the second record is marked and
    appended. *)
Definition filled : list record * list ref :=
  ([ [("hidx", VStr "1"); ("total_score", VInt 70)];
     [("hidx", VInt 2); ("total_score", VInt 60);
      ("reanalysis_comment", VStr ("초기" +:+ note_comment));
      ("ai_reanalysis_error", VStr note_error)];
     [("hidx", VStr "3"); ("total_score", VInt 50)] ],
   reanalysed ++ [Initial 1]).

End FillSpec.

(** * Properties *)

(** ** Examples *)

Example int_of_string_ex :
  int_of_string " 35 " = Some 35%Z /\ int_of_string "-1_000" = Some (-1000)%Z /\
  int_of_string "" = None /\ int_of_string "N/A" = None /\
  int_of_string "3.5" = None /\ int_of_string "1__0" = None.
Proof. vm_compute. repeat split. Qed.

Example float_of_string_ex :
  float_of_string "85.9" = Some (FFin (859 # 10)) /\
  float_of_string "1e3" = Some (FFin 1000) /\
  float_of_string "-.5" = Some (FFin (- 1 # 2)) /\
  float_of_string "1e999" = Some (FInf false) /\
  float_of_string "Infinity" = Some (FInf false) /\
  float_of_string "." = None /\ float_of_string "abc" = None /\
  float_of_string "7." = Some (FFin 7).
Proof. vm_compute. repeat split. Qed.

Example string_of_Z_ex : string_of_Z 120 = "120" /\ string_of_Z (-7) = "-7" /\ string_of_Z 0 = "0".
Proof. vm_compute. repeat split. Qed.

Example percentile_70_70_90 :
  Percentile.calculate_percentile_scores [rec_total 70; rec_total 70; rec_total 90]
  = Return (map (fun '(z, p) =>
       [("total_score", VInt z);
        ("percentile_scores", VDict
           [("location_percentile", VNum (333 # 10));
            ("building_percentile", VNum (333 # 10));
            ("convenience_percentile", VNum (333 # 10));
            ("price_percentile", VNum (333 # 10));
            ("total_percentile", VNum p)]);
        ("weighted_percentile_score", VNum (333 # 10))])
      [(70%Z, 333 # 10); (70%Z, 333 # 10); (90%Z, 100 # 1)]).
Proof. vm_compute. reflexivity. Qed.

Example object_pattern_ex :
  map (fun m => (Re.group0 m, Re.group1 m))
      (Re.finditer Parse.object_pattern
         (dq "x {'hidx':'1', 'total_score': 80} y { 'hidx' : '2' 'a' {'b':1} } z"))
  = [(dq "{'hidx':'1', 'total_score': 80}", Some "1");
     (dq "{ 'hidx' : '2' 'a' {'b':1}", Some "2")].
Proof. vm_compute. reflexivity. Qed.

Example extract_fenced :
  Parse.extract_json_str
    (dq "Here:" +:+ String (ascii_of_nat 10) "" +:+ "```JSON" +:+ String (ascii_of_nat 10) ""
        +:+ dq "[{'hidx':'1','total_score':80}]" +:+ String (ascii_of_nat 10) "" +:+ "``` bye")
  = Some (dq "[{'hidx':'1','total_score':80}]").
Proof. vm_compute. reflexivity. Qed.

Example repair_trailing_comma :
  Parse.repair (dq "[{'hidx':'1','total_score':80},]")
  = dq "[{'hidx': 1,'total_score': 80}]".
Proof. vm_compute. reflexivity. Qed.

Example combine_80_90 :
  Convergence.calculate_weighted_average_scores (fun _ => "")
    [[scored "A" 80]; [scored "A" 90]]
  = Return [[("hidx", VStr "A"); ("total_score", VInt 87);
             ("score_variance", VNum 25);
             ("score_rounds", VList [VInt 80; VInt 90]);
             ("is_converged", VBool false);
             ("reanalysis_comment",
              VStr "다중 라운드 재평가 완료 (라운드: 2, 분산: 25.00)")]].
Proof. vm_compute. reflexivity. Qed.

Example demo_result :
  snd (demo_reanalyze demo_world demo_batch (Some "key"))
  = Percentile.calculate_percentile_scores
      [ [("hidx", VStr "1"); ("total_score", VInt 85)];
        [("hidx", VStr "2"); ("total_score", VInt 60);
         ("reanalysis_comment", VStr Reanalyzer.missing_comment)] ].
Proof. vm_compute. reflexivity. Qed.

(** ** Dictionaries *)

Lemma dict_get_set_eq {V} k (v : V) d : dict_get k (dict_set k v d) = Some v.
Proof.
  induction d as [|[k' v'] d IH]; cbn.
  - by rewrite String.eqb_refl.
  - destruct (String.eqb k k') eqn:E; cbn; rewrite ?String.eqb_refl, ?E; auto.
Qed.

Lemma dict_get_set_ne {V} k k' (v : V) d :
  k <> k' -> dict_get k' (dict_set k v d) = dict_get k' d.
Proof.
  intros Hne. induction d as [|[k0 v0] d IH]; cbn.
  - destruct (String.eqb k' k) eqn:E; [|done].
    apply String.eqb_eq in E. congruence.
  - destruct (String.eqb k k0) eqn:E; cbn.
    + apply String.eqb_eq in E; subst k0.
      destruct (String.eqb k' k) eqn:E'; [|done].
      apply String.eqb_eq in E'. congruence.
    + destruct (String.eqb k' k0); auto.
Qed.

Lemma dict_has_set {V} k k' (v : V) d :
  dict_has k' (dict_set k v d) = (String.eqb k k' || dict_has k' d).
Proof.
  unfold dict_has. destruct (String.eqb k k') eqn:E.
  - apply String.eqb_eq in E; subst. by rewrite dict_get_set_eq.
  - apply String.eqb_neq in E. by rewrite dict_get_set_ne.
Qed.

Lemma dict_has_update {V} k (d other : list (string * V)) :
  dict_has k d = true -> dict_has k (dict_update d other) = true.
Proof.
  unfold dict_update. revert d.
  induction other as [|[k' v'] other IH]; intros d Hd; cbn; [done|].
  apply IH. rewrite dict_has_set, Hd. apply orb_true_r.
Qed.

(** ** Rounding *)

Lemma round_half_even_bounds (q : Q) (a b : Z) :
  (inject_Z a <= q)%Q -> (q <= inject_Z b)%Q ->
  (a <= round_half_even q <= b)%Z.
Proof.
  intros Ha Hb. unfold round_half_even.
  pose proof (Qfloor_le q) as Hf.
  assert (Haf : (a <= Qfloor q)%Z).
  { rewrite <- (Qfloor_Z a). by apply Qfloor_resp_le. }
  assert (Hfb : (Qfloor q <= b)%Z).
  { rewrite Zle_Qle. eapply Qle_trans; eauto. }
  assert (Hup : (inject_Z (Qfloor q) < q)%Q -> (Qfloor q + 1 <= b)%Z).
  { intros Hlt. assert (Qfloor q < b)%Z; [|lia].
    rewrite Zlt_Qlt. eapply Qlt_le_trans; eauto. }
  destruct (Qcompare_spec (q - inject_Z (Qfloor q)) (1 # 2)) as [E|E|E].
  - destruct (Z.even (Qfloor q)); [lia|].
    split; [lia|]. apply Hup. lra.
  - lia.
  - split; [lia|]. apply Hup. lra.
Qed.

Lemma round_half_even_pos (q : Q) :
  (1 # 2 < q)%Q -> (1 <= round_half_even q)%Z.
Proof.
  intros Hq. unfold round_half_even.
  assert (H0 : (0 <= Qfloor q)%Z).
  { rewrite <- (Qfloor_Z 0). apply Qfloor_resp_le.
    change (inject_Z 0) with 0%Q. lra. }
  destruct (Qcompare_spec (q - inject_Z (Qfloor q)) (1 # 2)) as [E|E|E].
  - destruct (Z.even (Qfloor q)); [|lia].
    assert (Qfloor q <> 0)%Z; [|lia].
    intros E0. rewrite E0 in E. change (inject_Z 0) with 0%Q in E. lra.
  - assert (Qfloor q <> 0)%Z; [|lia].
    intros E0. rewrite E0 in E. change (inject_Z 0) with 0%Q in E. lra.
  - lia.
Qed.

Lemma mapM_map_Return {A B} (f : A -> outcome B) (g : A -> B) (l : list A) :
  (forall x, x ∈ l -> f x = Return (g x)) -> mapM f l = Return (map g l).
Proof.
  induction l as [|a l IH]; intros Hf; [reflexivity|].
  cbn. fold (mapM f l). rewrite Hf by left. cbn.
  rewrite IH; [reflexivity|]. intros x Hx. apply Hf. by right.
Qed.

(** ** The percentile engine *)

Module PercentileFacts.
Import Percentile PercentileSpec.

Lemma list_index_first x l :
  x ∈ l -> list_index x l = Return (first_index x l) /\ (first_index x l < length l)%nat.
Proof.
  induction l as [|y l IH]; intros Hx; [by apply elem_of_nil in Hx|].
  cbn. destruct (x =? y)%Z eqn:E; [split; [done|lia]|].
  apply Z.eqb_neq in E. apply elem_of_cons in Hx as [->|Hx]; [done|].
  destruct (IH Hx) as [-> ?]. split; [done|lia].
Qed.

Lemma percentile_of_spec scores score :
  score ∈ scores ->
  percentile_of (merge_sort Z.le scores) score = Return (spec_percentile scores score).
Proof.
  intros Hin. unfold percentile_of, spec_percentile.
  assert (Hperm : merge_sort Z.le scores ≡ₚ scores) by apply merge_sort_Permutation.
  destruct (list_index_first score (merge_sort Z.le scores)) as [-> _].
  { by rewrite Hperm. }
  cbn. by rewrite (Permutation_length Hperm).
Qed.

(** [calculate_percentile] never raises, and its dict maps each score of the
    list to the percentile of the specification. *)
Lemma calculate_percentile_spec scores :
  exists m, calculate_percentile scores = Return m /\
            forall score, score ∈ scores -> m !! score = Some (spec_percentile scores score).
Proof.
  unfold calculate_percentile.
  set (keys := elements (list_to_set scores : gset Z)).
  assert (Hkeys : forall s, s ∈ keys <-> s ∈ scores).
  { intros s. unfold keys. rewrite elem_of_elements. apply elem_of_list_to_set. }
  rewrite (mapM_map_Return _ (fun s => (s, spec_percentile scores s))).
  2:{ intros s Hs. rewrite percentile_of_spec by (by apply Hkeys). reflexivity. }
  eexists. split; [reflexivity|].
  intros s Hs. apply elem_of_list_to_map.
  - rewrite <- list_fmap_compose. unfold compose. cbn.
    rewrite list_fmap_id. apply NoDup_elements.
  - apply (list_elem_of_fmap_2 (fun s => (s, spec_percentile scores s))).
    by apply Hkeys.
Qed.

(** *** The score lists *)

Lemma col_append_zeros c sl : col c (append_zeros sl) = col c sl ++ [0%Z].
Proof. destruct c; reflexivity. Qed.

Lemma clean_column prop c : clean prop = true -> column_score c prop = Return (score c prop).
Proof.
  unfold clean, score, all_columns. cbn [forallb]. rewrite !andb_true_iff.
  intros (?&?&?&?&?&_).
  destruct c;
    match goal with
    | H : context [column_score ?c prop] |- context [column_score ?c prop] =>
        destruct (column_score c prop); [reflexivity | discriminate H]
    end.
Qed.

Lemma collect_one_clean sl prop c :
  clean prop = true -> col c (collect_one sl prop) = col c sl ++ [score c prop].
Proof.
  intros Hc. unfold collect_one, all_columns. cbn [try_body].
  rewrite !(clean_column prop _ Hc). destruct c; reflexivity.
Qed.

(** Every record contributes one or two entries to every list. *)
Lemma collect_one_length sl prop c :
  (S (length (col c sl)) <= length (col c (collect_one sl prop))
   <= S (S (length (col c sl))))%nat.
Proof.
  unfold collect_one, all_columns. cbn [try_body].
  repeat (match goal with
          | |- context [match column_score ?c' prop with _ => _ end] =>
              destruct (column_score c' prop)
          end; cbn [try_body]);
    rewrite ?col_append_zeros, ?length_app; destruct c; cbn;
    rewrite ?length_app; cbn; lia.
Qed.

Lemma collect_scores_length_from sl props c :
  (length (col c sl) + length props
   <= length (col c (fold_left collect_one props sl))
   <= length (col c sl) + 2 * length props)%nat.
Proof.
  revert sl. induction props as [|p props IH]; intros sl; cbn [fold_left length]; [lia|].
  specialize (IH (collect_one sl p)).
  pose proof (collect_one_length sl p c). lia.
Qed.

Lemma collect_scores_length props c :
  (length props <= length (col c (collect_scores props)) <= 2 * length props)%nat.
Proof.
  pose proof (collect_scores_length_from no_scores props c) as H.
  unfold collect_scores. destruct c; cbn in *; lia.
Qed.

Lemma collect_scores_clean_from sl props c :
  Forall (fun p => clean p = true) props ->
  col c (fold_left collect_one props sl) = col c sl ++ map (score c) props.
Proof.
  intros Hall. revert sl. induction Hall as [|p props Hp _ IH]; intros sl; cbn.
  - by rewrite app_nil_r.
  - rewrite IH, collect_one_clean by done. by rewrite <- app_assoc.
Qed.

Lemma collect_scores_clean props c :
  Forall (fun p => clean p = true) props ->
  col c (collect_scores props) = map (score c) props.
Proof.
  intros Hall. unfold collect_scores.
  rewrite collect_scores_clean_from by done. by destruct c.
Qed.

(** *** The annotation of a record *)

Lemma list_item_nth xs i :
  (i < length xs)%nat -> list_item xs i = Return (nth i xs 0%Z) /\ nth i xs 0%Z ∈ xs.
Proof.
  intros Hi. unfold list_item.
  destruct (lookup_lt_is_Some_2 xs i Hi) as [x Hx]. rewrite Hx.
  rewrite (nth_lookup_Some _ _ _ _ Hx). split; [done|].
  by eapply list_elem_of_lookup_2.
Qed.

Lemma profile_get (f : column -> Q) c :
  dict_get (percentile_key c) (profile f) = Some (VNum (f c)).
Proof. destruct c; reflexivity. Qed.

Lemma annotate_spec sl pcts i prop :
  (forall c, (i < length (col c sl))%nat) ->
  (forall c s, s ∈ col c sl -> pcts c !! s = Some (spec_percentile (col c sl) s)) ->
  annotate sl pcts i prop = Return (annotated sl i prop).
Proof.
  intros Hlen Hpct. unfold annotate.
  rewrite (mapM_map_Return _
             (fun c => (percentile_key c, VNum (column_percentile sl c i)))).
  2:{ intros c _. destruct (list_item_nth (col c sl) i (Hlen c)) as [-> Hin].
      cbn [mbind outcome_bind mret outcome_ret]. unfold percentile_get. rewrite (Hpct c _ Hin). reflexivity. }
  cbn [mbind outcome_bind mret outcome_ret].
  unfold annotated, composite, dict_get_default.
  fold (profile (fun c => column_percentile sl c i)).
  change "location_percentile" with (percentile_key Location).
  change "building_percentile" with (percentile_key Building).
  change "convenience_percentile" with (percentile_key Convenience).
  change "price_percentile" with (percentile_key Price).
  rewrite !profile_get. reflexivity.
Qed.

Theorem calculate_percentile_scores_spec (props : list record) :
  props <> [] ->
  calculate_percentile_scores props
  = Return (imap (annotated (collect_scores props)) props).
Proof.
  intros Hne. unfold calculate_percentile_scores.
  destruct props as [|p0 props0] eqn:Eprops; [done|]. rewrite <- Eprops. clear Hne.
  set (sl := collect_scores props).
  destruct (calculate_percentile_spec (location_scores sl)) as (lp & -> & Hlp).
  destruct (calculate_percentile_spec (building_scores sl)) as (bp & -> & Hbp).
  destruct (calculate_percentile_spec (convenience_scores sl)) as (cp & -> & Hcp).
  destruct (calculate_percentile_spec (price_scores sl)) as (pp & -> & Hpp).
  destruct (calculate_percentile_spec (total_scores sl)) as (tp & -> & Htp).
  cbn [mbind outcome_bind].
  rewrite (mapM_map_Return _ (fun ip => annotated sl (fst ip) (snd ip))).
  - apply (f_equal Return). change (map ?f ?l) with (f <$> l).
    rewrite fmap_imap. reflexivity.
  - intros [i p] Hin. apply elem_of_lookup_imap in Hin as (j & q & [= -> ->] & Hj).
    cbn [fst snd]. apply annotate_spec.
    + intros c. pose proof (collect_scores_length props c).
      apply lookup_lt_Some in Hj. fold sl in H. lia.
    + intros c s Hs. destruct c; auto.
Qed.

Lemma profile_entry_annotated sl i prop c :
  profile_entry (annotated sl i prop) (percentile_key c) = Some (column_percentile sl c i).
Proof.
  unfold profile_entry, annotated.
  rewrite dict_get_set_ne by discriminate. rewrite dict_get_set_eq.
  fold (profile (fun c => column_percentile sl c i)).
  by rewrite profile_get.
Qed.

Lemma weighted_entry_annotated sl i prop :
  weighted_entry (annotated sl i prop)
  = Some (composite (column_percentile sl Location i) (column_percentile sl Building i)
                    (column_percentile sl Convenience i) (column_percentile sl Price i)).
Proof. unfold weighted_entry, annotated. by rewrite dict_get_set_eq. Qed.

Lemma Forall_imap {A B} (P : B -> Prop) (f : nat -> A -> B) (l : list A) :
  (forall i x, l !! i = Some x -> P (f i x)) -> Forall P (imap f l).
Proof.
  intros H. apply Forall_forall. intros y Hy.
  apply elem_of_lookup_imap in Hy as (i & x & -> & Hx). eauto.
Qed.


(** *** Range of a percentile *)

Lemma py_round_bounds (q : Q) (nd : nat) (a b : Z) :
  (inject_Z a <= q)%Q -> (q <= inject_Z b)%Q ->
  (inject_Z a <= py_round q nd)%Q /\ (py_round q nd <= inject_Z b)%Q.
Proof.
  intros Ha Hb. unfold py_round.
  set (scale := (10 ^ Z.of_nat nd)%Z).
  assert (Hs : (0 < scale)%Z) by (apply Z.pow_pos_nonneg; lia).
  assert (HsQ : (0 < inject_Z scale)%Q) by (by rewrite <- (Zlt_Qlt 0)).
  destruct (round_half_even_bounds (q * inject_Z scale) (a * scale) (b * scale)) as [H1 H2].
  { rewrite inject_Z_mult. apply Qmult_le_compat_r; [done|]. by apply Qlt_le_weak. }
  { rewrite inject_Z_mult. apply Qmult_le_compat_r; [done|]. by apply Qlt_le_weak. }
  rewrite Qred_correct.
  set (z := round_half_even (q * inject_Z scale)) in *.
  unfold Qle, inject_Z. cbn [Qnum Qden].
  rewrite Z2Pos.id by done. lia.
Qed.

Lemma py_round_pos (q : Q) (nd : nat) :
  (1 # 2 < q * inject_Z (10 ^ Z.of_nat nd))%Q ->
  (Qmake 1 (Z.to_pos (10 ^ Z.of_nat nd)) <= py_round q nd)%Q.
Proof.
  intros Hq. unfold py_round.
  set (scale := (10 ^ Z.of_nat nd)%Z) in *.
  assert (Hs : (0 < scale)%Z) by (apply Z.pow_pos_nonneg; lia).
  pose proof (round_half_even_pos _ Hq) as Hz.
  rewrite Qred_correct. unfold Qle. cbn [Qnum Qden]. nia.
Qed.

Lemma first_index_lt x l : x ∈ l -> (first_index x l < length l)%nat.
Proof. intros H. by destruct (list_index_first x l H). Qed.

(** A percentile lies between 0 and 100; it is at least 0.1 when the list
    has fewer than 2000 scores. *)
Lemma spec_percentile_range scores s :
  s ∈ scores ->
  (0 <= spec_percentile scores s)%Q /\ (spec_percentile scores s <= 100)%Q /\
  ((length scores < 2000)%nat -> (1 # 10 <= spec_percentile scores s)%Q).
Proof.
  intros Hin. unfold spec_percentile.
  assert (Hperm : merge_sort Z.le scores ≡ₚ scores) by apply merge_sort_Permutation.
  assert (Hlt : (first_index s (merge_sort Z.le scores) < length scores)%nat).
  { rewrite <- (Permutation_length Hperm). apply first_index_lt. by rewrite Hperm. }
  set (r := Z.of_nat (first_index s (merge_sort Z.le scores) + 1)).
  set (n := Z.of_nat (length scores)).
  assert (Hr : (1 <= r <= n)%Z) by lia.
  assert (HnQ : (0 < inject_Z n)%Q) by (rewrite <- (Zlt_Qlt 0); lia).
  assert (HrQ1 : (1 <= inject_Z r)%Q) by (rewrite <- (Zle_Qle 1); lia).
  assert (HrQn : (inject_Z r <= inject_Z n)%Q) by (rewrite <- Zle_Qle; lia).
  set (t := (inject_Z r / inject_Z n)%Q).
  assert (Ht0 : (0 < t)%Q).
  { unfold t. apply Qlt_shift_div_l; [done|]. lra. }
  assert (Ht1 : (t <= 1)%Q).
  { unfold t. apply Qle_shift_div_r; [done|]. lra. }
  destruct (py_round_bounds (t * 100) 1 0 100) as [H0 H100].
  { change (inject_Z 0) with 0%Q. lra. }
  { change (inject_Z 100) with 100%Q. lra. }
  split; [exact H0|]. split; [exact H100|].
  intros Hn. apply (py_round_pos (t * 100) 1).
  change (inject_Z (10 ^ Z.of_nat 1)) with 10%Q.
  assert (HnQ2 : (inject_Z n < inject_Z 2000)%Q) by (rewrite <- Zlt_Qlt; lia).
  change (inject_Z 2000) with 2000%Q in HnQ2.
  assert (Ht : ((1 # 2000) < t)%Q).
  { unfold t. apply Qlt_shift_div_l; [done|]. lra. }
  lra.
Qed.

Lemma composite_range l b c p :
  (0 <= l <= 100)%Q -> (0 <= b <= 100)%Q -> (0 <= c <= 100)%Q -> (0 <= p <= 100)%Q ->
  (0 <= composite l b c p)%Q /\ (composite l b c p <= 100)%Q /\
  ((1 # 10 <= l)%Q -> (1 # 10 <= b)%Q -> (1 # 10 <= c)%Q -> (1 # 10 <= p)%Q ->
   (1 # 100 <= composite l b c p)%Q).
Proof.
  intros Hl Hb Hc Hp. unfold composite, weighted_sum.
  destruct (py_round_bounds (l * (4 # 10) + b * (3 # 10) + c * (15 # 100) + p * (15 # 100))
              2 0 100) as [H0 H100].
  { change (inject_Z 0) with 0%Q. lra. }
  { change (inject_Z 100) with 100%Q. lra. }
  split; [exact H0|]. split; [exact H100|].
  intros. apply (py_round_pos _ 2).
  change (inject_Z (10 ^ Z.of_nat 2)) with 100%Q. lra.
Qed.

Lemma column_percentile_range props c i :
  (i < length props)%nat ->
  let sl := collect_scores props in
  (0 <= column_percentile sl c i)%Q /\ (column_percentile sl c i <= 100)%Q /\
  (Forall (fun p => clean p = true) props -> (length props < 2000)%nat ->
   (1 # 10 <= column_percentile sl c i)%Q) /\
  (Forall (fun p => clean p = true) props -> length props = 1%nat ->
   column_percentile sl c i = 100%Q).
Proof.
  intros Hi sl. unfold column_percentile.
  pose proof (collect_scores_length props c) as Hlen. fold sl in Hlen.
  destruct (list_item_nth (col c sl) i) as [_ Hin]; [lia|].
  destruct (spec_percentile_range _ _ Hin) as (H0 & H100 & Hpos).
  split; [done|]. split; [done|]. split.
  - intros Hclean Hn. apply Hpos. unfold sl.
    rewrite collect_scores_clean, length_map by done. done.
  - intros Hclean Hn. unfold sl. rewrite collect_scores_clean by done.
    destruct props as [|p [|]]; try discriminate.
    destruct i; [|cbn in Hi; lia].
    cbn [map nth]. unfold spec_percentile.
    change (merge_sort Z.le [score c p]) with [score c p].
    cbn [first_index]. rewrite Z.eqb_refl. reflexivity.
Qed.




(** On a batch in which every score field converts, each record gets the
    percentile of its own score among the scores of the batch. *)
Lemma percentile_of_clean_batch (props : list record) i prop c :
  Forall (fun p => clean p = true) props ->
  props !! i = Some prop ->
  exists out r,
    calculate_percentile_scores props = Return out /\ out !! i = Some r /\
    profile_entry r (percentile_key c)
    = Some (spec_percentile (map (score c) props) (score c prop)).
Proof.
  intros Hclean Hi.
  assert (Hne : props <> []) by (intros ->; discriminate Hi).
  eexists _, _. split; [by apply calculate_percentile_scores_spec|].
  split; [by rewrite list_lookup_imap, Hi|].
  rewrite profile_entry_annotated. unfold column_percentile.
  rewrite collect_scores_clean by done.
  erewrite nth_lookup_Some; [reflexivity|].
  by rewrite list_lookup_fmap, Hi.
Qed.

(** C2 at the failing input. The first record appends its location score
    and then fails on [total_score]; the handler appends a zero to every
    list again, so the location list becomes [30; 0; 20]. The second record
    is then ranked with the zero at its position, among three scores: it
    gets 33.3 where the rank of its own score 20 among the two records'
    scores gives 50.0. *)
Theorem percentile_shifted_after_failed_record :
  collect_scores shifted_batch
  = {| location_scores := [30; 0; 20]%Z; building_scores := [0; 0; 0]%Z;
       convenience_scores := [0; 0; 0]%Z; price_scores := [0; 0; 0]%Z;
       total_scores := [0; 50]%Z |} /\
  exists out r,
    calculate_percentile_scores shifted_batch = Return out /\
    out !! 1%nat = Some r /\
    profile_entry r "location_percentile" = Some (333 # 10) /\
    spec_percentile [30; 20]%Z 20 = 50%Q.
Proof.
  split; [vm_compute; reflexivity|].
  eexists _, _. split; [by apply calculate_percentile_scores_spec|].
  split; [reflexivity|]. split; vm_compute; reflexivity.
Qed.

End PercentileFacts.

(** ** The convergence combine *)

Module ConvergenceFacts.
Import Convergence ConvergenceSpec.

Lemma first_occurrences_snoc l h :
  first_occurrences (l ++ [h])
  = if bool_decide (h ∈ first_occurrences l) then first_occurrences l
    else first_occurrences l ++ [h].
Proof. unfold first_occurrences. by rewrite fold_left_app. Qed.

Lemma first_occurrences_NoDup l : NoDup (first_occurrences l).
Proof.
  induction l as [|h l IH] using rev_ind; [constructor|].
  rewrite first_occurrences_snoc. case_bool_decide; [done|].
  apply NoDup_app. split; [done|]. split; [|apply NoDup_singleton].
  intros x Hx Hx'. apply list_elem_of_singleton in Hx'. by subst.
Qed.

Lemma elem_of_first_occurrences l h : h ∈ first_occurrences l <-> h ∈ l.
Proof.
  revert h. induction l as [|x l IH] using rev_ind; intros h; [done|].
  rewrite first_occurrences_snoc.
  case_bool_decide as Hx; rewrite ?elem_of_app, ?list_elem_of_singleton, IH.
  - apply IH in Hx. split; [by left | by intros [?| ->]].
  - done.
Qed.

Lemma dict_get_tabulate {V} (f : string -> V) keys h :
  dict_get h (tabulate f keys) = if bool_decide (h ∈ keys) then Some (f h) else None.
Proof.
  unfold tabulate. induction keys as [|k keys IH]; cbn [map dict_get]; [done|].
  destruct (String.eqb h k) eqn:E.
  - apply String.eqb_eq in E; subst. rewrite bool_decide_eq_true_2; [done|left].
  - apply String.eqb_neq in E. rewrite IH.
    case_bool_decide as H1; case_bool_decide as H2; try done.
    + exfalso. apply H2. by right.
    + exfalso. apply elem_of_cons in H2 as [?|?]; done.
Qed.

Lemma dict_set_tabulate_new {V} (f g : string -> V) keys h v :
  h ∉ keys -> (forall k, k ∈ keys -> g k = f k) -> g h = v ->
  dict_set h v (tabulate f keys) = tabulate g (keys ++ [h]).
Proof.
  intros Hh Hg Hv. unfold tabulate.
  induction keys as [|k keys IH]; cbn [map dict_set app].
  - by rewrite Hv.
  - destruct (String.eqb h k) eqn:E.
    + apply String.eqb_eq in E; subst. exfalso. apply Hh. left.
    + rewrite Hg by left. f_equal. apply IH.
      * intros ?. apply Hh. by right.
      * intros k' Hk'. apply Hg. by right.
Qed.

Lemma dict_set_tabulate_old {V} (f g : string -> V) keys h v :
  NoDup keys -> h ∈ keys ->
  (forall k, k ∈ keys -> k <> h -> g k = f k) -> g h = v ->
  dict_set h v (tabulate f keys) = tabulate g keys.
Proof.
  intros Hnd Hh Hg Hv. unfold tabulate.
  induction Hnd as [|k keys Hk Hnd IH]; cbn [map dict_set].
  - by apply elem_of_nil in Hh.
  - destruct (String.eqb h k) eqn:E.
    + apply String.eqb_eq in E; subst k. rewrite Hv. f_equal.
      apply map_ext_in. intros k' Hk'.
      apply list_elem_of_In in Hk'. rewrite Hg; [done|by right|].
      intros ->. done.
    + apply String.eqb_neq in E. rewrite Hg; [|left|congruence]. f_equal.
      apply IH.
      * apply elem_of_cons in Hh as [?|?]; [congruence|done].
      * intros k' Hk' Hne. apply Hg; [by right|done].
Qed.

Lemma last_nonempty {A} (l : list A) : l <> [] -> exists x, last l = Some x.
Proof.
  destruct l as [|a l] using rev_ind; [done|]. intros _. exists a. apply last_snoc.
Qed.

Lemma np_var_single x : (np_var [x] == 0)%Q.
Proof.
  unfold np_var, Qsum. cbn [length map fold_right].
  change (inject_Z (Z.of_nat 1)) with 1%Q. field.
Qed.

Lemma Qle_bool_proper x y z : (x == y)%Q -> Qle_bool x z = Qle_bool y z.
Proof.
  intros E. destruct (Qle_bool x z) eqn:Hx, (Qle_bool y z) eqn:Hy; try done.
  - apply Qle_bool_iff in Hx. rewrite E in Hx. apply Qle_bool_iff in Hx. congruence.
  - apply Qle_bool_iff in Hy. rewrite <- E in Hy. apply Qle_bool_iff in Hy. congruence.
Qed.

Lemma numeric_num v : is_numeric v = true -> numeric v = Return (num v).
Proof. unfold is_numeric, num. by destruct (numeric v). Qed.

Section grouping.
Variable py_repr : value -> string.

Abbreviation identifier := (ConvergenceSpec.identifier py_repr).
Abbreviation samples := (ConvergenceSpec.samples py_repr).
Abbreviation identifiers := (ConvergenceSpec.identifiers py_repr).
Abbreviation group_of := (ConvergenceSpec.group_of py_repr).
Abbreviation step := (ConvergenceSpec.step py_repr).

Lemma group_results_tagged rounds :
  group_results py_repr rounds = fold_left (step (length rounds)) (tagged rounds) [].
Proof.
  unfold group_results, tagged. generalize (length rounds) as n. intros n.
  generalize (@nil (string * group)) as acc.
  change (fun (round_idx : nat) (round_result : list record) => (round_idx, round_result))
    with (fun (i : nat) (r : list record) => (id i, r)).
  change (fun (i : nat) (round : list record) => map (fun prop => ((i + 1)%nat, prop)) round)
    with (fun (i : nat) (round : list record) => map (fun prop => ((id i + 1)%nat, prop)) round).
  generalize (@id nat) as g.
  induction rounds as [|r rounds IH]; intros g acc; [reflexivity|].
  cbn [imap concat fold_left]. rewrite fold_left_app.
  rewrite <- (IH (g ∘ S)). f_equal.
  cbn [fst snd]. clear IH.
  revert acc. induction r as [|p r IHr]; intros acc; [reflexivity|].
  cbn [map fold_left]. rewrite <- IHr. reflexivity.
Qed.

Lemma group_of_snoc_same n l rp :
  group_of n (l ++ [rp]) (identifier (snd rp))
  = {| scores := scores (group_of n l (identifier (snd rp))) ++ [raw_score (snd rp)];
       weights := weights (group_of n l (identifier (snd rp))) ++ [round_weight n (fst rp)];
       properties := properties (group_of n l (identifier (snd rp))) ++ [snd rp] |}.
Proof.
  unfold group_of. rewrite filter_app. cbn [scores weights properties].
  rewrite (filter_cons_True _ rp []) by done. by rewrite !map_app.
Qed.

Lemma group_of_snoc_other n l rp h :
  h <> identifier (snd rp) -> group_of n (l ++ [rp]) h = group_of n l h.
Proof.
  intros Hne. unfold group_of. rewrite filter_app.
  rewrite (filter_cons_False _ rp []) by congruence. by rewrite filter_nil, app_nil_r.
Qed.

Lemma samples_absent l h :
  h ∉ map (fun rp : nat * record => identifier (snd rp)) l ->
  filter (fun rp : nat * record => identifier (snd rp) = h) l = [].
Proof.
  intros Hh. destruct (filter _ l) as [|x t] eqn:E; [done|].
  assert (Hx : x ∈ filter (fun rp => identifier (snd rp) = h) l) by (rewrite E; left).
  apply list_elem_of_filter in Hx as [Hid Hx]. exfalso. apply Hh.
  rewrite <- Hid. by apply (list_elem_of_fmap_2 (fun rp => identifier (snd rp))).
Qed.

Lemma samples_present l h :
  h ∈ map (fun rp : nat * record => identifier (snd rp)) l ->
  filter (fun rp : nat * record => identifier (snd rp) = h) l <> [].
Proof.
  intros Hh E. apply list_elem_of_fmap in Hh as (rp & -> & Hrp).
  by eapply filter_nil_not_elem_of.
Qed.

Lemma group_of_absent n l h :
  h ∉ map (fun rp : nat * record => identifier (snd rp)) l -> group_of n l h = empty_group.
Proof. intros Hh. unfold group_of. by rewrite samples_absent. Qed.

(** The grouping loop files every sample under its identifier, the
    identifiers in the order of their first appearance. *)
Lemma fold_step_tabulate n l :
  fold_left (step n) l []
  = tabulate (group_of n l) (first_occurrences (map (fun rp => identifier (snd rp)) l)).
Proof.
  induction l as [|rp l IH] using rev_ind; [reflexivity|].
  rewrite fold_left_app, IH, map_app. cbn [fold_left map].
  rewrite first_occurrences_snoc.
  set (keys := first_occurrences (map (fun rp => identifier (snd rp)) l)).
  unfold step, add_result. fold (identifier (snd rp)). fold (raw_score (snd rp)).
  set (h := identifier (snd rp)).
  assert (Hdata : dict_get_default h empty_group (tabulate (group_of n l) keys)
                  = group_of n l h).
  { unfold dict_get_default. rewrite dict_get_tabulate. case_bool_decide as Hk; [done|].
    symmetry. apply group_of_absent. by rewrite <- elem_of_first_occurrences. }
  rewrite Hdata. case_bool_decide as Hk.
  - apply dict_set_tabulate_old; [apply first_occurrences_NoDup | done | |].
    + intros k _ Hne. by apply group_of_snoc_other.
    + apply group_of_snoc_same.
  - apply dict_set_tabulate_new; [done | |].
    + intros k Hin. apply group_of_snoc_other. intros ->. done.
    + apply group_of_snoc_same.
Qed.

Lemma mapM_omap {A B} (f : A -> outcome (option B)) (P : A -> B -> Prop) (l : list A) :
  (forall x, x ∈ l -> exists r, f x = Return (Some r) /\ P x r) ->
  exists out, (results ← mapM f l; mret (omap id results)) = Return out /\ Forall2 P l out.
Proof.
  induction l as [|a l IH]; intros Hf.
  - exists []. split; [reflexivity|constructor].
  - destruct (Hf a) as (r & Hr & HP); [left|].
    destruct IH as (out & Hout & Hall); [intros x Hx; apply Hf; by right|].
    exists (r :: out). split; [|by constructor].
    cbn [mapM mbind outcome_bind mret outcome_ret]. fold (mapM f l). rewrite Hr.
    cbn [mbind outcome_bind mret outcome_ret] in *.
    destruct (mapM f l) as [results|e]; [|discriminate].
    injection Hout as <-. reflexivity.
Qed.

Lemma combine_group n l h :
  h ∈ map (fun rp : nat * record => identifier (snd rp)) l ->
  Forall (fun rp : nat * record => is_numeric (raw_score (snd rp)) = true) l ->
  exists r, combine (group_of n l h) = Return (Some r) /\
            combined_as_specified n (filter (fun rp => identifier (snd rp) = h) l) r.
Proof.
  intros Hh Hnum. unfold combine, group_of. cbn [scores weights properties].
  set (ss := filter (fun rp => identifier (snd rp) = h) l).
  assert (Hss : ss <> []) by (by apply samples_present).
  destruct (last_nonempty (map snd ss)) as [latest ->].
  { destruct ss; [done|discriminate]. }
  rewrite (mapM_map_Return _ num).
  2:{ intros v Hv. apply list_elem_of_fmap in Hv as (rp & -> & Hrp).
      apply numeric_num. apply list_elem_of_filter in Hrp as [_ Hrp].
      rewrite Forall_forall in Hnum. by apply Hnum. }
  cbn [mbind outcome_bind]. eexists. split; [reflexivity|].
  unfold combined_as_specified. cbn zeta.
  rewrite <- !list_fmap_compose. unfold compose. change (map ?f ?x) with (f <$> x).
  repeat split.
  - rewrite !dict_get_set_ne by discriminate. by rewrite dict_get_set_eq.
  - rewrite !dict_get_set_ne by discriminate. rewrite dict_get_set_eq.
    do 2 f_equal. rewrite length_fmap.
    destruct ss as [|s1 [|s2 ss']]; [done| |reflexivity].
    cbn [length Nat.ltb Nat.leb fmap list_fmap].
    symmetry. apply Qle_bool_proper, np_var_single.
  - rewrite !dict_get_set_ne by discriminate. by rewrite dict_get_set_eq.
Qed.


End grouping.


End ConvergenceFacts.

(** ** Reconciliation of the response with the batch *)

Module ReconcileFacts.
Import Reanalyzer ReconcileSpec.

Section facts.
Variable py_repr : value -> string.
Variable set_iter : gset string -> list string.
Variable batch : list record.

Abbreviation ibm := (initial_batch_map py_repr batch).
Abbreviation expected_ids := (batch_hidx_set py_repr batch).
Abbreviation merge_item := (merge_item py_repr batch).
Abbreviation merge_items := (merge_items py_repr batch).
Abbreviation item_hidx := (item_hidx py_repr).
Abbreviation key_of := (ReconcileSpec.key_of py_repr).
Abbreviation enter := (ReconcileSpec.enter py_repr).
Abbreviation settled := (ReconcileSpec.settled py_repr batch).
Abbreviation first_with := (ReconcileSpec.first_with py_repr).
Abbreviation orig := (ReconcileSpec.orig py_repr batch).
Abbreviation merged_of := (ReconcileSpec.merged_of py_repr batch).
Abbreviation inv := (ReconcileSpec.inv py_repr batch).
Abbreviation expected := (ReconcileSpec.expected py_repr batch).

(** *** The map from identifiers to the records of the batch *)

Lemma enter_lookup h i l :
  dict_get h (fold_left enter l []) = Some i ->
  exists prop, (i, prop) ∈ l /\ key_of prop = Some h.
Proof.
  induction l as [|[j p] l IH] using rev_ind; [discriminate|].
  rewrite fold_left_app. cbn [fold_left]. unfold enter at 1. cbn [fst snd].
  destruct (dict_get "hidx" p) as [v|] eqn:Ev.
  - destruct (decide (py_str py_repr v = h)) as [<-|Hne].
    + rewrite dict_get_set_eq. intros [= ->]. exists p.
      split; [apply elem_of_app; right; left|]. unfold key_of. by rewrite Ev.
    + rewrite dict_get_set_ne by done. intros H.
      destruct (IH H) as (prop & Hin & Hk). exists prop.
      split; [apply elem_of_app; by left | done].
  - intros H. destruct (IH H) as (prop & Hin & Hk). exists prop.
    split; [apply elem_of_app; by left | done].
Qed.

Lemma enter_present h i prop l :
  (i, prop) ∈ l -> key_of prop = Some h ->
  exists j, dict_get h (fold_left enter l []) = Some j.
Proof.
  induction l as [|[j p] l IH] using rev_ind; intros Hin Hk.
  { by apply elem_of_nil in Hin. }
  rewrite fold_left_app. cbn [fold_left]. unfold enter at 1. cbn [fst snd].
  apply elem_of_app in Hin as [Hin|Hin].
  - destruct (IH Hin Hk) as [j' Hj'].
    destruct (dict_get "hidx" p) as [v|]; [|eauto].
    destruct (decide (py_str py_repr v = h)) as [<-|Hne].
    + rewrite dict_get_set_eq. eauto.
    + rewrite dict_get_set_ne by done. eauto.
  - apply list_elem_of_singleton in Hin as [= -> ->].
    unfold key_of in Hk. destruct (dict_get "hidx" p) as [v|]; [|discriminate].
    injection Hk as <-. rewrite dict_get_set_eq. eauto.
Qed.

(** An entry of the map points at a record of the batch that carries the
    key [hidx] with that identifier. *)
Lemma ibm_lookup h i :
  dict_get h ibm = Some i ->
  exists prop, batch !! i = Some prop /\ key_of prop = Some h.
Proof.
  intros H. apply enter_lookup in H as (prop & Hin & Hk).
  apply elem_of_lookup_imap in Hin as (j & q & [= -> ->] & Hj). eauto.
Qed.

(** Every expected identifier has an entry. *)
Lemma ibm_expected h : h ∈ expected_ids -> exists i, dict_get h ibm = Some i.
Proof.
  unfold batch_hidx_set, batch_hidx_list. rewrite elem_of_list_to_set.
  intros Hin. apply list_elem_of_omap in Hin as (prop & Hprop & Hh).
  apply list_elem_of_lookup in Hprop as [i Hi].
  apply (enter_present h i prop).
  - by apply (elem_of_lookup_imap_2 (fun i prop => (i, prop))).
  - unfold key_of. unfold hidx_of in Hh.
    destruct (dict_get "hidx" prop) as [[]|]; cbn in *; congruence.
Qed.

Lemma ibm_injective h1 h2 i :
  dict_get h1 ibm = Some i -> dict_get h2 ibm = Some i -> h1 = h2.
Proof.
  intros H1 H2. apply ibm_lookup in H1 as (p1 & Hp1 & Hk1).
  apply ibm_lookup in H2 as (p2 & Hp2 & Hk2). congruence.
Qed.

(** *** Duplicates *)

Lemma merge_item_settled_noop st item h :
  item_hidx item = Return h -> settled st h -> merge_item st item = Return st.
Proof.
  intros Hh Hs. unfold Reanalyzer.merge_item. rewrite Hh. cbn [mbind outcome_bind].
  destruct Hs as [Hs|Hs].
  - rewrite (bool_decide_eq_false_2 (h ∉ processed_hidxs st)) by tauto.
    by rewrite andb_false_r.
  - by rewrite (bool_decide_eq_false_2 _ Hs).
Qed.

Lemma merge_item_settled_mono st st' item h :
  merge_item st item = Return st' -> settled st h -> settled st' h.
Proof.
  unfold Reanalyzer.merge_item. destruct (item_hidx item) as [h'|]; [|discriminate].
  cbn [mbind outcome_bind]. intros H Hs.
  destruct (bool_decide _ && bool_decide _).
  2:{ by injection H as <-. }
  destruct (dict_get h' ibm), item; try (by injection H as <-).
  destruct (coerce_item d) as [d'|]; [|discriminate].
  cbn [mbind outcome_bind mret outcome_ret] in H. injection H as <-.
  destruct Hs as [Hs|Hs]; [left|by right]. cbn. set_solver.
Qed.

Lemma merge_item_settles st st' item h :
  item_hidx item = Return h -> merge_item st item = Return st' -> settled st' h.
Proof.
  intros Hh. unfold Reanalyzer.merge_item. rewrite Hh. cbn [mbind outcome_bind].
  destruct (bool_decide (h ∈ expected_ids)) eqn:HE.
  2:{ intros [= <-]. right. by apply bool_decide_eq_false in HE. }
  destruct (bool_decide (h ∉ processed_hidxs st)) eqn:HP.
  2:{ intros [= <-]. left. apply bool_decide_eq_false in HP.
      destruct (decide (h ∈ processed_hidxs st)); tauto. }
  cbn [andb]. apply bool_decide_eq_true in HE.
  destruct (ibm_expected h HE) as [i ->].
  destruct item; try discriminate.
  destruct (coerce_item d) as [d'|]; [|discriminate].
  cbn [mbind outcome_bind mret outcome_ret]. intros [= <-]. left. cbn. set_solver.
Qed.

Lemma merge_items_app st l1 l2 :
  merge_items st (l1 ++ l2)
  = match merge_items st l1 with
    | (st', None) => merge_items st' l2
    | (st', Some e) => (st', Some e)
    end.
Proof.
  revert st. induction l1 as [|x l1 IH]; intros st; [reflexivity|].
  cbn [app Reanalyzer.merge_items]. destruct (merge_item st x); [apply IH|reflexivity].
Qed.

Lemma merge_items_settled_mono st st' l h :
  merge_items st l = (st', None) -> settled st h -> settled st' h.
Proof.
  revert st. induction l as [|x l IH]; intros st H Hs.
  - by injection H as <-.
  - cbn [Reanalyzer.merge_items] in H. destruct (merge_item st x) eqn:Hx; [|discriminate].
    eapply IH; [exact H|]. by eapply merge_item_settled_mono.
Qed.

(** The loop is unchanged when a later item that repeats the identifier
    of an earlier one is removed. *)
Lemma merge_items_drop_duplicate st l1 a l2 b l3 h :
  item_hidx a = Return h -> item_hidx b = Return h ->
  merge_items st (l1 ++ a :: l2 ++ b :: l3) = merge_items st (l1 ++ a :: l2 ++ l3).
Proof.
  intros Ha Hb. rewrite !merge_items_app.
  destruct (merge_items st l1) as [st1 [e|]]; [reflexivity|].
  cbn [Reanalyzer.merge_items].
  destruct (merge_item st1 a) as [st2|e] eqn:Hma; [|reflexivity].
  rewrite !merge_items_app.
  destruct (merge_items st2 l2) as [st3 [e|]] eqn:Hl2; [reflexivity|].
  cbn [Reanalyzer.merge_items].
  rewrite (merge_item_settled_noop st3 b h Hb); [reflexivity|].
  eapply merge_items_settled_mono; [exact Hl2|].
  eapply merge_item_settles; [exact Ha | exact Hma].
Qed.

(** *** What the loop does to the records *)

Lemma first_with_snoc h items x :
  first_with h (items ++ [x])
  = match first_with h items with
    | Some d => Some d
    | None => first_with h [x]
    end.
Proof.
  induction items as [|y items IH]; [reflexivity|].
  cbn [app first_with]. destruct y; try apply IH.
  destruct (decide _); [reflexivity | apply IH].
Qed.

Lemma first_with_single h d :
  first_with h [VDict d] = if decide (py_str py_repr (dict_get_default "hidx" (VStr "") d) = h)
                           then Some d else None.
Proof. reflexivity. Qed.

Lemma orig_lookup h i prop :
  dict_get h ibm = Some i -> batch !! i = Some prop -> orig h = prop.
Proof. intros H1 H2. unfold orig. rewrite H1. cbn. by rewrite H2. Qed.

Lemma inv_initial : inv [] (initial_state batch) [].
Proof.
  split; cbn.
  - done.
  - intros h. split; [set_solver|]. intros [_ [? ?]]. discriminate.
  - constructor.
  - intros h. set_solver.
  - constructor.
  - intros h i Hi. destruct (ibm_lookup h i Hi) as (prop & Hp & _).
    rewrite decide_False by set_solver. rewrite Hp. f_equal.
    symmetry. by apply orig_lookup with i.
  - intros h d Hh. set_solver.
Qed.

Lemma inv_skip done st ord item h :
  inv done st ord -> item_hidx item = Return h -> settled st h ->
  inv (done ++ [item]) st ord.
Proof.
  intros [Hlen Hproc Hnd Hord Hfin Hstore Hco] Hh Hs.
  assert (Hfw : forall h', h' ∈ processed_hidxs st ->
                 first_with h' (done ++ [item]) = first_with h' done).
  { intros h' Hp. rewrite first_with_snoc.
    apply Hproc in Hp as [_ [d ->]]. reflexivity. }
  split; try done.
  - intros h'. rewrite Hproc, first_with_snoc. split.
    + intros [HE [d ->]]. eauto.
    + intros [HE Hsome]. split; [done|].
      destruct (first_with h' done) as [d|] eqn:Ed; [eauto|].
      destruct item as [| | | | | |d]; try (by destruct Hsome).
      rewrite first_with_single in Hsome. cbn in Hh. injection Hh as Hh.
      destruct (decide _) as [Heq|]; [|by destruct Hsome].
      rewrite Hh in Heq. subst h'.
      destruct Hs as [Hs|Hs]; [|done].
      apply Hproc in Hs as [_ Hs]. rewrite Ed in Hs. by destruct Hs.
  - intros h' i Hi. rewrite (Hstore h' i Hi). f_equal.
    destruct (decide _) as [Hp|]; [|done].
    unfold merged_of. by rewrite Hfw.
  - intros h' d Hp. rewrite Hfw by done. by apply Hco.
Qed.

Lemma inv_step done st ord item st' :
  inv done st ord -> merge_item st item = Return st' ->
  exists ord', inv (done ++ [item]) st' ord'.
Proof.
  intros Hinv Hm.
  destruct (item_hidx item) as [h|e] eqn:Hh.
  2:{ unfold Reanalyzer.merge_item in Hm. rewrite Hh in Hm. discriminate. }
  destruct (decide (h ∈ processed_hidxs st \/ h ∉ expected_ids)) as [Hs|Hs].
  { rewrite (merge_item_settled_noop st item h Hh Hs) in Hm. injection Hm as <-.
    exists ord. by eapply inv_skip. }
  assert (HE : h ∈ expected_ids).
  { destruct (decide (h ∈ expected_ids)); [done|]. exfalso. apply Hs. by right. }
  assert (HP : h ∉ processed_hidxs st).
  { intros ?. apply Hs. by left. }
  destruct (ibm_expected h HE) as [i Hi].
  unfold Reanalyzer.merge_item in Hm. rewrite Hh in Hm. cbn [mbind outcome_bind] in Hm.
  rewrite !bool_decide_eq_true_2 in Hm by done. cbn [andb] in Hm. rewrite Hi in Hm.
  destruct item as [| | | | | |d]; try discriminate.
  cbn in Hh. injection Hh as Hh.
  destruct (coerce_item d) as [d'|] eqn:Hc; [|discriminate].
  cbn [mbind outcome_bind mret outcome_ret] in Hm. injection Hm as <-.
  destruct Hinv as [Hlen Hproc Hnd Hord Hfin Hstore Hco].
  assert (Hnone : first_with h done = None).
  { destruct (first_with h done) eqn:E; [|done]. exfalso. apply HP, Hproc. eauto. }
  exists (ord ++ [h]). split; cbn [store final_properties processed_hidxs].
  - by rewrite length_alter.
  - intros h'. rewrite elem_of_union, elem_of_singleton, Hproc, first_with_snoc.
    destruct (decide (h' = h)) as [->|Hne].
    + rewrite Hnone, first_with_single, decide_True by done. split; eauto.
    + split.
      * intros [?|[? [d0 ->]]]; [done|eauto].
      * intros [? Hsome]. right. split; [done|].
        destruct (first_with h' done); [eauto|].
        rewrite first_with_single, decide_False in Hsome by congruence. done.
  - apply NoDup_app. split; [done|]. split; [|apply NoDup_singleton].
    intros x Hx Hx'. apply list_elem_of_singleton in Hx' as ->. by apply HP, Hord.
  - intros h'. rewrite elem_of_app, list_elem_of_singleton, elem_of_union,
      elem_of_singleton, Hord. tauto.
  - apply Forall2_app; [done|]. by repeat constructor.
  - intros h' i' Hi'. destruct (decide (h' = h)) as [->|Hne].
    + assert (i' = i) as -> by congruence.
      rewrite list_lookup_alter_eq, (Hstore h i Hi), decide_False by done.
      rewrite decide_True by set_solver. cbn. f_equal.
      unfold merged_of. rewrite first_with_snoc, Hnone, first_with_single.
      rewrite decide_True by done. unfold merged. by rewrite Hc.
    + assert (i <> i') by (intros ->; apply Hne; by eapply ibm_injective).
      rewrite list_lookup_alter_ne by done. rewrite (Hstore h' i' Hi'). f_equal.
      destruct (decide (h' ∈ processed_hidxs st)) as [Hp|Hp].
      * rewrite decide_True by set_solver. unfold merged_of.
        rewrite first_with_snoc. apply Hproc in Hp as [_ [d0 ->]]. reflexivity.
      * rewrite decide_False by set_solver. reflexivity.
  - intros h' d0. rewrite elem_of_union, elem_of_singleton, first_with_snoc.
    destruct (decide (h' = h)) as [->|Hne].
    + rewrite Hnone, first_with_single, decide_True by done.
      intros _ [= <-]. eauto.
    + intros [?|Hp]; [done|]. pose proof Hp as Hp'.
      apply Hproc in Hp as [_ [d1 E1]]. rewrite E1. intros [= <-]. by eapply Hco.
Qed.

Lemma inv_loop done st ord rest st' :
  inv done st ord -> merge_items st rest = (st', None) ->
  exists ord', inv (done ++ rest) st' ord'.
Proof.
  revert done st ord. induction rest as [|x rest IH]; intros done st ord Hinv H.
  - injection H as <-. rewrite app_nil_r. eauto.
  - cbn [Reanalyzer.merge_items] in H.
    destruct (merge_item st x) as [st1|] eqn:Hx; [|discriminate].
    destruct (inv_step _ _ _ _ _ Hinv Hx) as [ord1 Hinv1].
    destruct (IH _ _ _ Hinv1 H) as [ord' Hinv'].
    exists ord'. by rewrite <- app_assoc in Hinv'.
Qed.

(** *** The records missing from the response *)

Abbreviation mark_missing := (mark_missing py_repr batch).

Lemma mark_missing_spec l st :
  NoDup l -> (forall h, h ∈ l -> h ∈ expected_ids) ->
  let st' := fold_left mark_missing l st in
  processed_hidxs st' = processed_hidxs st /\
  length (store st') = length (store st) /\
  (exists idxs,
     Forall2 (fun h i => dict_get h ibm = Some i) (filter (unprocessed st) l) idxs /\
     final_properties st' = final_properties st ++ idxs) /\
  (forall h i, dict_get h ibm = Some i ->
     store st' !! i
     = if decide (h ∈ l /\ h ∉ processed_hidxs st)
       then dict_set "reanalysis_comment" (VStr missing_comment) <$> store st !! i
       else store st !! i).
Proof.
  intros Hnd. revert st. induction Hnd as [|h0 l Hh0 Hnd IH]; intros st HE; cbn zeta.
  { cbn [fold_left]. split; [done|]. split; [done|]. split.
    - exists []. rewrite filter_nil, app_nil_r. split; [constructor|done].
    - intros h i _. rewrite decide_False; [done|]. intros [? _]. by apply elem_of_nil in H. }
  cbn [fold_left].
  set (st1 := mark_missing st h0).
  destruct (IH st1) as (Hp & Hl & (idxs & Hidx & Hfin) & Hst).
  { intros h Hh. apply HE. by right. }
  destruct (ibm_expected h0) as [i0 Hi0]; [apply HE; left|].
  assert (Hp1 : processed_hidxs st1 = processed_hidxs st).
  { unfold st1, Reanalyzer.mark_missing. case_bool_decide; [|done]. by rewrite Hi0. }
  assert (Hfilter : filter (unprocessed st1) l = filter (unprocessed st) l).
  { apply list_filter_iff. intros h. unfold unprocessed. by rewrite Hp1. }
  rewrite Hfilter in Hidx.
  destruct (decide (h0 ∈ processed_hidxs st)) as [Hin|Hout].
  - (* already processed: nothing happens *)
    assert (Est : st1 = st).
    { unfold st1, Reanalyzer.mark_missing. by rewrite bool_decide_eq_false_2 by tauto. }
    rewrite Est in *. split; [done|]. split; [done|]. split.
    + exists idxs. split; [|done]. rewrite filter_cons_False; [done|].
      unfold unprocessed. tauto.
    + intros h i Hi. rewrite (Hst h i Hi).
      destruct (decide (h ∈ l /\ _)) as [[? ?]|Hn].
      * rewrite decide_True; [done|]. split; [by right|done].
      * rewrite decide_False; [done|]. intros [Hh ?]. apply Hn.
        apply elem_of_cons in Hh as [->|?]; [done|]. done.
  - (* missing: annotated and appended *)
    assert (Est : st1 = {| store := alter (dict_set "reanalysis_comment" (VStr missing_comment))
                                          i0 (store st);
                           final_properties := final_properties st ++ [i0];
                           processed_hidxs := processed_hidxs st |}).
    { unfold st1, Reanalyzer.mark_missing. rewrite bool_decide_eq_true_2 by done.
      by rewrite Hi0. }
    split; [congruence|]. split.
    { rewrite Hl, Est. cbn. apply length_alter. }
    split.
    + exists (i0 :: idxs). split.
      * rewrite filter_cons_True by done. by constructor.
      * rewrite Hfin, Est. cbn. by rewrite <- app_assoc.
    + intros h i Hi. rewrite (Hst h i Hi), Hp1. rewrite Est. cbn [store].
      destruct (decide (h = h0)) as [->|Hne].
      * assert (i = i0) as -> by congruence.
        rewrite decide_False by (intros [? _]; done).
        rewrite decide_True by (split; [left|done]).
        apply list_lookup_alter_eq.
      * assert (i0 <> i) by (intros ->; apply Hne; by eapply ibm_injective).
        rewrite list_lookup_alter_ne by done.
        destruct (decide (h ∈ l /\ _)) as [[? ?]|Hn].
        -- rewrite decide_True; [done|]. split; [by right|done].
        -- rewrite decide_False; [done|]. intros [Hh ?]. apply Hn.
           apply elem_of_cons in Hh as [->|?]; done.
Qed.

Lemma omap_lookup_Forall2 (f : string -> record) (stor : list record) hs idxs :
  Forall2 (fun h i => dict_get h ibm = Some i) hs idxs ->
  (forall h i, h ∈ hs -> dict_get h ibm = Some i -> stor !! i = Some (f h)) ->
  omap (fun i => stor !! i) idxs = map f hs.
Proof.
  intros Hall Hf. induction Hall as [|h i hs idxs Hi Hall IH]; [reflexivity|].
  cbn [omap list_omap map]. rewrite (Hf h i) by (done || left).
  f_equal. apply IH. intros h' i' Hh'. apply Hf. by right.
Qed.

Hypothesis set_iter_perm : forall X : gset string, set_iter X ≡ₚ elements X.

(** After the two loops the result list holds, for every expected
    identifier exactly once, the record described by [expected]. *)
Lemma final_records_spec items st :
  merge_items (initial_state batch) items = (st, None) ->
  exists order,
    order ≡ₚ elements expected_ids /\
    Forall2 (fun h i => dict_get h ibm = Some i) order
            (final_properties (add_missing py_repr set_iter batch st)) /\
    final_records (add_missing py_repr set_iter batch st) = map (expected items) order /\
    (forall h d, h ∈ expected_ids -> first_with h items = Some d ->
                 exists d', coerce_item d = Return d').
Proof.
  intros Hm.
  destruct (inv_loop [] _ [] items st inv_initial Hm) as [ord Hinv].
  rewrite app_nil_l in Hinv.
  destruct Hinv as [Hlen Hproc Hnd Hord Hfin Hstore Hco].
  set (l := set_iter expected_ids).
  assert (Hl : l ≡ₚ elements expected_ids) by apply set_iter_perm.
  assert (Hlnd : NoDup l) by (rewrite Hl; apply NoDup_elements).
  assert (HlE : forall h, h ∈ l -> h ∈ expected_ids).
  { intros h. rewrite Hl. apply elem_of_elements. }
  destruct (mark_missing_spec l st Hlnd HlE) as (Hp & Hl' & (idxs & Hidx & Hfin') & Hst).
  exists (ord ++ filter (unprocessed st) l). split.
  - rewrite <- Hl.
    etrans; [|apply (filter_app_complement (fun h => h ∈ processed_hidxs st) l)].
    apply Permutation_app; [|reflexivity].
    apply NoDup_Permutation; [done|by apply NoDup_filter|].
    intros h. rewrite list_elem_of_filter, Hord. split; [|tauto].
    intros Hh. split; [done|]. rewrite Hl. apply elem_of_elements. by apply Hproc.
  - split; [unfold add_missing; fold l; rewrite Hfin'; by apply Forall2_app|].
    split; [|intros h d HE Hd; eapply Hco; [apply Hproc; eauto | done]].
    unfold final_records, add_missing. fold l. rewrite Hfin', omap_app, map_app. f_equal.
    + apply omap_lookup_Forall2; [done|]. intros h i Hh Hi. apply Hord in Hh.
      rewrite (Hst h i Hi). rewrite decide_False by tauto.
      rewrite (Hstore h i Hi), decide_True by done. f_equal.
      unfold merged_of, expected. apply Hproc in Hh as [_ [d ->]]. reflexivity.
    + apply omap_lookup_Forall2; [done|]. intros h i Hh Hi.
      apply list_elem_of_filter in Hh as [Hun Hh].
      rewrite (Hst h i Hi). rewrite decide_True by done.
      rewrite (Hstore h i Hi), decide_False by done. cbn. f_equal.
      unfold expected. destruct (first_with h items) eqn:E; [|done].
      exfalso. apply Hun, Hproc. split; [by apply HlE | eauto].
Qed.

End facts.

(** *** The whole function on the path through the merge *)

Section orchestrator.
Variable py_repr : value -> string.
Variable json_loads : string -> outcome value.
Variable new_client : string -> outcome unit.
Variable generate_content : nat -> api_reply.
Variable latency : nat -> Q.
Variable set_iter : gset string -> list string.
Hypothesis set_iter_perm : forall X : gset string, set_iter X ≡ₚ elements X.

Abbreviation reanalyze :=
  (reanalyze_property_batch py_repr json_loads new_client generate_content latency set_iter).
Abbreviation parsed_response :=
  (ReconcileSpec.parsed_response py_repr json_loads new_client generate_content latency).

Lemma reanalyze_parsed w batch api_key items :
  parsed_response w batch api_key items ->
  snd (reanalyze w batch api_key)
  = handled (reconcile py_repr set_iter batch (VList items)).
Proof.
  intros (Hkey & Hids & [u Hcl] & c & text & Hcall & Hparse).
  unfold reanalyze_property_batch.
  destruct batch as [|p0 batch0] eqn:E; [done|]. rewrite <- E in *.
  rewrite Hkey.
  destruct (batch_hidx_list py_repr batch) as [|h0 hs] eqn:Eh; [done|].
  rewrite Hcl.
  destruct (call_loop generate_content latency MAX_RETRY 0 (rate_limit_gate w))
    as [w' rt] eqn:Ecall.
  cbn [snd] in Hcall. subst rt. cbn [snd].
  unfold process_response. by rewrite Hparse.
Qed.

Lemma dict_get_annotated sl i prop k :
  k <> "percentile_scores" -> k <> "weighted_percentile_score" ->
  dict_get k (PercentileSpec.annotated sl i prop) = dict_get k prop.
Proof.
  intros H1 H2. unfold PercentileSpec.annotated.
  rewrite !dict_get_set_ne by congruence. reflexivity.
Qed.

(** The percentile engine keeps the list and every field but its own two. *)
Lemma calculate_percentile_scores_keeps (recs : list record) :
  exists out,
    Percentile.calculate_percentile_scores recs = Return out /\
    Forall2 (fun prop o =>
               forall k, k <> "percentile_scores" -> k <> "weighted_percentile_score" ->
                         dict_get k o = dict_get k prop) recs out.
Proof.
  destruct recs as [|p0 recs0] eqn:E.
  { exists []. split; [reflexivity|constructor]. }
  rewrite <- E. eexists. split.
  { apply PercentileFacts.calculate_percentile_scores_spec. by rewrite E. }
  apply Forall2_same_length_lookup_2; [by rewrite length_imap|].
  intros i prop o Hprop Ho k H1 H2.
  rewrite list_lookup_imap, Hprop in Ho. injection Ho as <-.
  by apply dict_get_annotated.
Qed.

(** The result on the path through the merge. *)
Lemma reanalyze_merged w batch api_key items st :
  parsed_response w batch api_key items ->
  merge_items py_repr batch (initial_state batch) items = (st, None) ->
  exists order out,
    snd (reanalyze w batch api_key) = Return out /\
    order ≡ₚ elements (batch_hidx_set py_repr batch) /\
    Forall2 (fun h i => dict_get h (initial_batch_map py_repr batch) = Some i) order
            (final_properties (add_missing py_repr set_iter batch st)) /\
    Forall2 (fun h o =>
               forall k, k <> "percentile_scores" -> k <> "weighted_percentile_score" ->
                         dict_get k o = dict_get k (expected py_repr batch items h))
            order out /\
    (forall h d, h ∈ batch_hidx_set py_repr batch ->
                 first_with py_repr h items = Some d ->
                 exists d', coerce_item d = Return d').
Proof.
  intros Hparsed Hm.
  destruct (final_records_spec py_repr set_iter batch set_iter_perm items st Hm)
    as (order & Hperm & Hidx & Hrecs & Hco).
  destruct (calculate_percentile_scores_keeps
              (final_records (add_missing py_repr set_iter batch st)))
    as (out & Hout & Hkeep).
  exists order, out. split.
  { rewrite (reanalyze_parsed _ _ _ _ Hparsed). unfold reconcile.
    cbn [py_len py_iter mbind outcome_bind]. rewrite Hm, Hout. reflexivity. }
  split; [done|]. split; [done|]. split; [|done].
  rewrite Hrecs in Hkeep. change (map ?f ?l) with (f <$> l) in Hkeep.
  by apply (proj1 (Forall2_fmap_l _ _ _ _)) in Hkeep.
Qed.

Lemma Forall2_impl_in {A B} (P Q : A -> B -> Prop) l k :
  Forall2 P l k -> (forall x y, x ∈ l -> P x y -> Q x y) -> Forall2 Q l k.
Proof.
  intros H. induction H as [|x y l k Hxy H IH]; intros HPQ; constructor.
  - apply HPQ; [left|done].
  - apply IH. intros x' y' Hx'. apply HPQ. by right.
Qed.

Lemma Forall2_right {A B} (P : A -> B -> Prop) (Q : B -> Prop) l k :
  Forall2 P l k -> (forall x y, x ∈ l -> P x y -> Q y) -> Forall Q k.
Proof.
  intros H. induction H as [|x y l k Hxy H IH]; intros HPQ; constructor.
  - eapply HPQ; [left|done].
  - apply IH. intros x' y' Hx'. apply HPQ. by right.
Qed.


Lemma orig_has_hidx batch h i :
  dict_get h (initial_batch_map py_repr batch) = Some i ->
  exists prop, batch !! i = Some prop /\ orig py_repr batch h = prop /\
               dict_has "hidx" prop = true.
Proof.
  intros Hi. destruct (ibm_lookup py_repr batch h i Hi) as (prop & Hp & Hk).
  exists prop. split; [done|]. split; [by eapply orig_lookup|].
  unfold key_of in Hk. unfold dict_has. by destruct (dict_get "hidx" prop).
Qed.

Lemma expected_has_hidx batch items h i :
  dict_get h (initial_batch_map py_repr batch) = Some i ->
  dict_has "hidx" (expected py_repr batch items h) = true.
Proof.
  intros Hi. destruct (orig_has_hidx batch h i Hi) as (prop & _ & Horig & Hhas).
  unfold expected, merged. rewrite Horig.
  destruct (first_with py_repr h items) as [d|].
  - destruct (coerce_item d); [by apply dict_has_update | done].
  - rewrite dict_has_set, Hhas. apply orb_true_r.
Qed.

(** C9. On the path through the merge (the batch has at least one
    identifier, the response is parsed and merged), the returned list is
    built from records that carry the key [hidx] only: every position the
    result refers to is a record of the batch with that key, every
    returned record has it, and no record of the batch without it is
    returned. *)
Theorem records_without_hidx_dropped w batch api_key items st :
  parsed_response w batch api_key items ->
  merge_items py_repr batch (initial_state batch) items = (st, None) ->
  exists out,
    snd (reanalyze w batch api_key) = Return out /\
    Forall (fun i => exists prop, batch !! i = Some prop /\ dict_has "hidx" prop = true)
           (final_properties (add_missing py_repr set_iter batch st)) /\
    Forall (fun o => dict_has "hidx" o = true) out /\
    forall prop, prop ∈ batch -> dict_has "hidx" prop = false -> prop ∉ out.
Proof.
  intros Hparsed Hm.
  destruct (reanalyze_merged w batch api_key items st Hparsed Hm)
    as (order & out & Hout & Hperm & Hidx & Hall & _).
  assert (Hmap : forall h, h ∈ order ->
                    exists i, dict_get h (initial_batch_map py_repr batch) = Some i).
  { intros h Hh. apply ibm_expected, elem_of_elements. by rewrite <- Hperm. }
  assert (Hhas : Forall (fun o => dict_has "hidx" o = true) out).
  { eapply Forall2_right; [exact Hall|]. cbn beta. intros h o Hh Ho.
    destruct (Hmap h Hh) as [i Hi]. unfold dict_has.
    rewrite Ho by discriminate. by apply (expected_has_hidx batch items h i). }
  exists out. split; [done|]. split; [|split; [done|]].
  - eapply Forall2_right; [exact Hidx|]. cbn beta. intros h i _ Hi.
    destruct (orig_has_hidx batch h i Hi) as (prop & Hp & _ & Hh). eauto.
  - intros prop _ Hno Hin. rewrite Forall_forall in Hhas.
    specialize (Hhas prop Hin). congruence.
Qed.


End orchestrator.

(** *** A run through the merge *)

Lemma demo_parsed :
  parsed_response (fun _ => "") demo_loads (fun _ => Return tt) demo_reply (fun _ => 0%Q)
                  demo_world demo_batch (Some "key") demo_items.
Proof.
  split; [reflexivity|]. split; [discriminate|]. split; [by exists tt|].
  exists "`"%char, ("``json " +:+ demo_array +:+ " ```").
  split; vm_compute; reflexivity.
Defined.


Lemma records_without_hidx_dropped_witness :
  exists out,
    snd (demo_reanalyze demo_world demo_batch (Some "key")) = Return out /\
    Forall (fun o => dict_has "hidx" o = true) out /\
    [("total_score", VInt 40)] ∉ out.
Proof.
  edestruct (records_without_hidx_dropped (fun _ => "") demo_loads (fun _ => Return tt)
               demo_reply (fun _ => 0%Q) elements) as (out & Hout & _ & Hhas & Hdrop);
    [intros X; reflexivity | exact demo_parsed | vm_compute; reflexivity |].
  exists out. split; [exact Hout|]. split; [exact Hhas|].
  apply Hdrop; [|reflexivity]. right. right. left.
Defined.


End ReconcileFacts.

(** ** Attempts and waits *)

Module RetryFacts.
Import Reanalyzer RetrySpec.

Section calls.
Variable generate_content : nat -> api_reply.
Variable latency : nat -> Q.

Abbreviation loop_events := (RetrySpec.loop_events generate_content).

Lemma call_loop_trace remaining retry_count w :
  trace (fst (call_loop generate_content latency remaining retry_count w))
  = trace w ++ loop_events remaining retry_count.
Proof.
  revert retry_count w.
  induction remaining as [|remaining IH]; intros k w; cbn [call_loop loop_events].
  { by rewrite app_nil_r. }
  destruct (generate_content k) as [[[|c s]|]|msg]; cbn [fst];
    try (rewrite IH; unfold backoff; destruct (S k <? MAX_RETRY)%nat;
         try destruct (is_quota_error msg);
         cbn [trace sleep do_call]; by rewrite <- ?app_assoc).
  cbn [trace do_call]. reflexivity.
Qed.

Lemma gate_trace w :
  exists gate_events,
    trace (rate_limit_gate w) = trace w ++ gate_events /\
    Forall (fun e => is_call e = false) gate_events /\
    last_api_call_time_reanalyzer (rate_limit_gate w) = last_api_call_time_reanalyzer w /\
    (API_MIN_DELAY_SECONDS_REANALYZER
     <= now (rate_limit_gate w) - last_api_call_time_reanalyzer w)%Q.
Proof.
  unfold rate_limit_gate.
  destruct (Qle_bool _ _) eqn:E; cbn [negb].
  - exists []. rewrite app_nil_r. split; [done|]. split; [constructor|]. split; [done|].
    by apply Qle_bool_iff in E.
  - eexists [_]. split; [reflexivity|]. split; [by repeat constructor|]. split; [done|].
    cbn [now sleep]. unfold API_MIN_DELAY_SECONDS_REANALYZER. lra.
Qed.

(** The loop makes at most [MAX_RETRY] calls. *)
Lemma loop_calls_bounded remaining retry_count :
  (length (filter (fun e => is_call e = true) (loop_events remaining retry_count))
   <= remaining)%nat.
Proof.
  revert retry_count. induction remaining as [|remaining IH]; intros k; [done|].
  cbn [loop_events]. rewrite filter_cons_True by done. cbn [length].
  specialize (IH (S k)).
  destruct (generate_content k) as [[[|c s]|]|msg];
    try (destruct (S k <? MAX_RETRY)%nat; cbn [app];
         rewrite ?filter_cons_False by (cbn; congruence); lia).
  rewrite filter_nil. cbn. lia.
Qed.

Lemma backoff_min reply retry_count :
  (1 <= retry_count)%nat ->
  (API_MIN_DELAY_SECONDS_REANALYZER <= backoff reply retry_count)%Q.
Proof.
  intros Hk. unfold API_MIN_DELAY_SECONDS_REANALYZER.
  assert (Hq : (2 <= quota_wait retry_count)%Q).
  { unfold quota_wait. change 2%Q with (inject_Z 2). rewrite <- Zle_Qle. lia. }
  assert (Hp : (2 <= plain_wait retry_count)%Q).
  { unfold plain_wait. change 2%Q with (inject_Z 2). rewrite <- Zle_Qle.
    change 2%Z with (2 ^ 1)%Z at 1. apply Z.pow_le_mono_r; lia. }
  unfold backoff. destruct reply as [?|msg]; [done|]. by destruct (is_quota_error msg).
Qed.

(** Every attempt after the first comes right after its wait. *)
Lemma retry_preceded_by_wait i k :
  loop_events MAX_RETRY 0 !! i = Some (Call (S k)) ->
  exists j, i = S j /\
    loop_events MAX_RETRY 0 !! j = Some (Sleep (backoff (generate_content k) (S k))).
Proof.
  unfold MAX_RETRY. cbn [loop_events Nat.ltb Nat.leb].
  destruct (generate_content 0) as [[[|c0 s0]|]|m0] eqn:E0;
    destruct (generate_content 1) as [[[|c1 s1]|]|m1] eqn:E1;
    destruct (generate_content 2) as [[[|c2 s2]|]|m2] eqn:E2;
    cbn [app]; intros H;
    repeat (destruct i as [|i]; cbn in H; try discriminate H);
    injection H as <-; eexists; (split; [reflexivity|]); cbn;
    rewrite ?E0, ?E1; reflexivity.
Qed.

End calls.

Section orchestrator.
Variable py_repr : value -> string.
Variable json_loads : string -> outcome value.
Variable new_client : string -> outcome unit.
Variable generate_content : nat -> api_reply.
Variable latency : nat -> Q.
Variable set_iter : gset string -> list string.

Abbreviation reanalyze :=
  (reanalyze_property_batch py_repr json_loads new_client generate_content latency set_iter).

(** C7, as amended. One call of the orchestrator adds to the trace the
    sleep of the rate-limit gate, if any, and then the events of the retry
    loop, if the service is called at all. The loop makes at most 3 calls.
    The gate is passed once, in front of the loop, and leaves at least the
    minimum delay between the last recorded call and the first attempt.
    Every later attempt comes right after a wait of 60 + 30 k seconds when
    the k-th attempt failed with a quota signal and of 2^k seconds
    otherwise, which is at least the minimum delay; nothing in the wait is
    random. *)
Theorem retry_discipline (w : world) (batch : list record) (api_key : option string) :
  exists gate_events loop_evs,
    trace (fst (reanalyze w batch api_key)) = trace w ++ gate_events ++ loop_evs /\
    Forall (fun e => is_call e = false) gate_events /\
    (length (filter (fun e => is_call e = true) loop_evs) <= 3)%nat /\
    (loop_evs <> [] ->
     trace (rate_limit_gate w) = trace w ++ gate_events /\
     (API_MIN_DELAY_SECONDS_REANALYZER
      <= now (rate_limit_gate w) - last_api_call_time_reanalyzer w)%Q) /\
    (forall i k, loop_evs !! i = Some (Call (S k)) ->
       exists j d, i = S j /\ loop_evs !! j = Some (Sleep d) /\
                   d = backoff (generate_content k) (S k) /\
                   (API_MIN_DELAY_SECONDS_REANALYZER <= d)%Q).
Proof.
  assert (Hnone : forall w', trace w' = trace w ->
            exists gate_events loop_evs,
              trace w' = trace w ++ gate_events ++ loop_evs /\
              Forall (fun e => is_call e = false) gate_events /\
              (length (filter (fun e => is_call e = true) loop_evs) <= 3)%nat /\
              (loop_evs <> [] ->
               trace (rate_limit_gate w) = trace w ++ gate_events /\
               (API_MIN_DELAY_SECONDS_REANALYZER
                <= now (rate_limit_gate w) - last_api_call_time_reanalyzer w)%Q) /\
              (forall i k, loop_evs !! i = Some (Call (S k)) ->
                 exists j d, i = S j /\ loop_evs !! j = Some (Sleep d) /\
                             d = backoff (generate_content k) (S k) /\
                             (API_MIN_DELAY_SECONDS_REANALYZER <= d)%Q)).
  { intros w' Hw'. exists [], []. rewrite Hw', app_nil_r.
    split; [done|]. split; [constructor|]. split; [cbn; lia|]. split; [done|].
    intros i k H. by rewrite lookup_nil in H. }
  unfold reanalyze_property_batch.
  destruct batch as [|p0 batch0] eqn:Eb; [by apply Hnone|]. rewrite <- Eb. clear Eb.
  destruct (no_key api_key); [by apply Hnone|].
  destruct (batch_hidx_list py_repr batch) as [|h0 hs]; [by apply Hnone|].
  destruct (gate_trace w) as (gate_events & Hgate & Hnocall & _ & Hdelay).
  destruct (new_client _) as [u|e].
  2:{ cbn [fst]. exists gate_events, []. rewrite app_nil_r.
      split; [done|]. split; [done|]. split; [cbn; lia|]. split; [done|].
      intros i k H. by rewrite lookup_nil in H. }
  pose proof (call_loop_trace generate_content latency MAX_RETRY 0 (rate_limit_gate w)) as Hloop.
  destruct (call_loop generate_content latency MAX_RETRY 0 (rate_limit_gate w))
    as [w' rt] eqn:Ecall.
  cbn [fst] in Hloop.
  exists gate_events, (loop_events generate_content MAX_RETRY 0).
  split.
  { destruct rt as [[|c s]|]; cbn [fst trace]; rewrite Hloop, Hgate; by rewrite app_assoc. }
  split; [done|]. split; [apply loop_calls_bounded|]. split; [done|].
  intros i k H. destruct (retry_preceded_by_wait generate_content i k H) as (j & -> & Hj).
  eexists _, _. split; [reflexivity|]. split; [exact Hj|]. split; [reflexivity|].
  apply backoff_min. lia.
Qed.

End orchestrator.

(** C7 as stated fails: under quota signals the waits are 90 and 120
    seconds, a fixed function of the attempt that grows by 30 seconds; the
    second is not twice the first, so they are not [base * 2 ^ attempt] for
    any base and numbering of the attempts. *)
Lemma quota_backoff_is_linear :
  trace (fst (reanalyze_property_batch (fun _ => "") (fun _ => Raise JSONDecodeError)
                (fun _ => Return tt) quota_service (fun _ => 0%Q) elements
                {| now := 100; last_api_call_time_reanalyzer := 0; trace := [] |}
                [scored "1" 80] (Some "key")))
  = [Call 0; Sleep 90; Call 1; Sleep 120; Call 2] /\
  ~ exists (base : Q) (a : Z),
      (90 == base * inject_Z (2 ^ a))%Q /\ (120 == base * inject_Z (2 ^ (a + 1)))%Q /\
      (0 <= a)%Z.
Proof.
  split; [vm_compute; reflexivity|].
  intros (base & a & H1 & H2 & Ha).
  rewrite Z.pow_add_r, inject_Z_mult in H2 by lia.
  change (inject_Z (2 ^ 1)) with 2%Q in H2.
  set (x := inject_Z (2 ^ a)) in *.
  assert (120 == 180)%Q; [|discriminate].
  rewrite H2. transitivity (2 * (base * x))%Q; [ring|]. rewrite <- H1. reflexivity.
Qed.

End RetryFacts.

(** ** The orchestrator as a whole *)

Module OrchestratorFacts.
Import Reanalyzer OrchestratorSpec ReconcileSpec.

Section orchestrator.
Variable py_repr : value -> string.
Variable json_loads : string -> outcome value.
Variable new_client : string -> outcome unit.
Variable generate_content : nat -> api_reply.
Variable latency : nat -> Q.
Variable set_iter : gset string -> list string.

Abbreviation reanalyze :=
  (reanalyze_property_batch py_repr json_loads new_client generate_content latency set_iter).
Abbreviation scoring_failed :=
  (OrchestratorSpec.scoring_failed py_repr json_loads new_client generate_content latency).

(** The percentile engine never raises. *)
Lemma calculate_percentile_scores_total (recs : list record) :
  exists out, Percentile.calculate_percentile_scores recs = Return out.
Proof.
  destruct (ReconcileFacts.calculate_percentile_scores_keeps recs) as (out & H & _). eauto.
Qed.

(** So the handlers always produce a list. *)
Lemma handled_total (r : list record * outcome (list record)) :
  exists out, handled r = Return out.
Proof.
  destruct r as [stor [out|e]]; unfold handled; cbn [fst snd try_except].
  - eauto.
  - destruct (calculate_percentile_scores_total stor) as [out ->]. eauto.
Qed.

Lemma handled_fallback (batch : list record) (r : outcome (list record)) :
  (r = Percentile.calculate_percentile_scores batch \/ exists e, r = Raise e) ->
  handled (batch, r) = Percentile.calculate_percentile_scores batch.
Proof.
  destruct (calculate_percentile_scores_total batch) as [out Hout].
  intros [->|[e ->]]; unfold handled; cbn [fst snd try_except]; rewrite Hout; reflexivity.
Qed.

(** C8, as amended. For every batch of records, key and behaviour of the
    service and of the parser the function returns a list and raises
    nothing; the empty batch yields the empty list; and when scoring fails
    before the merge the result is the batch passed through the percentile
    engine: every field other than the two the engine writes is as it was,
    so the failure is not recorded on the records. *)
Theorem never_raises (w : world) (batch : list record) (api_key : option string) :
  exists out,
    snd (reanalyze w batch api_key) = Return out /\
    (batch = [] -> out = []) /\
    (scoring_failed w batch api_key ->
     Percentile.calculate_percentile_scores batch = Return out /\
     Forall2 same_fields out batch).
Proof.
  assert (Hpass : forall out, Percentile.calculate_percentile_scores batch = Return out ->
                    Forall2 same_fields out batch).
  { intros out Hout.
    destruct (ReconcileFacts.calculate_percentile_scores_keeps batch) as (out' & Hout' & Hk).
    assert (out' = out) as -> by congruence.
    apply Forall2_flip. exact Hk. }
  assert (Hcps : forall r, r = Percentile.calculate_percentile_scores batch ->
            exists out, r = Return out /\ (batch = [] -> out = []) /\
              (scoring_failed w batch api_key ->
               Percentile.calculate_percentile_scores batch = Return out /\
               Forall2 same_fields out batch)).
  { intros r ->. destruct (calculate_percentile_scores_total batch) as [out Hout].
    exists out. split; [done|]. split; [|auto].
    intros ->. cbn in Hout. congruence. }
  unfold reanalyze_property_batch.
  destruct batch as [|p0 batch0] eqn:Eb.
  { exists []. split; [done|]. split; [done|]. intros _. split; [done|constructor]. }
  rewrite <- Eb in *. assert (Hne : batch <> []) by (by rewrite Eb). clear Eb.
  destruct (no_key api_key) eqn:Ek; [by apply Hcps|].
  destruct (batch_hidx_list py_repr batch) as [|h0 hs] eqn:Eh; [by apply Hcps|].
  destruct (new_client _) as [u|e] eqn:Ec.
  { destruct (call_loop generate_content latency MAX_RETRY 0 (rate_limit_gate w))
      as [w' rt] eqn:Ecall.
    cbn [snd].
    destruct rt as [[|c s]|].
    - apply Hcps. cbn [snd]. by rewrite handled_fallback by auto.
    - unfold process_response.
      destruct (Parse.parse_response json_loads (String c s)) as [[v|]|e] eqn:Ep.
      + destruct (handled_total (reconcile py_repr set_iter batch v)) as [out Hout].
        exists out. split; [exact Hout|]. split; [done|].
        unfold scoring_failed. rewrite Ecall. cbn [snd]. rewrite Ep.
        intros [?|[?|[[e ?]|[?|[e ?]]]]]; congruence.
      + apply Hcps. apply handled_fallback. by left.
      + apply Hcps. apply handled_fallback. eauto.
    - apply Hcps. cbn [snd]. by rewrite handled_fallback by auto. }
  apply Hcps. cbn [snd]. apply handled_fallback. eauto.
Qed.

End orchestrator.

(** C8 as stated fails: without a key the batch comes back with its
    percentile profile and nothing else; no field of the record tells
    that scoring failed. *)
Lemma failure_not_recorded :
  exists r,
    snd (reanalyze_property_batch (fun _ => "") (fun _ => Raise JSONDecodeError)
           (fun _ => Return tt) quota_service (fun _ => 0%Q) elements
           {| now := 100; last_api_call_time_reanalyzer := 0; trace := [] |}
           [scored "1" 80] None)
    = Return [r] /\
    r = [("hidx", VStr "1"); ("total_score", VInt 80);
         ("percentile_scores",
          VDict [("location_percentile", VNum 100);
                 ("building_percentile", VNum 100);
                 ("convenience_percentile", VNum 100);
                 ("price_percentile", VNum 100);
                 ("total_percentile", VNum 100)]);
         ("weighted_percentile_score", VNum 100)] /\
    dict_has "reanalysis_comment" r = false /\
    dict_has "ai_analysis_error" r = false.
Proof. eexists. split; [vm_compute; reflexivity|]. repeat split. Qed.

End OrchestratorFacts.

(** ** The matcher *)

Module ReFacts.
Import Re ReSpec.

Lemma star_sound greedy p k s res :
  star greedy p k s = Some res -> exists s', run_of p s s' /\ k s' = Some res.
Proof.
  induction s as [|c s IH]; destruct greedy; cbn [star].
  - intros H. exists "". split; [constructor|done].
  - destruct (k "") eqn:E; [|discriminate]. intros [= <-]. exists "". split; [constructor|done].
  - destruct (p c) eqn:Ep.
    + destruct (star true p k s) as [m|] eqn:Es.
      * intros [= <-]. destruct (IH eq_refl) as (s' & Hr & Hk).
        exists s'. split; [by constructor|done].
      * intros H. exists (String c s). split; [constructor|done].
    + intros H. exists (String c s). split; [constructor|done].
  - destruct (k (String c s)) eqn:E.
    + intros [= <-]. exists (String c s). split; [constructor|done].
    + destruct (p c) eqn:Ep; [|discriminate].
      intros H. destruct (IH H) as (s' & Hr & Hk).
      exists s'. split; [by constructor|done].
Qed.

(** Whatever the matcher returns comes from a match of the pattern. *)
Lemma run_sound r :
  forall s g k res,
    run r s g k = Some res ->
    exists s' g', matches r s g s' g' /\ k s' g' = Some res.
Proof.
  induction r as [|p|r1 IH1 r2 IH2|greedy p|r IH|r IH]; intros s g k res; cbn [run].
  - intros H. exists s, g. split; [constructor|done].
  - destruct s as [|c s]; [discriminate|]. destruct (p c) eqn:Ep; [|discriminate].
    intros H. exists s, g. split; [by constructor|done].
  - intros H. apply IH1 in H as (s1 & g1 & H1 & H).
    apply IH2 in H as (s2 & g2 & H2 & H).
    exists s2, g2. split; [by econstructor|done].
  - intros H. apply star_sound in H as (s' & Hr & Hk).
    exists s', g. split; [by constructor|done].
  - intros H. apply IH in H as (s' & g1 & H1 & H).
    exists s', (Some (consumed s s')). split; [by econstructor|done].
  - destruct (run r s g _) as [[s1 g1]|] eqn:E; [|discriminate].
    intros H. apply IH in E as (s1' & g1' & H1 & _).
    exists s, g. split; [by econstructor|done].
Qed.

Lemma match_at_sound r s rest g :
  match_at r s = Some (rest, g) -> matches r s None rest g.
Proof.
  unfold match_at. intros H. apply run_sound in H as (s' & g' & Hm & [= -> ->]). done.
Qed.

(** *** Strings *)

Lemma append_cons (x : ascii) (a b : string) : String x a +:+ b = String x (a +:+ b).
Proof. reflexivity. Qed.

Lemma append_assoc (a b c : string) : (a +:+ b) +:+ c = a +:+ (b +:+ c).
Proof. induction a as [|x a IH]; [reflexivity|]. rewrite !append_cons. by rewrite IH. Qed.

Lemma length_append (a b : string) :
  String.length (a +:+ b) = (String.length a + String.length b)%nat.
Proof.
  induction a as [|x a IH]; [reflexivity|].
  rewrite append_cons. cbn [String.length]. by rewrite IH.
Qed.

Lemma consumed_append (u v : string) : consumed (u +:+ v) v = u.
Proof.
  unfold consumed. rewrite length_append.
  replace (String.length u + String.length v - String.length v)%nat
    with (String.length u) by lia.
  induction u as [|x u IH].
  - by destruct v.
  - rewrite append_cons. cbn [String.length substring]. by rewrite IH.
Qed.

Lemma run_of_split p s s' :
  run_of p s s' -> exists u, s = u +:+ s' /\ all_in p u = true.
Proof.
  induction 1 as [s|c s s' Hc _ (u & -> & Hu)].
  - by exists "".
  - exists (String c u). split; [done|]. cbn. by rewrite Hc, Hu.
Qed.

(** A match leaves a suffix of the text. *)
Lemma matches_suffix r s g s' g' :
  matches r s g s' g' -> exists u, s = u +:+ s'.
Proof.
  induction 1 as [s g|p c s g Hc|r1 r2 s s1 s2 g g1 g2 _ [u1 ->] _ [u2 ->]
                 |greedy p s s' g Hr|r s s' g g1 _ IH|r s s1 g g1 _ _].
  - by exists "".
  - by exists (String c "").
  - exists (u1 +:+ u2). by rewrite append_assoc.
  - apply run_of_split in Hr as (u & -> & _). eauto.
  - done.
  - by exists "".
Qed.

Lemma matches_lit t s g s' g' :
  matches (lit t) s g s' g' -> s = t +:+ s' /\ g' = g.
Proof.
  revert s g. induction t as [|c t IH]; intros s g H; cbn [lit] in H.
  - by inversion H.
  - inversion H as [| |r1 r2 s0 s1 s2 g0 g1 g2 H1 H2| | |]; subst.
    inversion H1 as [|p c' s0 g0 Hc| | | |]; subst.
    apply Ascii.eqb_eq in Hc as <-.
    apply IH in H2 as [-> ->]. done.
Qed.

Lemma matches_star greedy p s g s' g' :
  matches (Star greedy p) s g s' g' ->
  exists u, s = u +:+ s' /\ all_in p u = true /\ g' = g.
Proof.
  intros H. inversion H as [| | |gr p0 s0 s0' g0 Hr| |]; subst.
  apply run_of_split in Hr as (u & -> & Hu). eauto.
Qed.

Lemma matches_plus p s g s' g' :
  matches (plus p) s g s' g' ->
  exists u, s = u +:+ s' /\ all_in p u = true /\ u <> "" /\ g' = g.
Proof.
  unfold plus. intros H.
  inversion H as [| |r1 r2 s0 s1 s2 g0 g1 g2 H1 H2| | |]; subst.
  inversion H1 as [|p0 c s0 g0 Hc| | | |]; subst.
  apply matches_star in H2 as (u & -> & Hu & ->).
  exists (String c u). split; [done|]. split; [cbn; by rewrite Hc, Hu|]. done.
Qed.

Lemma matches_seq r1 r2 s g s' g' :
  matches (Seq r1 r2) s g s' g' ->
  exists s1 g1, matches r1 s g s1 g1 /\ matches r2 s1 g1 s' g'.
Proof. intros H. inversion H; subst. eauto. Qed.

Lemma matches_eps s g s' g' : matches Eps s g s' g' -> s = s' /\ g' = g.
Proof. intros H. by inversion H. Qed.

Lemma matches_group r s g s' g' :
  matches (Group r) s g s' g' ->
  g' = Some (consumed s s') /\ exists g1, matches r s g s' g1.
Proof. intros H. inversion H; subst. eauto. Qed.

(** What [search] finds is a match at the place where it says. *)
Lemma search_sound r s f :
  search r s = Some f ->
  exists s1, s = before f +:+ s1 /\
             match_at r s1 = Some (after f, group1 f) /\
             group0 f = consumed s1 (after f).
Proof.
  revert f. induction s as [|c s IH]; intros f; cbn [search].
  - destruct (match_at r "") as [[rest g]|] eqn:E; [|discriminate].
    intros [= <-]. exists "". cbn. eauto.
  - destruct (match_at r (String c s)) as [[rest g]|] eqn:E.
    + intros [= <-]. exists (String c s). cbn. eauto.
    + destruct (search r s) as [f'|]; [|discriminate].
      intros [= <-]. destruct (IH f' eq_refl) as (s1 & -> & Hm & Hg).
      exists s1. cbn. eauto.
Qed.

Lemma finditer_fuel_Forall (P : found -> Prop) r :
  (forall s f, search r s = Some f -> P f) ->
  forall fuel s, Forall P (finditer_fuel fuel r s).
Proof.
  intros HP. induction fuel as [|fuel IH]; intros s; cbn [finditer_fuel]; [constructor|].
  destruct (search r s) as [f|] eqn:E; [|constructor].
  constructor; [by eapply HP|].
  destruct (resume f) as [[? rest]|]; [apply IH|constructor].
Qed.

End ReFacts.

(** ** Tolerant parsing *)

Module ParseFacts.
Import Re ReSpec ReFacts Parse ParseSpec.

Lemma object_pattern_shape s rest g :
  match_at object_pattern s = Some (rest, g) ->
  exists obj id, s = obj +:+ rest /\ g = Some id /\ hidx_object obj id.
Proof.
  intros H. apply match_at_sound in H. unfold object_pattern, seq, spaces in H.
  apply matches_seq in H as (s1 & g1 & H1 & H). apply matches_lit in H1 as [-> ->].
  apply matches_seq in H as (s2 & g2 & H2 & H).
  apply matches_star in H2 as (ws1 & -> & Hws1 & ->).
  apply matches_seq in H as (s3 & g3 & H3 & H). apply matches_lit in H3 as [-> ->].
  apply matches_seq in H as (s4 & g4 & H4 & H).
  apply matches_star in H4 as (ws2 & -> & Hws2 & ->).
  apply matches_seq in H as (s5 & g5 & H5 & H). apply matches_lit in H5 as [-> ->].
  apply matches_seq in H as (s6 & g6 & H6 & H).
  apply matches_star in H6 as (ws3 & -> & Hws3 & ->).
  apply matches_seq in H as (s7 & g7 & H7 & H). apply matches_lit in H7 as [-> ->].
  apply matches_seq in H as (s8 & g8 & H8 & H).
  apply matches_group in H8 as [-> [g8 H8]].
  apply matches_plus in H8 as (id & -> & Hid & Hne & _).
  rewrite consumed_append in H.
  apply matches_seq in H as (s9 & g9 & H9 & H). apply matches_lit in H9 as [-> ->].
  apply matches_seq in H as (s10 & g10 & H10 & H).
  apply matches_star in H10 as (body & -> & Hbody & ->).
  apply matches_seq in H as (s11 & g11 & H11 & H). apply matches_lit in H11 as [-> ->].
  apply matches_eps in H as [-> ->].
  exists ("{" +:+ ws1 +:+ dq "'hidx'" +:+ ws2 +:+ ":" +:+ ws3 +:+ dq "'" +:+ id
              +:+ dq "'" +:+ body +:+ "}"), id.
  split; [|split; [done|]].
  - rewrite !append_assoc. reflexivity.
  - exists ws1, ws2, ws3, body. done.
Qed.

(** Every span the scan finds has this shape, and group 1 is its
    identifier. *)
Lemma finditer_object_shape text :
  Forall (fun m => exists id, group1 m = Some id /\ hidx_object (group0 m) id)
         (finditer object_pattern text).
Proof.
  apply finditer_fuel_Forall. intros s f Hs.
  apply search_sound in Hs as (s1 & -> & Hm & Hg).
  apply object_pattern_shape in Hm as (obj & id & -> & Hid & Hshape).
  exists id. split; [done|]. by rewrite Hg, consumed_append.
Qed.




End ParseFacts.

(** ** More on rounding and on loops that may raise *)

Lemma round_half_even_near q :
  (inject_Z (round_half_even q) - (1 # 2) <= q)%Q /\
  (q <= inject_Z (round_half_even q) + (1 # 2))%Q.
Proof.
  unfold round_half_even.
  pose proof (Qfloor_le q) as Hf. pose proof (Qlt_floor q) as Hl.
  rewrite inject_Z_plus in Hl. change (inject_Z 1) with 1%Q in Hl.
  destruct (Qcompare_spec (q - inject_Z (Qfloor q)) (1 # 2)) as [E|E|E].
  - destruct (Z.even (Qfloor q)).
    + split; lra.
    + rewrite inject_Z_plus. change (inject_Z 1) with 1%Q. split; lra.
  - split; lra.
  - rewrite inject_Z_plus. change (inject_Z 1) with 1%Q. split; lra.
Qed.

Lemma round_half_even_proper q1 q2 :
  (q1 == q2)%Q -> round_half_even q1 = round_half_even q2.
Proof.
  intros E. unfold round_half_even.
  assert (Hf : Qfloor q1 = Qfloor q2) by (by apply Qfloor_comp).
  rewrite Hf.
  assert (Hc : ((q1 - inject_Z (Qfloor q2)) ?= (1 # 2))%Q
               = ((q2 - inject_Z (Qfloor q2)) ?= (1 # 2))%Q).
  { apply Qcompare_comp; [|reflexivity]. by rewrite E. }
  by rewrite Hc.
Qed.

(** Rounding is monotone. *)
Lemma round_half_even_mono q1 q2 :
  (q1 <= q2)%Q -> (round_half_even q1 <= round_half_even q2)%Z.
Proof.
  intros Hle.
  destruct (Z_le_gt_dec (round_half_even q1) (round_half_even q2)) as [|Hgt]; [done|].
  exfalso.
  pose proof (round_half_even_near q1) as [H1 _].
  pose proof (round_half_even_near q2) as [_ H2].
  assert (Hz : (round_half_even q2 + 1 <= round_half_even q1)%Z) by lia.
  rewrite Zle_Qle, inject_Z_plus in Hz. change (inject_Z 1) with 1%Q in Hz.
  assert (E : (q1 == q2)%Q) by lra.
  apply round_half_even_proper in E. lia.
Qed.

Lemma round_half_even_Z (z : Z) : round_half_even (inject_Z z) = z.
Proof.
  destruct (round_half_even_bounds (inject_Z z) z z) as [H1 H2]; [lra|lra|lia].
Qed.

Lemma py_round_mono q1 q2 nd : (q1 <= q2)%Q -> (py_round q1 nd <= py_round q2 nd)%Q.
Proof.
  intros Hle. unfold py_round.
  set (scale := (10 ^ Z.of_nat nd)%Z).
  assert (Hs : (0 < scale)%Z) by (apply Z.pow_pos_nonneg; lia).
  assert (HsQ : (0 <= inject_Z scale)%Q) by (rewrite <- (Zle_Qle 0); lia).
  rewrite !Qred_correct. unfold Qle. cbn [Qnum Qden].
  apply Z.mul_le_mono_nonneg_r; [lia|].
  apply round_half_even_mono. by apply Qmult_le_compat_r.
Qed.

(** A loop over a list raises as soon as its body raises on one item. *)
Lemma mapM_raise {A B} (f : A -> outcome B) (l : list A) x :
  x ∈ l -> (exists e, f x = Raise e) -> exists e, mapM f l = Raise e.
Proof.
  induction l as [|a l IH]; intros Hx Hf; [by apply elem_of_nil in Hx|].
  cbn [mapM]. fold (mapM f l).
  destruct (f a) as [b|e] eqn:Ea; [|by exists e].
  apply elem_of_cons in Hx as [->|Hx].
  { destruct Hf as [e He]. congruence. }
  destruct (IH Hx Hf) as [e ->]. by exists e.
Qed.

(** ** More on dictionaries *)

Lemma dict_set_keys_in {V} k (v : V) d :
  k ∈ map fst d -> map fst (dict_set k v d) = map fst d.
Proof.
  induction d as [|[k' v'] d IH]; intros Hk; [by apply elem_of_nil in Hk|].
  cbn [dict_set]. destruct (String.eqb k k') eqn:E.
  - apply String.eqb_eq in E as ->. reflexivity.
  - apply String.eqb_neq in E. cbn [map fst]. f_equal. apply IH.
    cbn in Hk. apply elem_of_cons in Hk as [?|?]; done.
Qed.

Lemma dict_set_new {V} k (v : V) d : k ∉ map fst d -> dict_set k v d = d ++ [(k, v)].
Proof.
  induction d as [|[k' v'] d IH]; intros Hk; [reflexivity|].
  cbn [dict_set]. destruct (String.eqb k k') eqn:E.
  - apply String.eqb_eq in E as ->. exfalso. apply Hk. left.
  - cbn [app]. f_equal. apply IH. intros ?. apply Hk. by right.
Qed.

Lemma dict_set_NoDup {V} k (v : V) d : NoDup (map fst d) -> NoDup (map fst (dict_set k v d)).
Proof.
  intros Hnd. destruct (decide (k ∈ map fst d)) as [Hk|Hk].
  - by rewrite dict_set_keys_in.
  - rewrite dict_set_new, map_app by done. cbn.
    apply NoDup_app. split; [done|]. split; [|apply NoDup_singleton].
    intros x Hx Hx'. apply list_elem_of_singleton in Hx' as ->. done.
Qed.

Lemma dict_set_Forall {V} (P : string * V -> Prop) k v d :
  Forall P d -> P (k, v) -> Forall P (dict_set k v d).
Proof.
  intros Hd Hv. induction Hd as [|[k' v'] d Hkv Hd IH]; cbn [dict_set].
  - constructor; [done|constructor].
  - destruct (String.eqb k k'); constructor; done.
Qed.

Lemma dict_update_snoc {V} (acc l : list (string * V)) k v :
  dict_update acc (l ++ [(k, v)]) = dict_set k v (dict_update acc l).
Proof. unfold dict_update. by rewrite fold_left_app. Qed.

Lemma dict_update_app {V} (acc l1 l2 : list (string * V)) :
  dict_update acc (l1 ++ l2) = dict_update (dict_update acc l1) l2.
Proof. unfold dict_update. by rewrite fold_left_app. Qed.

Lemma dict_update_NoDup {V} (acc l : list (string * V)) :
  NoDup (map fst acc) -> NoDup (map fst (dict_update acc l)).
Proof.
  revert acc. induction l as [|[k v] l IH]; intros acc Hacc; [done|].
  cbn. apply IH. by apply dict_set_NoDup.
Qed.

Lemma dict_update_Forall {V} (P : string * V -> Prop) (acc l : list (string * V)) :
  Forall P acc -> Forall P l -> Forall P (dict_update acc l).
Proof.
  intros Hacc Hl. revert acc Hacc. induction Hl as [|[k v] l Hkv _ IH]; intros acc Hacc; [done|].
  cbn. apply IH. by apply dict_set_Forall.
Qed.

(** A list of pairs with distinct keys is the dict it builds. *)
Lemma dict_update_distinct {V} (acc l : list (string * V)) :
  NoDup (map fst (acc ++ l)) -> dict_update acc l = acc ++ l.
Proof.
  revert acc. induction l as [|[k v] l IH]; intros acc Hnd; [by rewrite app_nil_r|].
  cbn [dict_update fold_left fst snd]. fold (dict_update (dict_set k v acc) l).
  assert (Hk : k ∉ map fst acc).
  { rewrite map_app in Hnd. apply NoDup_app in Hnd as (_ & Hd & _).
    intros Hin. apply (Hd k Hin). cbn. left. }
  rewrite (dict_set_new k v acc Hk). rewrite IH.
  - by rewrite <- app_assoc.
  - by rewrite <- app_assoc.
Qed.

Lemma dict_get_update {V} k (acc l : list (string * V)) :
  dict_get k (dict_update acc l)
  = match dict_get k (rev l) with Some v => Some v | None => dict_get k acc end.
Proof.
  induction l as [|[k' v'] l IH] using rev_ind; [reflexivity|].
  rewrite dict_update_snoc, rev_app_distr. cbn [rev app dict_get].
  destruct (String.eqb k k') eqn:E.
  - apply String.eqb_eq in E as ->. apply dict_get_set_eq.
  - apply String.eqb_neq in E. rewrite dict_get_set_ne by done. exact IH.
Qed.

Lemma dict_set_set {V} k (v v0 : V) d : dict_set k v (dict_set k v0 d) = dict_set k v d.
Proof.
  induction d as [|[k' v'] d IH]; cbn [dict_set].
  - by rewrite String.eqb_refl.
  - destruct (String.eqb k k') eqn:E; cbn [dict_set]; rewrite ?String.eqb_refl, ?E; [done|].
    by rewrite IH.
Qed.

Lemma dict_set_comm {V} k k' (v v' : V) d :
  k <> k' -> k ∈ map fst d ->
  dict_set k' v' (dict_set k v d) = dict_set k v (dict_set k' v' d).
Proof.
  intros Hne. induction d as [|[k0 v0] d IH]; intros Hk; [by apply elem_of_nil in Hk|].
  cbn [dict_set].
  destruct (String.eqb k k0) eqn:E; destruct (String.eqb k' k0) eqn:E'.
  - apply String.eqb_eq in E, E'. congruence.
  - cbn [dict_set]. apply String.eqb_eq in E as ->.
    assert (String.eqb k' k0 = false) as -> by (by apply String.eqb_neq, String.eqb_neq).
    by rewrite String.eqb_refl.
  - cbn [dict_set]. apply String.eqb_eq in E' as ->. rewrite String.eqb_refl.
    by rewrite E.
  - cbn [dict_set]. rewrite E, E'. f_equal. apply IH.
    cbn in Hk. apply elem_of_cons in Hk as [->|?]; [|done].
    by rewrite String.eqb_refl in E.
Qed.

Lemma dict_set_keys_has {V} k k' (v' : V) d : k ∈ map fst d -> k ∈ map fst (dict_set k' v' d).
Proof.
  intros Hk. destruct (decide (k' ∈ map fst d)) as [H|H].
  - by rewrite dict_set_keys_in.
  - rewrite dict_set_new, map_app by done. apply elem_of_app. by left.
Qed.

(** ** More on strings *)

Section strings.
Import ReSpec ReFacts.

Lemma all_in_impl (p q : ascii -> bool) s :
  (forall c, p c = true -> q c = true) -> all_in p s = true -> all_in q s = true.
Proof.
  intros Hpq. induction s as [|c s IH]; [done|]. cbn [all_in].
  rewrite !andb_true_iff. intros [? ?]. split; [by apply Hpq | by apply IH].
Qed.

Lemma all_in_append p a b : all_in p (a +:+ b) = all_in p a && all_in p b.
Proof.
  induction a as [|c a IH]; [reflexivity|].
  rewrite append_cons. cbn [all_in]. by rewrite IH, andb_assoc.
Qed.

Lemma list_ascii_of_string_append a b :
  list_ascii_of_string (a +:+ b) = (list_ascii_of_string a ++ list_ascii_of_string b)%list.
Proof. induction a as [|c a IH]; [reflexivity|]. rewrite append_cons. cbn. by rewrite IH. Qed.

Lemma string_of_list_ascii_app l k :
  string_of_list_ascii (l ++ k) = string_of_list_ascii l +:+ string_of_list_ascii k.
Proof. induction l as [|c l IH]; [reflexivity|]. cbn. rewrite append_cons. by rewrite IH. Qed.

Lemma string_rev_append a b : string_rev (a +:+ b) = string_rev b +:+ string_rev a.
Proof.
  unfold string_rev. by rewrite list_ascii_of_string_append, rev_app_distr, string_of_list_ascii_app.
Qed.

Lemma string_rev_involutive s : string_rev (string_rev s) = s.
Proof.
  unfold string_rev.
  by rewrite list_ascii_of_string_of_list_ascii, rev_involutive, string_of_list_ascii_of_string.
Qed.

Lemma string_rev_cons c s : string_rev (String c s) = string_rev s +:+ String c "".
Proof. change (String c s) with (String c "" +:+ s). by rewrite string_rev_append. Qed.

Lemma all_in_string_rev p s : all_in p (string_rev s) = all_in p s.
Proof.
  induction s as [|c s IH]; [reflexivity|].
  rewrite string_rev_cons, all_in_append, IH. cbn [all_in].
  by rewrite andb_true_r, andb_comm.
Qed.

Lemma lstrip_split s : exists ws, s = ws +:+ lstrip s /\ all_in is_space ws = true.
Proof.
  induction s as [|c s (ws & Hs & Hws)]; [by exists ""|].
  cbn [lstrip]. destruct (is_space c) eqn:Ec.
  - exists (String c ws). rewrite append_cons, <- Hs. split; [done|]. cbn. by rewrite Ec.
  - by exists "".
Qed.

Lemma lstrip_head s c r : lstrip s = String c r -> is_space c = false.
Proof.
  induction s as [|c' s IH]; [discriminate|]. cbn [lstrip].
  destruct (is_space c') eqn:Ec; [exact IH|]. by intros [= -> ->].
Qed.

Lemma lstrip_fixed c r : is_space c = false -> lstrip (String c r) = String c r.
Proof. intros H. cbn. by rewrite H. Qed.

(** A text is its stripped part between two runs of white space; the
    stripped part, when it is not empty, begins and ends with a character
    that is no white space. *)
Lemma strip_split s :
  exists ws1 ws2,
    s = ws1 +:+ strip s +:+ ws2 /\
    all_in is_space ws1 = true /\ all_in is_space ws2 = true /\
    (strip s <> "" ->
     strip (strip s) = strip s /\
     exists c0 b1 b0 cl,
       strip s = String c0 b1 /\ is_space c0 = false /\
       strip s = b0 +:+ String cl "" /\ is_space cl = false).
Proof.
  unfold strip.
  destruct (lstrip_split s) as (ws1 & Hs & Hws1).
  set (L := lstrip s) in *.
  destruct (lstrip_split (string_rev L)) as (ws2r & HL & Hws2).
  set (M := lstrip (string_rev L)) in *.
  assert (HLM : L = string_rev M +:+ string_rev ws2r).
  { rewrite <- string_rev_append, <- HL. by rewrite string_rev_involutive. }
  exists ws1, (string_rev ws2r). split; [by rewrite <- HLM|].
  split; [done|]. split; [by rewrite all_in_string_rev|].
  intros Hne.
  destruct M as [|cl M'] eqn:EM; [done|].
  assert (Hcl : is_space cl = false) by (eapply lstrip_head; exact EM).
  destruct (string_rev (String cl M')) as [|c0 b1] eqn:Eb; [done|].
  assert (Hc0 : is_space c0 = false).
  { apply (lstrip_head s c0 (b1 +:+ string_rev ws2r)). fold L. by rewrite HLM. }
  split.
  - rewrite (lstrip_fixed c0 b1 Hc0). rewrite <- Eb, string_rev_involutive.
    by rewrite (lstrip_fixed cl M' Hcl).
  - exists c0, b1, (string_rev M'), cl. split; [done|]. split; [done|].
    split; [|done]. by rewrite <- Eb, string_rev_cons.
Qed.

End strings.

(** ** More on loops *)

Lemma mapM_Return_Forall2 {A B} (f : A -> outcome B) (l : list A) (out : list B) :
  mapM f l = Return out -> Forall2 (fun x y => f x = Return y) l out.
Proof.
  revert out. induction l as [|x l IH]; intros out.
  - intros [= <-]. constructor.
  - cbn [mapM]. fold (mapM f l).
    destruct (f x) as [y|] eqn:E; [|discriminate]. cbn [mbind outcome_bind].
    destruct (mapM f l) as [ys|]; [|discriminate]. cbn [mbind outcome_bind mret outcome_ret].
    intros [= <-]. constructor; [done|by apply IH].
Qed.

Lemma mapM_returns {A B} (f : A -> outcome B) (l : list A) :
  Forall (fun x => exists y, f x = Return y) l -> exists out, mapM f l = Return out.
Proof.
  induction 1 as [|x l [y Hy] _ [out IH]]; [by exists []|].
  cbn [mapM]. fold (mapM f l). rewrite Hy, IH. cbn. eauto.
Qed.

(** Membership in a list that is written out. *)
Ltac in_list := repeat (apply list_elem_of_here || apply list_elem_of_further).

(** ** The percentile engine: ranks *)

Module PercentileOrder.
Import Percentile PercentileSpec PercentileOrderSpec PercentileFacts.

Lemma lower_count_none (l : list Z) x :
  Forall (fun y => (x <= y)%Z) l -> lower_count l x = 0%nat.
Proof.
  unfold lower_count. induction 1 as [|y l Hy _ IH]; [done|].
  rewrite filter_cons_False by lia. exact IH.
Qed.

Lemma lower_count_all (l : list Z) x :
  Forall (fun y => (y < x)%Z) l -> lower_count l x = length l.
Proof.
  unfold lower_count. induction 1 as [|y l Hy _ IH]; [done|].
  rewrite filter_cons_True by done. cbn [length]. by f_equal.
Qed.

Lemma first_index_sorted (l : list Z) x :
  Sorted Z.le l -> x ∈ l -> first_index x l = lower_count l x.
Proof.
  intros Hs. apply Sorted_StronglySorted in Hs; [|intros ???; lia].
  induction Hs as [|y l Hs IH Hall]; intros Hx; [by apply elem_of_nil in Hx|].
  cbn [first_index].
  destruct (x =? y)%Z eqn:E.
  - apply Z.eqb_eq in E as ->. symmetry. apply lower_count_none.
    constructor; [lia|done].
  - apply Z.eqb_neq in E. apply elem_of_cons in Hx as [->|Hx]; [done|].
    rewrite Forall_forall in Hall. specialize (Hall x Hx).
    unfold lower_count. rewrite filter_cons_True by lia. cbn [length].
    f_equal. by apply IH.
Qed.

Lemma lower_count_perm (l k : list Z) x : l ≡ₚ k -> lower_count l x = lower_count k x.
Proof. intros H. unfold lower_count. by rewrite H. Qed.

Lemma lower_count_mono (l : list Z) x y :
  (x <= y)%Z -> (lower_count l x <= lower_count l y)%nat.
Proof.
  intros Hxy. unfold lower_count. induction l as [|z l IH]; [done|].
  destruct (decide (z < x)%Z).
  - rewrite !filter_cons_True by lia. cbn. lia.
  - rewrite (filter_cons_False (fun x0 => (x0 < x)%Z)) by done.
    destruct (decide (z < y)%Z).
    + rewrite filter_cons_True by done. cbn. lia.
    + by rewrite filter_cons_False.
Qed.

Lemma lower_count_lt (l : list Z) x : x ∈ l -> (lower_count l x < length l)%nat.
Proof. intros Hx. unfold lower_count. apply (length_filter_lt _ _ x); [done|lia]. Qed.

(** The percentile of a score: one more than the number of scores strictly
    below it, over the number of scores. *)
Lemma spec_percentile_lower_count scores s :
  s ∈ scores ->
  spec_percentile scores s = rank_percentile (lower_count scores s + 1) (length scores).
Proof.
  intros Hs. unfold spec_percentile, rank_percentile.
  assert (Hperm : merge_sort Z.le scores ≡ₚ scores) by apply merge_sort_Permutation.
  rewrite first_index_sorted.
  - by rewrite (lower_count_perm _ _ _ Hperm).
  - apply Sorted_merge_sort. apply _.
  - by rewrite Hperm.
Qed.

Lemma rank_percentile_mono r1 r2 n :
  (r1 <= r2)%nat -> (rank_percentile r1 n <= rank_percentile r2 n)%Q.
Proof.
  intros Hr. unfold rank_percentile. apply py_round_mono.
  apply Qmult_le_compat_r; [|done].
  unfold Qdiv. apply Qmult_le_compat_r.
  - rewrite <- Zle_Qle. lia.
  - destruct n; [done|]. apply Qlt_le_weak, Qinv_lt_0_compat.
    rewrite <- (Zlt_Qlt 0). lia.
Qed.

Lemma rank_percentile_full n : (0 < n)%nat -> rank_percentile n n = 100%Q.
Proof.
  intros Hn. unfold rank_percentile, py_round.
  assert (E : (inject_Z (Z.of_nat n) / inject_Z (Z.of_nat n) * 100
               * inject_Z (10 ^ Z.of_nat 1) == inject_Z 1000)%Q).
  { change (inject_Z (10 ^ Z.of_nat 1)) with 10%Q. change (inject_Z 1000) with 1000%Q.
    assert (~ (inject_Z (Z.of_nat n) == 0)%Q).
    { change 0%Q with (inject_Z 0). rewrite inject_Z_injective. lia. }
    field. done. }
  rewrite (round_half_even_proper _ _ E). reflexivity.
Qed.







End PercentileOrder.

(** ** The percentile engine: what it keeps *)

Module PercentileStable.
Import Percentile PercentileSpec PercentileFacts ReconcileSpec.

Lemma dict_set_same {V} k (v : V) d : dict_get k d = Some v -> dict_set k v d = d.
Proof.
  induction d as [|[k' v'] d IH]; cbn; [discriminate|].
  destruct (String.eqb k k') eqn:E.
  - apply String.eqb_eq in E as ->. by intros [= ->].
  - intros H. by rewrite IH.
Qed.

Lemma annotated_twice sl i prop : annotated sl i (annotated sl i prop) = annotated sl i prop.
Proof.
  unfold annotated at 1.
  rewrite (dict_set_same "percentile_scores").
  2:{ unfold annotated. rewrite dict_get_set_ne by discriminate. apply dict_get_set_eq. }
  apply dict_set_same. unfold annotated. apply dict_get_set_eq.
Qed.

Lemma column_score_annotated sl i prop c :
  column_score c (annotated sl i prop) = column_score c prop.
Proof.
  unfold column_score, dict_get_default.
  destruct c; cbn [category_key];
    rewrite ReconcileFacts.dict_get_annotated by discriminate; reflexivity.
Qed.

Lemma try_body_ext cs p q sl :
  (forall c, column_score c p = column_score c q) -> try_body cs p sl = try_body cs q sl.
Proof.
  intros H. revert sl. induction cs as [|c cs IH]; intros sl; [done|].
  cbn [try_body]. rewrite (H c). destruct (column_score c q); [apply IH|done].
Qed.

Lemma collect_scores_ext l k :
  Forall2 (fun p q => forall c, column_score c p = column_score c q) l k ->
  collect_scores l = collect_scores k.
Proof.
  unfold collect_scores. generalize no_scores.
  intros sl H. revert sl. induction H as [|p q l k Hpq _ IH]; intros sl; [done|].
  cbn [fold_left]. unfold collect_one at 2 4. rewrite (try_body_ext _ p q sl Hpq). apply IH.
Qed.

Lemma collect_scores_annotated sl props :
  collect_scores (imap (annotated sl) props) = collect_scores props.
Proof.
  apply collect_scores_ext. apply Forall2_same_length_lookup_2; [by rewrite length_imap|].
  intros i p q Hp Hq c. rewrite list_lookup_imap, Hq in Hp. injection Hp as <-.
  apply column_score_annotated.
Qed.

(** X4. Running the percentile engine on its own
    result changes nothing: the scores it reads are not the fields it
    writes, and it writes the same values again. *)
Theorem percentile_engine_idempotent (props out : list record) :
  calculate_percentile_scores props = Return out ->
  calculate_percentile_scores out = Return out.
Proof.
  destruct props as [|p0 props0] eqn:E; [by intros [= <-]|]. rewrite <- E.
  assert (Hne : props <> []) by (by rewrite E).
  rewrite (calculate_percentile_scores_spec props Hne). intros [= <-].
  rewrite calculate_percentile_scores_spec.
  2:{ rewrite E. discriminate. }
  apply (f_equal Return). rewrite collect_scores_annotated.
  apply list_eq. intros i. rewrite !list_lookup_imap.
  destruct (props !! i) as [p|]; [|done]. cbn. f_equal. apply annotated_twice.
Qed.

Lemma percentile_engine_idempotent_witness :
  exists out,
    calculate_percentile_scores [rec_total 70; rec_total 90] = Return out /\
    calculate_percentile_scores out = Return out.
Proof.
  eexists. split; [vm_compute; reflexivity|].
  apply (percentile_engine_idempotent [rec_total 70; rec_total 90]).
  vm_compute. reflexivity.
Defined.

(** X5. Whatever the records hold, the
    percentile engine raises nothing and returns as many records as it got,
    in the same order; each carries the two fields the engine writes and
    has every other field as it was. *)
Theorem percentile_engine_keeps_records (props : list record) :
  exists out,
    calculate_percentile_scores props = Return out /\
    length out = length props /\
    forall i prop, props !! i = Some prop ->
      exists r, out !! i = Some r /\ same_fields r prop /\
                dict_has "percentile_scores" r = true /\
                dict_has "weighted_percentile_score" r = true.
Proof.
  destruct props as [|p0 props0] eqn:E.
  { exists []. split; [done|]. split; [done|]. intros i prop Hi. by rewrite lookup_nil in Hi. }
  rewrite <- E. assert (Hne : props <> []) by (by rewrite E).
  eexists. split; [by apply calculate_percentile_scores_spec|].
  split; [by rewrite length_imap|].
  intros i prop Hi. eexists. split; [by rewrite list_lookup_imap, Hi|].
  split; [|split].
  - intros k H1 H2. by apply ReconcileFacts.dict_get_annotated.
  - unfold annotated. by rewrite dict_has_set, dict_has_set, String.eqb_refl, orb_true_r.
  - unfold annotated. by rewrite dict_has_set, String.eqb_refl.
Qed.

End PercentileStable.

(** ** The convergence combine: range, agreement, failure *)

Module ConvergenceMore.
Import Convergence ConvergenceSpec ConvergenceMoreSpec ConvergenceFacts.

Lemma Qsum_app l k : (Qsum (l ++ k) == Qsum l + Qsum k)%Q.
Proof. unfold Qsum. induction l as [|x l IH]; cbn; [ring|]. rewrite IH. ring. Qed.

(** A weighted average with positive weights lies between the bounds of
    its terms. *)
Lemma np_average_bounds (l : list (Q * Q)) (lo hi : Q) :
  l <> [] ->
  Forall (fun xw => (lo <= fst xw)%Q /\ (fst xw <= hi)%Q /\ (0 < snd xw)%Q) l ->
  (lo <= np_average (map fst l) (map snd l))%Q /\
  (np_average (map fst l) (map snd l) <= hi)%Q.
Proof.
  intros Hne Hall. unfold np_average.
  assert (H : (0 < Qsum (map snd l))%Q /\
              (lo * Qsum (map snd l) <= Qsum (zip_with Qmult (map fst l) (map snd l)))%Q /\
              (Qsum (zip_with Qmult (map fst l) (map snd l)) <= hi * Qsum (map snd l))%Q).
  { destruct l as [|[x0 w0] l]; [done|]. clear Hne.
    revert x0 w0 Hall. induction l as [|[x1 w1] l IH]; intros x0 w0 Hall.
    - apply Forall_cons in Hall as [(H1 & H2 & H3) _]. cbn in *.
      unfold Qsum. cbn. split; [lra|]. split; nra.
    - apply Forall_cons in Hall as [(H1 & H2 & H3) Hall]. cbn [fst snd] in *.
      destruct (IH x1 w1 Hall) as (S0 & S1 & S2).
      cbn [map zip_with fst snd] in *. unfold Qsum in *. cbn [fold_right] in *.
      split; [lra|]. split; nra. }
  destruct H as (S0 & S1 & S2). split.
  - apply Qle_shift_div_l; [done|exact S1].
  - apply Qle_shift_div_r; [done|exact S2].
Qed.

Lemma np_var_constant (a : list Q) (q : Q) :
  a <> [] -> Forall (fun x => (x == q)%Q) a -> (np_var a == 0)%Q.
Proof.
  intros Hne Hall. unfold np_var.
  set (n := inject_Z (Z.of_nat (length a))).
  assert (Hn : (0 < n)%Q).
  { unfold n. rewrite <- (Zlt_Qlt 0). destruct a; [done|cbn; lia]. }
  assert (Hsum : (Qsum a == q * n)%Q).
  { unfold n. clear Hne Hn. induction Hall as [|x a Hx _ IH].
    - cbn. ring.
    - cbn [length]. rewrite Nat2Z.inj_succ. unfold Z.succ. rewrite inject_Z_plus.
      unfold Qsum in *. cbn [fold_right]. rewrite IH, Hx. change (inject_Z 1) with 1%Q. ring. }
  assert (Hmean : (Qsum a / n == q)%Q).
  { rewrite Hsum. field. lra. }
  assert (Hz : forall m : Q, (m == q)%Q ->
                 (Qsum (map (fun x : Q => (x - m) * (x - m))%Q a) == 0)%Q).
  { intros m Hm. clear Hsum Hne Hmean Hn. clear n. induction Hall as [|x a' Hx _ IH]; [reflexivity|].
    cbn [map]. unfold Qsum in *. cbn [fold_right]. rewrite IH, Hx, Hm. ring. }
  rewrite (Hz _ Hmean). field. lra.
Qed.

Section grouping.
Variable py_repr : value -> string.

Abbreviation identifier := (ConvergenceSpec.identifier py_repr).
Abbreviation samples := (ConvergenceSpec.samples py_repr).
Abbreviation identifiers := (ConvergenceSpec.identifiers py_repr).
Abbreviation group_of := (ConvergenceSpec.group_of py_repr).

Lemma tagged_elem rounds rp :
  rp ∈ tagged rounds ->
  (1 <= fst rp <= length rounds)%nat /\
  exists round, round ∈ rounds /\ snd rp ∈ round.
Proof.
  unfold tagged. destruct rp as [k p]. intros Hin.
  apply list_elem_of_In, in_concat in Hin as (round & Hround & Hp).
  apply list_elem_of_In in Hround, Hp.
  apply elem_of_lookup_imap in Hround as (i & rd & -> & Hrd).
  apply list_elem_of_fmap in Hp as (p' & [= -> ->] & Hp').
  cbn [fst snd]. split.
  - apply lookup_lt_Some in Hrd. lia.
  - exists rd. split; [by eapply list_elem_of_lookup_2 | done].
Qed.

Lemma elem_tagged rounds round prop :
  round ∈ rounds -> prop ∈ round -> exists k, (k, prop) ∈ tagged rounds.
Proof.
  intros Hr Hp. apply list_elem_of_lookup_1 in Hr as [i Hi].
  exists (i + 1)%nat. unfold tagged. apply list_elem_of_In, in_concat.
  exists (map (fun prop => ((i + 1)%nat, prop)) round). split; apply list_elem_of_In.
  - apply elem_of_lookup_imap. eauto.
  - by apply (list_elem_of_fmap_2 (fun prop => ((i + 1)%nat, prop))).
Qed.

(** The record the combine step builds from the samples of an identifier. *)
Lemma combine_group_record n l h :
  h ∈ map (fun rp : nat * record => identifier (snd rp)) l ->
  Forall (fun rp : nat * record => is_numeric (raw_score (snd rp)) = true) l ->
  let ss := filter (fun rp : nat * record => identifier (snd rp) = h) l in
  let xs := map (fun rp : nat * record => num (raw_score (snd rp))) ss in
  let ws := map (fun rp : nat * record => round_weight n (fst rp)) ss in
  exists r k latest variance comment,
    combine (group_of n l h) = Return (Some r) /\
    last ss = Some (k, latest) /\
    r = dict_set "reanalysis_comment" comment
          (dict_set "is_converged"
             (VBool (Qle_bool (if (1 <? length ss)%nat then np_var xs else 0%Q)
                              CONVERGENCE_THRESHOLD))
             (dict_set "score_rounds" (VList (map (fun rp => raw_score (snd rp)) ss))
                (dict_set "score_variance" variance
                   (dict_set "total_score" (VInt (round_half_even (np_average xs ws)))
                      latest)))).
Proof.
  intros Hh Hnum ss xs ws. unfold combine, group_of. cbn [scores weights properties].
  fold ss.
  assert (Hss : ss <> []) by (by apply samples_present).
  destruct (last_nonempty ss Hss) as [[k latest] Hlast].
  assert (Hl : last (map snd ss) = Some latest).
  { change (map snd ss) with (snd <$> ss). by rewrite fmap_last, Hlast. }
  rewrite Hl.
  rewrite (mapM_map_Return _ num).
  2:{ intros v Hv. apply list_elem_of_fmap in Hv as (rp & -> & Hrp).
      apply numeric_num. apply list_elem_of_filter in Hrp as [_ Hrp].
      rewrite Forall_forall in Hnum. by apply Hnum. }
  cbn [mbind outcome_bind].
  rewrite <- !list_fmap_compose. unfold compose. change (map ?f ?x) with (f <$> x).
  rewrite !length_fmap.
  eexists _, k, latest, _, _. split; [reflexivity|]. split; [exact Hlast|]. reflexivity.
Qed.

(** One record per identifier, built by the combine step from the samples
    of that identifier. *)
Lemma combined_records rounds :
  rounds <> [] ->
  Forall (Forall (fun prop => is_numeric (raw_score prop) = true)) rounds ->
  exists out,
    calculate_weighted_average_scores py_repr rounds = Return out /\
    Forall2 (fun h r =>
               h ∈ map (fun rp : nat * record => identifier (snd rp)) (tagged rounds) /\
               combine (group_of (length rounds) (tagged rounds) h) = Return (Some r))
            (identifiers rounds) out.
Proof.
  intros Hne Hnum. unfold calculate_weighted_average_scores.
  destruct rounds as [|r0 rounds0] eqn:E; [done|]. rewrite <- E in *. clear Hne.
  rewrite group_results_tagged, fold_step_tabulate.
  set (l := tagged rounds).
  assert (Hnum' : Forall (fun rp : nat * record => is_numeric (raw_score (snd rp)) = true) l).
  { apply Forall_forall. intros rp Hin.
    destruct (tagged_elem rounds rp Hin) as (_ & round & Hround & Hp).
    rewrite Forall_forall in Hnum. specialize (Hnum round Hround).
    rewrite Forall_forall in Hnum. by apply Hnum. }
  destruct (mapM_omap (fun kv : string * group => combine (snd kv))
              (fun kv r => fst kv ∈ map (fun rp : nat * record => identifier (snd rp)) l /\
                           combine (group_of (length rounds) l (fst kv)) = Return (Some r))
              (tabulate (group_of (length rounds) l)
                 (first_occurrences (map (fun rp => identifier (snd rp)) l))))
    as (out & Hout & Hall).
  { intros [h g] Hin. unfold tabulate in Hin.
    apply list_elem_of_fmap in Hin as (h' & [= -> ->] & Hh').
    apply (proj1 (elem_of_first_occurrences _ _)) in Hh'. cbn [fst snd].
    destruct (combine_group_record (length rounds) l h' Hh' Hnum')
      as (r & k & latest & v & c & Hr & _). exists r. by rewrite Hr. }
  exists out. split; [exact Hout|].
  unfold identifiers. fold l. unfold tabulate in Hall.
  change (map ?f ?x) with (f <$> x) in Hall.
  apply (proj1 (Forall2_fmap_l _ _ _ _)) in Hall. exact Hall.
Qed.

Lemma combined_records_explicit rounds :
  rounds <> [] ->
  Forall (Forall (fun prop => is_numeric (raw_score prop) = true)) rounds ->
  exists out,
    calculate_weighted_average_scores py_repr rounds = Return out /\
    Forall2 (fun h r =>
      let ss := samples h rounds in
      let xs := map (fun rp : nat * record => num (raw_score (snd rp))) ss in
      let ws := map (fun rp : nat * record => round_weight (length rounds) (fst rp)) ss in
      exists k latest variance comment,
        last ss = Some (k, latest) /\
        r = dict_set "reanalysis_comment" comment
              (dict_set "is_converged"
                 (VBool (Qle_bool (if (1 <? length ss)%nat then np_var xs else 0%Q)
                                  CONVERGENCE_THRESHOLD))
                 (dict_set "score_rounds" (VList (map (fun rp => raw_score (snd rp)) ss))
                    (dict_set "score_variance" variance
                       (dict_set "total_score" (VInt (round_half_even (np_average xs ws)))
                          latest)))))
      (identifiers rounds) out.
Proof.
  intros Hne Hnum.
  destruct (combined_records rounds Hne Hnum) as (out & Hout & Hall).
  exists out. split; [done|].
  eapply Forall2_impl; [exact Hall|]. cbn beta. intros h r [Hh Hr].
  assert (Hnum' : Forall (fun rp : nat * record => is_numeric (raw_score (snd rp)) = true)
                         (tagged rounds)).
  { apply Forall_forall. intros rp Hin.
    destruct (tagged_elem rounds rp Hin) as (_ & round & Hround & Hp).
    rewrite Forall_forall in Hnum. specialize (Hnum round Hround).
    rewrite Forall_forall in Hnum. by apply Hnum. }
  destruct (combine_group_record (length rounds) (tagged rounds) h Hh Hnum')
    as (r' & k & latest & v & c & Hr' & Hlast & Heq).
  assert (r' = r) as -> by congruence.
  exists k, latest, v, c. split; [exact Hlast | exact Heq].
Qed.






(** X9. A single record whose [total_score] is no
    finite number (a string, [None], a container, an infinity or a NaN), in
    any round, makes the whole combine step raise: no result is returned. *)
Theorem non_numeric_score_raises (rounds : list (list record)) round prop :
  round ∈ rounds -> prop ∈ round -> is_numeric (raw_score prop) = false ->
  exists e, calculate_weighted_average_scores py_repr rounds = Raise e.
Proof.
  intros Hround Hprop Hbad. unfold calculate_weighted_average_scores.
  destruct rounds as [|r0 rounds0] eqn:E; [by apply elem_of_nil in Hround|].
  rewrite <- E in *.
  rewrite group_results_tagged, fold_step_tabulate.
  set (l := tagged rounds). set (n := length rounds).
  destruct (elem_tagged rounds round prop Hround Hprop) as [k Hk]. fold l in Hk.
  set (h := identifier prop).
  destruct (mapM_raise (fun kv : string * group => combine (snd kv))
              (tabulate (group_of n l)
                 (first_occurrences (map (fun rp => identifier (snd rp)) l)))
              (h, group_of n l h)) as [e He].
  - unfold tabulate. apply (list_elem_of_fmap_2 (fun k => (k, group_of n l k))).
    apply elem_of_first_occurrences.
    by apply (list_elem_of_fmap_2 (fun rp : nat * record => identifier (snd rp)) _ (k, prop)).
  - cbn [snd]. unfold combine, ConvergenceSpec.group_of. cbn [scores weights properties].
    set (ss := filter (fun rp : nat * record => identifier (snd rp) = h) l).
    assert (Hin : (k, prop) ∈ ss) by (by apply list_elem_of_filter).
    destruct (last_nonempty (map snd ss)) as [latest ->].
    { destruct ss; [by apply elem_of_nil in Hin | discriminate]. }
    destruct (mapM_raise numeric (map (fun rp : nat * record => raw_score (snd rp)) ss)
                (raw_score prop)) as [e ->].
    + by apply (list_elem_of_fmap_2 (fun rp : nat * record => raw_score (snd rp)) _ (k, prop)).
    + unfold is_numeric in Hbad. destruct (numeric (raw_score prop)); [done|eauto].
    + by exists e.
  - exists e. by rewrite He.
Qed.

End grouping.




Lemma non_numeric_score_raises_witness :
  exists e,
    calculate_weighted_average_scores (fun _ => "")
      [[scored "A" 80]; [scored_text "B" "85"]] = Raise e.
Proof.
  apply (non_numeric_score_raises (fun _ => "")
           [[scored "A" 80]; [scored_text "B" "85"]]
           [scored_text "B" "85"] (scored_text "B" "85")).
  - right. left.
  - left.
  - reflexivity.
Defined.

End ConvergenceMore.

(** ** Reconciliation: order and interruption *)

Module ReconcileOrder.
Import Reanalyzer ReconcileSpec ReconcileOrderSpec ConvergenceSpec ReconcileFacts.

Section facts.
Variable py_repr : value -> string.
Variable set_iter : gset string -> list string.
Variable batch : list record.

Abbreviation ibm := (initial_batch_map py_repr batch).
Abbreviation expected_ids := (batch_hidx_set py_repr batch).
Abbreviation merge_item := (merge_item py_repr batch).
Abbreviation merge_items := (merge_items py_repr batch).
Abbreviation item_hidx := (item_hidx py_repr).
Abbreviation answered := (ReconcileOrderSpec.answered py_repr batch).
Abbreviation item_id := (ReconcileOrderSpec.item_id py_repr).
Abbreviation in_order := (ReconcileOrderSpec.in_order py_repr batch).

Lemma item_hidx_id item h : item_hidx item = Return h <-> item_id item = Some h.
Proof. destruct item; cbn; split; congruence. Qed.

Lemma answered_snoc done item :
  answered (done ++ [item])
  = match item_id item with
    | Some h =>
        if bool_decide (h ∈ expected_ids /\ h ∉ answered done)
        then answered done ++ [h] else answered done
    | None => answered done
    end.
Proof.
  unfold ReconcileOrderSpec.answered. rewrite omap_app, filter_app.
  assert (Hone : omap item_id [item]
                 = match item_id item with Some h => [h] | None => [] end).
  { cbn. by destruct (item_id item). }
  rewrite Hone. clear Hone.
  destruct (item_id item) as [h|].
  2:{ by rewrite filter_nil, app_nil_r. }
  destruct (decide (h ∈ expected_ids)) as [HE|HE].
  - rewrite filter_cons_True by done. rewrite filter_nil.
    rewrite ConvergenceFacts.first_occurrences_snoc.
    repeat case_bool_decide; try done; tauto.
  - rewrite filter_cons_False by done. rewrite filter_nil, app_nil_r.
    rewrite bool_decide_eq_false_2; [done|tauto].
Qed.

Lemma in_order_initial : in_order [] (initial_state batch).
Proof. split; [intros h; cbn; set_solver | constructor]. Qed.

Lemma in_order_step done st item st' :
  in_order done st -> merge_item st item = Return st' -> in_order (done ++ [item]) st'.
Proof.
  intros [Hp Hf] Hm. unfold ReconcileOrderSpec.in_order. rewrite answered_snoc.
  unfold Reanalyzer.merge_item in Hm.
  destruct (item_hidx item) as [h|] eqn:Hh; [|discriminate].
  apply item_hidx_id in Hh. rewrite Hh. cbn [mbind outcome_bind] in Hm.
  destruct (decide (h ∈ expected_ids)) as [HE|HE].
  2:{ rewrite (bool_decide_eq_false_2 (h ∈ expected_ids)) in Hm by done.
      cbn [andb] in Hm. injection Hm as <-.
      rewrite bool_decide_eq_false_2 by tauto. done. }
  destruct (decide (h ∈ processed_hidxs st)) as [HP|HP].
  { rewrite (bool_decide_eq_false_2 (h ∉ processed_hidxs st)) in Hm by tauto.
    rewrite andb_false_r in Hm. injection Hm as <-.
    rewrite bool_decide_eq_false_2; [done|]. intros [_ Hn]. by apply Hn, Hp. }
  rewrite !bool_decide_eq_true_2 in Hm by done. cbn [andb] in Hm.
  destruct (ibm_expected py_repr batch h HE) as [i Hi]. rewrite Hi in Hm.
  destruct item as [| | | | | |d]; try discriminate.
  destruct (coerce_item d) as [d'|]; [|discriminate].
  cbn [mbind outcome_bind mret outcome_ret] in Hm. injection Hm as <-.
  rewrite bool_decide_eq_true_2.
  2:{ split; [done|]. intros Hn. by apply HP, Hp. }
  cbn [processed_hidxs final_properties]. split.
  - intros h'. rewrite elem_of_union, elem_of_singleton, elem_of_app, list_elem_of_singleton, Hp.
    tauto.
  - apply Forall2_app; [done|]. by repeat constructor.
Qed.

Lemma in_order_loop done st rest st' :
  in_order done st -> merge_items st rest = (st', None) -> in_order (done ++ rest) st'.
Proof.
  revert done st. induction rest as [|x rest IH]; intros done st Hinv H.
  - injection H as <-. by rewrite app_nil_r.
  - cbn [Reanalyzer.merge_items] in H.
    destruct (merge_item st x) as [st1|] eqn:Hx; [|discriminate].
    pose proof (in_order_step _ _ _ _ Hinv Hx) as Hinv1.
    pose proof (IH _ _ Hinv1 H) as Hinv'. by rewrite <- app_assoc in Hinv'.
Qed.

(** When the loop stops at an item, the items in front of it were merged. *)
Lemma merge_items_stopped st items st' e :
  merge_items st items = (st', Some e) ->
  exists l1 bad l2,
    items = l1 ++ bad :: l2 /\ merge_items st l1 = (st', None) /\
    merge_item st' bad = Raise e.
Proof.
  revert st. induction items as [|x items IH]; intros st H; [discriminate|].
  cbn [Reanalyzer.merge_items] in H.
  destruct (merge_item st x) as [st1|e1] eqn:Hx.
  - destruct (IH _ H) as (l1 & bad & l2 & -> & H1 & H2).
    exists (x :: l1), bad, l2. split; [done|]. split; [|done].
    cbn [Reanalyzer.merge_items]. by rewrite Hx.
  - injection H as <- <-. exists [], x, items. done.
Qed.

Lemma Forall2_inj_l {A B} (P : A -> B -> Prop) l1 l2 k :
  (forall x y z, P x z -> P y z -> x = y) ->
  Forall2 P l1 k -> Forall2 P l2 k -> l1 = l2.
Proof.
  intros Hinj H1. revert l2. induction H1 as [|x z l1 k Hx _ IH]; intros l2 H2.
  - by apply Forall2_nil_inv_r in H2.
  - apply Forall2_cons_inv_r in H2 as (y & l2' & Hy & H2 & ->).
    f_equal; [by eapply Hinj | by apply IH].
Qed.

End facts.

Section orchestrator.
Variable py_repr : value -> string.
Variable json_loads : string -> outcome value.
Variable new_client : string -> outcome unit.
Variable generate_content : nat -> api_reply.
Variable latency : nat -> Q.
Variable set_iter : gset string -> list string.
Hypothesis set_iter_perm : forall X : gset string, set_iter X ≡ₚ elements X.

Abbreviation reanalyze :=
  (reanalyze_property_batch py_repr json_loads new_client generate_content latency set_iter).
Abbreviation parsed_response :=
  (ReconcileSpec.parsed_response py_repr json_loads new_client generate_content latency).

(** X12. On the path through the merge the output lists
    first the records the response answers, in the order in which the
    response first mentions their identifiers, and then the records the
    response leaves out; each is the record [expected] describes, the two
    fields of the percentile engine apart. *)
Theorem response_order_kept w batch api_key items st :
  parsed_response w batch api_key items ->
  merge_items py_repr batch (initial_state batch) items = (st, None) ->
  exists missing out,
    snd (reanalyze w batch api_key) = Return out /\
    missing ≡ₚ filter (fun h => first_with py_repr h items = None)
                      (elements (batch_hidx_set py_repr batch)) /\
    Forall2 (fun h o => same_fields o (expected py_repr batch items h))
            (answered py_repr batch items ++ missing) out.
Proof.
  intros Hparsed Hm.
  destruct (reanalyze_merged py_repr json_loads new_client generate_content latency
              set_iter set_iter_perm w batch api_key items st Hparsed Hm)
    as (order & out & Hout & Hperm & Hidx & Hall & _).
  set (E := batch_hidx_set py_repr batch) in *.
  set (l := set_iter E).
  assert (Hl : l ≡ₚ elements E) by apply set_iter_perm.
  assert (Hlnd : NoDup l) by (rewrite Hl; apply NoDup_elements).
  assert (HlE : forall h, h ∈ l -> h ∈ E).
  { intros h. rewrite Hl. apply elem_of_elements. }
  destruct (mark_missing_spec py_repr batch l st Hlnd HlE) as (_ & _ & (idxs & Hidxs & Hfin) & _).
  destruct (in_order_loop py_repr batch [] _ items st (in_order_initial py_repr batch) Hm)
    as [_ Hord].
  rewrite app_nil_l in Hord.
  destruct (inv_loop py_repr batch [] _ [] items st (inv_initial py_repr batch) Hm)
    as [ord' Hinv].
  rewrite app_nil_l in Hinv. destruct Hinv as [_ Hproc _ _ _ _ _].
  exists (filter (unprocessed st) l), out. split; [done|]. split.
  - rewrite Hl. apply NoDup_Permutation.
    + apply NoDup_filter, NoDup_elements.
    + apply NoDup_filter, NoDup_elements.
    + intros h. rewrite !list_elem_of_filter, elem_of_elements. unfold unprocessed.
      rewrite Hproc. split.
      * intros [Hn HE]. split; [|done].
        destruct (first_with py_repr h items) eqn:Ef; [|done].
        exfalso. apply Hn. split; [done|eauto].
      * intros [Hn HE]. split; [|done]. intros [_ [d Hd]]. congruence.
  - assert (order = answered py_repr batch items ++ filter (unprocessed st) l) as <-; [|exact Hall].
    eapply (Forall2_inj_l _ _ _ _ (fun x y z => ibm_injective py_repr batch x y z)); [exact Hidx|].
    unfold add_missing. fold E. fold l. rewrite Hfin. by apply Forall2_app.
Qed.


End orchestrator.
Lemma shuffled_parsed :
  ReconcileSpec.parsed_response (fun _ => "") (loads_as shuffled_array shuffled_items)
    (fun _ => Return tt) (fenced_reply shuffled_array) (fun _ => 0%Q)
    demo_world three_batch (Some "key") shuffled_items.
Proof.
  split; [reflexivity|]. split; [discriminate|]. split; [by exists tt|].
  exists "`"%char, ("``json " +:+ shuffled_array +:+ " ```").
  split; vm_compute; reflexivity.
Defined.

Lemma response_order_kept_witness :
  exists missing out,
    snd (reanalyze_property_batch (fun _ => "") (loads_as shuffled_array shuffled_items)
           (fun _ => Return tt) (fenced_reply shuffled_array) (fun _ => 0%Q) elements
           demo_world three_batch (Some "key")) = Return out /\
    missing ≡ₚ ["2"] /\
    Forall2 (fun h o => same_fields o (expected (fun _ => "") three_batch shuffled_items h))
            (["3"; "1"] ++ missing) out.
Proof.
  edestruct (response_order_kept (fun _ => "") (loads_as shuffled_array shuffled_items)
               (fun _ => Return tt) (fenced_reply shuffled_array) (fun _ => 0%Q) elements)
    as (missing & out & Hout & Hmiss & Hall);
    [intros X; reflexivity | exact shuffled_parsed | vm_compute; reflexivity |].
  exists missing, out. split; [exact Hout|]. split; [exact Hmiss|]. exact Hall.
Defined.

Lemma broken_parsed :
  ReconcileSpec.parsed_response (fun _ => "") (loads_as broken_array broken_items)
    (fun _ => Return tt) (fenced_reply broken_array) (fun _ => 0%Q)
    demo_world demo_batch (Some "key") broken_items.
Proof.
  split; [reflexivity|]. split; [discriminate|]. split; [by exists tt|].
  exists "`"%char, ("``json " +:+ broken_array +:+ " ```").
  split; vm_compute; reflexivity.
Defined.


End ReconcileOrder.

(** ** Tolerant parsing: prose and fenced blocks *)

Module ParseMore.
Import Re ReSpec ReFacts Parse ParseSpec ParseMoreSpec.

(** *** Where a search cannot start *)

Lemma search_none (r : regex) (p : ascii -> bool) :
  match_at r "" = None ->
  (forall c s, p c = false -> match_at r (String c s) = None) ->
  forall s, all_in (fun c => negb (p c)) s = true -> search r s = None.
Proof.
  intros H0 Hc s. induction s as [|c s IH]; intros Hs; cbn [search].
  - by rewrite H0.
  - cbn [all_in] in Hs. apply andb_true_iff in Hs as [Hpc Hs].
    rewrite Hc by (by destruct (p c)). by rewrite IH.
Qed.

Lemma search_skip (r : regex) (p : ascii -> bool) pre s f :
  (forall c s, p c = false -> match_at r (String c s) = None) ->
  all_in (fun c => negb (p c)) pre = true ->
  search r s = Some f ->
  search r (pre +:+ s)
  = Some {| before := pre +:+ before f; group0 := group0 f; group1 := group1 f;
            after := after f |}.
Proof.
  intros Hc Hpre Hs. induction pre as [|c pre IH].
  - change ("" +:+ s) with s. change ("" +:+ before f) with (before f).
    rewrite Hs. by destruct f.
  - cbn [all_in] in Hpre. apply andb_true_iff in Hpre as [Hpc Hpre].
    rewrite append_cons. cbn [search].
    rewrite Hc by (by destruct (p c)). rewrite (IH Hpre). reflexivity.
Qed.

Lemma json_fence_start c s : Ascii.eqb "`" c = false -> match_at json_fence (String c s) = None.
Proof. intros H. unfold match_at, json_fence. cbn [run seq lit]. by rewrite H. Qed.

Lemma plain_fence_start c s : Ascii.eqb "`" c = false -> match_at plain_fence (String c s) = None.
Proof. intros H. unfold match_at, plain_fence. cbn [run seq lit]. by rewrite H. Qed.

Lemma bare_array_start c s : Ascii.eqb "[" c = false -> match_at bare_array (String c s) = None.
Proof. intros H. unfold match_at, bare_array. cbn [run seq lit]. by rewrite H. Qed.

Lemma object_pattern_start c s :
  Ascii.eqb "{" c = false -> match_at object_pattern (String c s) = None.
Proof. intros H. unfold match_at, object_pattern. cbn [run seq lit]. by rewrite H. Qed.

(** X13. A response without any backtick, opening
    bracket or opening brace holds no JSON for any of the four extraction
    steps: nothing is handed to [json.loads], whatever it would do, and the
    parsing phase ends with the fallback to the unchanged batch. *)
Theorem prose_response_not_parsed (json_loads : string -> outcome value) text :
  all_in (none_of "`[{") text = true ->
  extract_json_str text = None /\
  parse_response json_loads text = Return None.
Proof.
  intros Hs.
  assert (H1 : search json_fence text = None).
  { apply (search_none _ (Ascii.eqb "`")); [reflexivity | apply json_fence_start |].
    revert Hs. apply all_in_impl. intros c. unfold none_of. cbn [one_of].
    rewrite (Ascii.eqb_sym c). by destruct (Ascii.eqb "`" c). }
  assert (H2 : search plain_fence text = None).
  { apply (search_none _ (Ascii.eqb "`")); [reflexivity | apply plain_fence_start |].
    revert Hs. apply all_in_impl. intros c. unfold none_of. cbn [one_of].
    rewrite (Ascii.eqb_sym c). by destruct (Ascii.eqb "`" c). }
  assert (H3 : search bare_array text = None).
  { apply (search_none _ (Ascii.eqb "[")); [reflexivity | apply bare_array_start |].
    revert Hs. apply all_in_impl. intros c. unfold none_of. cbn [one_of].
    rewrite (Ascii.eqb_sym c "["). destruct (Ascii.eqb "[" c); [|done].
    by rewrite orb_true_r. }
  assert (H4 : search object_pattern text = None).
  { apply (search_none _ (Ascii.eqb "{")); [reflexivity | apply object_pattern_start |].
    revert Hs. apply all_in_impl. intros c. unfold none_of. cbn [one_of].
    rewrite (Ascii.eqb_sym c "{"). destruct (Ascii.eqb "{" c); [|done].
    by rewrite !orb_true_r. }
  assert (He : extract_json_str text = None).
  { unfold extract_json_str. rewrite H1. cbn [falsy]. rewrite H2, H3. cbn [falsy].
    by rewrite H4. }
  split; [exact He|]. unfold parse_response. by rewrite He.
Qed.


Lemma prose_response_not_parsed_witness :
  extract_json_str "Sorry, I cannot score these listings." = None /\
  parse_response (fun _ => Return (VList [])) "Sorry, I cannot score these listings."
  = Return None.
Proof.
  apply (prose_response_not_parsed (fun _ => Return (VList []))
           "Sorry, I cannot score these listings.").
  vm_compute. reflexivity.
Defined.

(** *** The matcher on a fenced block *)

Lemma star_greedy_skip p (k : string -> option (string * option string)) u rest m :
  all_in p u = true -> star true p k rest = Some m -> star true p k (u +:+ rest) = Some m.
Proof.
  intros Hu Hr. induction u as [|c u IH]; [done|].
  cbn [all_in] in Hu. apply andb_true_iff in Hu as [Hc Hu].
  rewrite append_cons. cbn [star]. by rewrite Hc, (IH Hu).
Qed.

Lemma star_greedy_stop p (k : string -> option (string * option string)) c s :
  p c = false -> star true p k (String c s) = k (String c s).
Proof. intros H. cbn [star]. by rewrite H. Qed.

Lemma star_lazy_now p (k : string -> option (string * option string)) s m :
  k s = Some m -> star false p k s = Some m.
Proof. intros H. destruct s; cbn [star]; by rewrite H. Qed.

Lemma star_lazy_cons p (k : string -> option (string * option string)) c s :
  star false p k (String c s)
  = match k (String c s) with
    | Some m => Some m
    | None => if p c then star false p k s else None
    end.
Proof. reflexivity. Qed.

Lemma run_lit t s g (k : string -> option string -> option (string * option string)) :
  run (lit t) (t +:+ s) g k = k s g.
Proof.
  revert g. induction t as [|c t IH]; intros g; [reflexivity|].
  rewrite append_cons. cbn [lit run]. by rewrite Ascii.eqb_refl.
Qed.

Lemma run_lit_nocase t tag s g (k : string -> option string -> option (string * option string)) :
  lower_string tag = lower_string t ->
  run (lit_nocase t) (tag +:+ s) g k = k s g.
Proof.
  revert tag g. induction t as [|c t IH]; intros tag g H.
  - destruct tag; [reflexivity|discriminate].
  - destruct tag as [|c' tag]; [discriminate|]. cbn [lower_string] in H.
    injection H as Hc Ht. rewrite append_cons. cbn [lit_nocase run].
    rewrite Hc, Ascii.eqb_refl. by apply IH.
Qed.

(** The closing part of a fence pattern, white space and three backticks,
    does not match inside a text without backticks that ends with a
    character that is no white space. *)
Lemma closing_fails w cl rest g (k : string -> option string -> option (string * option string)) :
  all_in (none_of "`") w = true -> none_of "`" cl = true -> is_space cl = false ->
  star true is_space (fun s' => run (lit "```") s' g k) (w +:+ String cl rest) = None.
Proof.
  intros Hw Hcl Hsp.
  assert (Hfail : forall c s, none_of "`" c = true ->
            run (lit "```") (String c s) g k = None).
  { intros c s Hc. cbn [run lit]. unfold none_of in Hc. cbn [one_of] in Hc.
    rewrite orb_false_r in Hc. rewrite Ascii.eqb_sym. by destruct (Ascii.eqb c "`"). }
  induction w as [|c w IH].
  - change ("" +:+ String cl rest) with (String cl rest).
    rewrite star_greedy_stop by done. by apply Hfail.
  - cbn [all_in] in Hw. apply andb_true_iff in Hw as [Hc Hw].
    rewrite append_cons. cbn [star]. rewrite (IH Hw).
    destruct (is_space c); by apply Hfail.
Qed.

Lemma lazy_until_closing b0 cl rest (G : string -> option string)
    (k : string -> option string -> option (string * option string)) :
  all_in (none_of "`") b0 = true -> none_of "`" cl = true -> is_space cl = false ->
  star false any_char
    (fun s' => star true is_space (fun s'' => run (lit "```") s'' (G s') k) s')
    (b0 +:+ String cl rest)
  = star false any_char
      (fun s' => star true is_space (fun s'' => run (lit "```") s'' (G s') k) s')
      rest.
Proof.
  intros Hb Hcl Hsp. induction b0 as [|c b0 IH].
  - change ("" +:+ String cl rest) with (String cl rest). rewrite star_lazy_cons. cbv beta.
    pose proof (closing_fails "" cl rest (G (String cl rest)) k Hb Hcl Hsp) as H.
    change ("" +:+ String cl rest) with (String cl rest) in H. by rewrite H.
  - pose proof (closing_fails (String c b0) cl rest
                  (G (String c (b0 +:+ String cl rest))) k Hb Hcl Hsp) as H.
    rewrite append_cons in H.
    cbn [all_in] in Hb. apply andb_true_iff in Hb as [Hc Hb].
    rewrite append_cons. rewrite star_lazy_cons. cbv beta. rewrite H.
    unfold any_char at 1. by apply IH.
Qed.

(** The pattern of step 1 on a fenced block. *)
Lemma json_fence_match tag ws1 body ws2 post :
  lower_string tag = "json" ->
  all_in is_space ws1 = true -> all_in is_space ws2 = true ->
  all_in (none_of "`") body = true ->
  (exists c0 b1, body = String c0 b1 /\ is_space c0 = false) ->
  (exists b0 cl, body = b0 +:+ String cl "" /\ is_space cl = false) ->
  match_at json_fence ("```" +:+ tag +:+ ws1 +:+ body +:+ ws2 +:+ "```" +:+ post)
  = Some (post, Some body).
Proof.
  intros Htag Hws1 Hws2 Hbody (c0 & b1 & Hhead & Hc0) (b0 & cl & Hlast & Hcl).
  unfold match_at, json_fence. cbn [seq].
  cbn [run]. rewrite run_lit. rewrite run_lit_nocase by exact Htag.
  cbn [run]. unfold spaces.
  apply star_greedy_skip; [done|].
  rewrite Hhead at 1. rewrite append_cons, star_greedy_stop by done.
  rewrite <- append_cons, <- Hhead.
  cbn [run].
  assert (Hb0 : all_in (none_of "`") b0 = true /\ none_of "`" cl = true).
  { rewrite Hlast, all_in_append in Hbody. cbn [all_in] in Hbody.
    rewrite andb_true_r in Hbody. by apply andb_true_iff in Hbody. }
  destruct Hb0 as [Hb0 Hcl'].
  remember (body +:+ ws2 +:+ "```" +:+ post) as s eqn:Es.
  assert (Hs : s = b0 +:+ String cl (ws2 +:+ "```" +:+ post)).
  { rewrite Es, Hlast, append_assoc. reflexivity. }
  rewrite Hs at 1.
  rewrite (lazy_until_closing b0 cl (ws2 +:+ "```" +:+ post)
             (fun s' => Some (consumed s s'))) by done.
  apply star_lazy_now.
  apply star_greedy_skip; [done|].
  change ("```" +:+ post) with (String "`" ("``" +:+ post)).
  rewrite star_greedy_stop by reflexivity.
  change (String "`" ("``" +:+ post)) with ("```" +:+ post).
  rewrite run_lit.
  rewrite Es. by rewrite consumed_append.
Qed.

Lemma search_here r s rest g :
  match_at r s = Some (rest, g) ->
  search r s = Some {| before := ""; group0 := consumed s rest; group1 := g; after := rest |}.
Proof. intros H. destruct s; cbn [search]; by rewrite H. Qed.

(** X14. When the response holds a block fenced by three
    backticks and the word json in any case, with no backtick in front of
    it nor inside and with something other than white space inside, the
    text handed to [json.loads] is exactly the stripped inside of the first
    such block, whatever follows it; when [json.loads] reads that text as a
    list, this list is what the parsing phase hands to the merge. *)
Theorem fenced_block_extracted (json_loads : string -> outcome value)
    pre tag inner post items :
  all_in (none_of "`") pre = true ->
  lower_string tag = "json" ->
  all_in (none_of "`") inner = true ->
  strip inner <> "" ->
  extract_json_str (fenced pre tag inner post) = Some (strip inner) /\
  (json_loads (strip inner) = Return (VList items) ->
   parse_response json_loads (fenced pre tag inner post) = Return (Some (VList items))).
Proof.
  intros Hpre Htag Hinner Hne.
  destruct (strip_split inner) as (ws1 & ws2 & Hsplit & Hws1 & Hws2 & Hbody).
  destruct (Hbody Hne) as (Hfix & c0 & b1 & b0 & cl & Hhead & Hc0 & Hlast & Hcl).
  set (body := strip inner) in *.
  assert (Hnb : all_in (none_of "`") body = true).
  { rewrite Hsplit, !all_in_append in Hinner.
    apply andb_true_iff in Hinner as [_ Hinner].
    by apply andb_true_iff in Hinner as [Hinner _]. }
  assert (Hm : match_at json_fence ("```" +:+ tag +:+ ws1 +:+ body +:+ ws2 +:+ "```" +:+ post)
               = Some (post, Some body)).
  { apply json_fence_match; eauto. }
  assert (Htext : fenced pre tag inner post
                  = pre +:+ "```" +:+ tag +:+ ws1 +:+ body +:+ ws2 +:+ "```" +:+ post).
  { unfold fenced. rewrite Hsplit at 1. by rewrite !append_assoc. }
  assert (Hsearch : exists f, search json_fence (fenced pre tag inner post) = Some f /\
                              group1 f = Some body).
  { rewrite Htext. eexists. split.
    - apply (search_skip _ (Ascii.eqb "`")); [apply json_fence_start | |].
      + revert Hpre. apply all_in_impl. intros c. unfold none_of. cbn [one_of].
        rewrite (Ascii.eqb_sym c). by destruct (Ascii.eqb "`" c).
      + apply search_here. exact Hm.
    - reflexivity. }
  destruct Hsearch as (f & Hf & Hg).
  assert (He : extract_json_str (fenced pre tag inner post) = Some body).
  { unfold extract_json_str. rewrite Hf, Hg. cbn [from_option id]. rewrite Hfix.
    rewrite Hhead. reflexivity. }
  split; [exact He|].
  intros Hloads. unfold parse_response. rewrite He. rewrite Hhead in *. by rewrite Hloads.
Qed.

Lemma fenced_block_extracted_witness :
  extract_json_str (fenced "Here: " "JSON" (" " +:+ demo_array +:+ " ") " bye ``` x")
  = Some demo_array /\
  parse_response demo_loads (fenced "Here: " "JSON" (" " +:+ demo_array +:+ " ") " bye ``` x")
  = Return (Some (VList demo_items)).
Proof.
  destruct (fenced_block_extracted demo_loads "Here: " "JSON" (" " +:+ demo_array +:+ " ")
              " bye ``` x" demo_items) as [He Hp].
  - vm_compute. reflexivity.
  - vm_compute. reflexivity.
  - vm_compute. reflexivity.
  - vm_compute. discriminate.
  - split; [exact He|]. apply Hp. vm_compute. reflexivity.
Defined.

End ParseMore.

(** ** Flattening *)

Module FlattenFacts.
Import Flatten FlattenSpec.

Lemma value_nested_ind (P : value -> Prop) :
  P VNone -> (forall b, P (VBool b)) -> (forall z, P (VInt z)) ->
  (forall f, P (VFloat f)) -> (forall s, P (VStr s)) ->
  (forall l, Forall P l -> P (VList l)) ->
  (forall d, Forall (fun kv => P (snd kv)) d -> P (VDict d)) ->
  forall v, P v.
Proof.
  intros HN HB HZ HF HS HL HD.
  fix IH 1. intros [| b | z | f | s | l | d];
    [apply HN | apply HB | apply HZ | apply HF | apply HS | |].
  - apply HL. induction l as [|x l IHl]; constructor; [apply IH | exact IHl].
  - apply HD. induction d as [|[k x] d IHd]; constructor; [apply IH | exact IHd].
Qed.

Lemma flatten_value_dict sep key d :
  flatten_value sep key (VDict d) = dict_of_items (items_of sep key d).
Proof.
  cbn [flatten_value]. f_equal. unfold items_of.
  induction d as [|[k v] d IH]; [reflexivity|]. cbn [map concat fst snd]. by rewrite IH.
Qed.

Lemma leaves_value_dict sep key d :
  leaves_value sep key (VDict d)
  = concat (map (fun kv => leaves_value sep (child_key key sep (fst kv)) (snd kv)) d).
Proof.
  cbn [leaves_value].
  induction d as [|[k v] d IH]; [reflexivity|]. cbn [map concat fst snd]. by rewrite IH.
Qed.

(** Updating with the dict built from a list of items is updating with
    the items themselves. *)
Lemma dict_update_set_commute {V} k (v : V) (Y l : list (string * V)) :
  k ∈ map fst Y -> k ∉ map fst l ->
  dict_update (dict_set k v Y) l = dict_set k v (dict_update Y l).
Proof.
  revert Y. induction l as [|[k' v'] l IH]; intros Y HY Hl; [reflexivity|].
  cbn [dict_update fold_left fst snd].
  fold (dict_update (dict_set k' v' (dict_set k v Y)) l).
  fold (dict_update (dict_set k' v' Y) l).
  assert (Hne : k <> k') by (intros ->; apply Hl; left).
  rewrite (dict_set_comm k k') by done. apply IH.
  - by apply dict_set_keys_has.
  - intros ?. apply Hl. by right.
Qed.

Lemma dict_update_dict_set {V} k (v : V) (acc D : list (string * V)) :
  NoDup (map fst D) ->
  dict_update acc (dict_set k v D) = dict_set k v (dict_update acc D).
Proof.
  intros Hnd. destruct (decide (k ∈ map fst D)) as [Hk|Hk].
  - apply list_elem_of_fmap in Hk as ([k0 v0] & -> & Hin).
    apply list_elem_of_split in Hin as (D1 & D2 & ->). cbn [fst].
    rewrite map_app in Hnd. cbn [map fst] in Hnd.
    apply NoDup_app in Hnd as (Hnd1 & Hd & Hnd2).
    apply NoDup_cons in Hnd2 as [Hk2 _].
    assert (Hk1 : k0 ∉ map fst D1).
    { intros Hin. apply (Hd k0 Hin). left. }
    assert (Hset : dict_set k0 v (D1 ++ (k0, v0) :: D2) = D1 ++ (k0, v) :: D2).
    { clear -Hk1. induction D1 as [|[k1 v1] D1 IH]; cbn [app dict_set].
      - by rewrite String.eqb_refl.
      - destruct (String.eqb k0 k1) eqn:E.
        + apply String.eqb_eq in E as ->. exfalso. apply Hk1. left.
        + f_equal. apply IH. intros ?. apply Hk1. by right. }
    rewrite Hset, !dict_update_app.
    cbn [dict_update fold_left fst snd].
    fold (dict_update (dict_set k0 v (dict_update acc D1)) D2).
    fold (dict_update (dict_set k0 v0 (dict_update acc D1)) D2).
    rewrite <- (dict_set_set k0 v v0 (dict_update acc D1)).
    apply dict_update_set_commute; [|done].
    destruct (decide (k0 ∈ map fst (dict_update acc D1))) as [H|H].
    + by rewrite dict_set_keys_in.
    + rewrite dict_set_new, map_app by done. apply elem_of_app. right. left.
  - rewrite dict_set_new by done. apply dict_update_snoc.
Qed.

Lemma dict_update_dict_of_items (acc b : list (string * value)) :
  dict_update acc (dict_of_items b) = dict_update acc b.
Proof.
  induction b as [|[k v] b IH] using rev_ind; [reflexivity|].
  unfold dict_of_items. rewrite !dict_update_snoc.
  rewrite dict_update_dict_set; [|apply dict_update_NoDup; constructor].
  fold (dict_of_items b). by rewrite IH.
Qed.

(** *** The flattened dict *)

Lemma flatten_value_flat sep v :
  forall key, Forall (fun kv => is_dict (snd kv) = false) (flatten_value sep key v) /\
              NoDup (map fst (flatten_value sep key v)).
Proof.
  induction v as [| b | z | f | s | l _ | d IH] using value_nested_ind; intros key;
    try (split; [by repeat constructor | apply NoDup_singleton]).
  rewrite flatten_value_dict. unfold dict_of_items. split.
  - apply dict_update_Forall; [constructor|].
    unfold items_of. apply Forall_concat, Forall_forall. intros x Hx.
    apply list_elem_of_fmap in Hx as ([k v] & -> & Hkv).
    rewrite Forall_forall in IH. apply (IH (k, v) Hkv).
  - apply dict_update_NoDup. constructor.
Qed.

(** X15. Whatever the nesting of the input, the result
    of [flatten_nested_dict] is flat: none of its values is a dict, and
    each key occurs once. *)
Theorem flattened_dict_is_flat (d : dict) (parent_key sep : string) :
  flat (flatten_nested_dict d parent_key sep) /\
  NoDup (map fst (flatten_nested_dict d parent_key sep)).
Proof. apply flatten_value_flat. Qed.

Lemma flatten_flat_identity (d : dict) (sep : string) :
  flat d -> NoDup (map fst d) -> flatten_nested_dict d "" sep = d.
Proof.
  intros Hflat Hnd. unfold flatten_nested_dict. rewrite flatten_value_dict.
  assert (Hitems : items_of sep "" d = d).
  { unfold items_of. clear Hnd. induction Hflat as [|[k v] d Hv _ IH]; [reflexivity|].
    cbn [map concat fst snd]. rewrite IH. cbn [child_key].
    destruct v; try reflexivity. discriminate Hv. }
  rewrite Hitems. unfold dict_of_items. by apply (dict_update_distinct [] d).
Qed.

(** X16. A dict that is already flat is returned as it
    is, keys, values and order; so flattening a flattened dict again, with
    any separator, changes nothing. *)
Theorem flatten_keeps_flat_dict (d : dict) (parent_key sep sep' : string) :
  (flat d -> NoDup (map fst d) -> flatten_nested_dict d "" sep = d) /\
  flatten_nested_dict (flatten_nested_dict d parent_key sep) "" sep'
  = flatten_nested_dict d parent_key sep.
Proof.
  split; [apply flatten_flat_identity|].
  destruct (flatten_value_flat sep (VDict d) parent_key) as [Hflat Hnd].
  by apply flatten_flat_identity.
Qed.

Lemma dict_update_concat_ext {A} (f g : A -> list (string * value)) (l : list A) acc :
  Forall (fun x => forall acc, dict_update acc (f x) = dict_update acc (g x)) l ->
  dict_update acc (concat (map f l)) = dict_update acc (concat (map g l)).
Proof.
  intros H. revert acc. induction H as [|x l Hx _ IH]; intros acc; [reflexivity|].
  cbn [map concat]. rewrite !dict_update_app, Hx. apply IH.
Qed.

Lemma flatten_value_leaves sep v :
  forall key acc,
    dict_update acc (flatten_value sep key v) = dict_update acc (leaves_value sep key v).
Proof.
  induction v as [| b | z | f | s | l _ | d IH] using value_nested_ind; intros key acc;
    try reflexivity.
  rewrite flatten_value_dict, leaves_value_dict, dict_update_dict_of_items.
  unfold items_of. apply dict_update_concat_ext.
  apply Forall_forall. intros [k v] Hkv acc'. cbn [fst snd].
  rewrite Forall_forall in IH. apply (IH (k, v) Hkv).
Qed.

(** X17. The flattened dict is the dict built from the
    leaves of the input, each under the keys on its path joined by the
    separator; when two leaves get the same joined key, the value of the
    later one is kept: looking a key up in the result gives the last leaf
    with that key. *)
Theorem flatten_last_leaf_wins (d : dict) (parent_key sep : string) :
  flatten_nested_dict d parent_key sep = dict_of_items (leaves d parent_key sep) /\
  forall key,
    dict_get key (flatten_nested_dict d parent_key sep)
    = dict_get key (rev (leaves d parent_key sep)).
Proof.
  assert (H : flatten_nested_dict d parent_key sep = dict_of_items (leaves d parent_key sep)).
  { unfold flatten_nested_dict, leaves, dict_of_items.
    rewrite <- flatten_value_leaves. rewrite flatten_value_dict.
    by rewrite dict_update_dict_of_items. }
  split; [exact H|]. intros key. rewrite H. unfold dict_of_items.
  rewrite dict_get_update. by destruct (dict_get key (rev _)).
Qed.

Lemma flatten_keeps_flat_dict_witness :
  flatten_nested_dict [("hidx", VStr "7"); ("total_score", VInt 80)] "" "_"
  = [("hidx", VStr "7"); ("total_score", VInt 80)].
Proof.
  apply (proj1 (flatten_keeps_flat_dict [("hidx", VStr "7"); ("total_score", VInt 80)]
                  "" "_" "_")).
  - repeat constructor.
  - apply (bool_decide_unpack _). vm_compute. reflexivity.
Defined.

Example flatten_ex :
  flatten_nested_dict
    [("hidx", VStr "7");
     ("price", VDict [("deposit", VInt 500); ("extra", VDict [])]);
     ("price_deposit", VInt 1);
     ("summary", VDict [("recommendation", VStr "ok")])] "" "_"
  = [("hidx", VStr "7"); ("price_deposit", VInt 1); ("summary_recommendation", VStr "ok")].
Proof. vm_compute. reflexivity. Qed.

End FlattenFacts.

(** ** Loading the sheet *)

Module RowsFacts.
Import Rows RowsSpec Percentile ReSpec ReFacts.

Lemma dict_get_remove_ne {V} k k' (d : list (string * V)) :
  k <> k' -> dict_get k (dict_remove k' d) = dict_get k d.
Proof.
  intros Hne. induction d as [|[k0 v0] d IH]; [reflexivity|].
  cbn [dict_remove dict_get]. destruct (String.eqb k' k0) eqn:E.
  - apply String.eqb_eq in E as <-.
    assert (String.eqb k k' = false) as -> by (by apply String.eqb_neq). reflexivity.
  - cbn [dict_get]. by rewrite IH.
Qed.

Lemma dict_get_None_keys {V} k (d : list (string * V)) : k ∉ map fst d -> dict_get k d = None.
Proof.
  induction d as [|[k0 v0] d IH]; intros Hk; [reflexivity|]. cbn [dict_get].
  destruct (String.eqb k k0) eqn:E.
  - apply String.eqb_eq in E as ->. exfalso. apply Hk. left.
  - apply IH. intros ?. apply Hk. by right.
Qed.

Lemma dict_remove_keys {V} k (d : list (string * V)) x :
  x ∈ map fst (dict_remove k d) -> x ∈ map fst d.
Proof.
  induction d as [|[k0 v0] d IH]; [done|]. cbn [dict_remove].
  destruct (String.eqb k k0); cbn [map fst]; intros Hx.
  - by right.
  - apply elem_of_cons in Hx as [->|Hx]; [left | right; by apply IH].
Qed.

Lemma dict_remove_NoDup {V} k (d : list (string * V)) :
  NoDup (map fst d) -> NoDup (map fst (dict_remove k d)).
Proof.
  induction d as [|[k0 v0] d IH]; [done|]. cbn [dict_remove map fst].
  intros Hnd. apply NoDup_cons in Hnd as [Hk0 Hnd].
  destruct (String.eqb k k0); [done|]. cbn [map fst]. apply NoDup_cons. split; [|by apply IH].
  intros Hin. apply Hk0. by eapply dict_remove_keys.
Qed.

Lemma dict_get_remove_eq {V} k (d : list (string * V)) :
  NoDup (map fst d) -> dict_get k (dict_remove k d) = None.
Proof.
  induction d as [|[k0 v0] d IH]; [reflexivity|]. cbn [dict_remove map fst].
  intros Hnd. apply NoDup_cons in Hnd as [Hk0 Hnd].
  destruct (String.eqb k k0) eqn:E.
  - apply String.eqb_eq in E as ->. by apply dict_get_None_keys.
  - cbn [dict_get]. rewrite E. by apply IH.
Qed.

(** *** The keys of the result stay distinct *)

Lemma set_path_NoDup parts v current result :
  NoDup (map fst current) -> set_path parts v current = Return result ->
  NoDup (map fst result).
Proof.
  revert current result. induction parts as [|part rest IH]; intros current result Hnd.
  - by intros [= <-].
  - cbn [set_path]. destruct rest as [|r rest'].
    + intros [= <-]. by apply dict_set_NoDup.
    + destruct (dict_get part current) as [[| | | | | |sub]|]; try discriminate.
      * destruct (set_path (r :: rest') v sub) as [sub'|]; [|discriminate].
        intros [= <-]. by apply dict_set_NoDup.
      * destruct (set_path (r :: rest') v []) as [sub'|]; [|discriminate].
        intros [= <-]. by apply dict_set_NoDup.
Qed.

Lemma place_NoDup result kv result' :
  NoDup (map fst result) -> place result kv = Return result' -> NoDup (map fst result').
Proof.
  destruct kv as [key value]. unfold place. intros Hnd.
  destruct (contains "." key).
  - by apply set_path_NoDup.
  - intros [= <-]. by apply dict_set_NoDup.
Qed.

Lemma foldM_place_NoDup row_dict result result' :
  NoDup (map fst result) -> foldM place row_dict result = Return result' ->
  NoDup (map fst result').
Proof.
  revert result. induction row_dict as [|kv row_dict IH]; intros result Hnd; cbn [foldM].
  - by intros [= <-].
  - destruct (place result kv) as [r1|] eqn:E; [|discriminate]. cbn [mbind outcome_bind].
    apply IH. by eapply place_NoDup.
Qed.

Lemma fold_map_field_NoDup row_dict fm result :
  NoDup (map fst result) -> NoDup (map fst (fold_left (map_field row_dict) fm result)).
Proof.
  revert result. induction fm as [|[o n] fm IH]; intros result Hnd; [done|].
  cbn [fold_left]. apply IH. unfold map_field.
  destruct (dict_get o row_dict); [by apply dict_set_NoDup | done].
Qed.

Lemma fold_nest_category_NoDup row_dict nf result :
  NoDup (map fst result) -> NoDup (map fst (fold_left (nest_category row_dict) nf result)).
Proof.
  revert result. induction nf as [|[c fm] nf IH]; intros result Hnd; [done|].
  cbn [fold_left]. apply IH. unfold nest_category.
  destruct (existsb _ fm); [by apply dict_set_NoDup | done].
Qed.

(** *** The steps one by one *)

Lemma process_steps row_dict result :
  process_nested_structure row_dict = Return result ->
  exists r1 r4,
    foldM place row_dict [] = Return r1 /\
    move_deposit row_dict
      (fold_left (nest_category row_dict) nested_fields
         (fold_left (map_field row_dict) field_mapping r1)) = Return r4 /\
    result = dict_set "reanalysis_comment" (VStr initial_comment) (move_recommendation r4).
Proof.
  unfold process_nested_structure.
  destruct (foldM place row_dict []) as [r1|]; [|discriminate]. cbn [mbind outcome_bind].
  destruct (move_deposit row_dict _) as [r4|] eqn:E4; [|discriminate].
  cbn [mbind outcome_bind mret outcome_ret]. intros [= <-]. eauto.
Qed.

Lemma nest_category_other row_dict result entry k :
  k <> fst entry -> dict_get k (nest_category row_dict result entry) = dict_get k result.
Proof.
  destruct entry as [c fm]. cbn [fst]. intros Hne. unfold nest_category.
  destruct (existsb _ fm); [|done]. by rewrite dict_get_set_ne.
Qed.

Lemma fold_nest_category_other row_dict nf result k :
  k ∉ map fst nf ->
  dict_get k (fold_left (nest_category row_dict) nf result) = dict_get k result.
Proof.
  revert result. induction nf as [|entry nf IH]; intros result Hk; [done|].
  cbn [fold_left]. rewrite IH.
  - apply nest_category_other. intros ->. apply Hk. left.
  - intros ?. apply Hk. by right.
Qed.

Lemma move_deposit_other row_dict r3 r4 k :
  k <> "deposit" -> k <> "price" ->
  move_deposit row_dict r3 = Return r4 -> dict_get k r4 = dict_get k r3.
Proof.
  intros H1 H2. unfold move_deposit.
  destruct (dict_get "deposit" r3) as [deposit|]; [|by intros [= <-]].
  destruct (match dict_get "관리비" row_dict with Some _ => _ | None => _ end) as [price|];
    [|discriminate].
  cbn [mbind outcome_bind mret outcome_ret]. intros [= <-].
  rewrite dict_get_set_ne by done. by apply dict_get_remove_ne.
Qed.

Lemma move_recommendation_other r4 k :
  k <> "recommendation" -> k <> "summary" ->
  dict_get k (move_recommendation r4) = dict_get k r4.
Proof.
  intros H1 H2. unfold move_recommendation.
  destruct (dict_get "recommendation" r4); [|done].
  rewrite dict_get_set_ne by done. by apply dict_get_remove_ne.
Qed.

(** A key the later steps do not write is as the first two steps left it. *)
Lemma late_frame row_dict result k :
  k ∉ late_keys ->
  process_nested_structure row_dict = Return result ->
  exists r1,
    foldM place row_dict [] = Return r1 /\
    dict_get k result = dict_get k (fold_left (map_field row_dict) field_mapping r1).
Proof.
  intros Hk Hp. destruct (process_steps _ _ Hp) as (r1 & r4 & H1 & H4 & ->).
  exists r1. split; [done|]. unfold late_keys in Hk.
  assert (Hne : forall k', k' ∈ late_keys -> k <> k') by (intros k' Hk' ->; done).
  assert (k <> "deposit") by (apply Hne; unfold late_keys; in_list).
  assert (k <> "price") by (apply Hne; unfold late_keys; in_list).
  assert (k <> "recommendation") by (apply Hne; unfold late_keys; in_list).
  assert (k <> "summary") by (apply Hne; unfold late_keys; in_list).
  assert (k <> "reanalysis_comment") by (apply Hne; unfold late_keys; in_list).
  rewrite dict_get_set_ne by done.
  rewrite move_recommendation_other by done.
  rewrite (move_deposit_other _ _ _ k ltac:(done) ltac:(done) H4).
  apply fold_nest_category_other. cbn [map fst nested_fields].
  intros Hin. apply Hk.
  repeat (apply elem_of_cons in Hin as [->|Hin]; [in_list|]).
  by apply elem_of_nil in Hin.
Qed.

Lemma mapped_field row_dict r1 old_key new_key v :
  (old_key, new_key) ∈ field_mapping ->
  dict_get old_key row_dict = Some v ->
  dict_get new_key (fold_left (map_field row_dict) field_mapping r1) = Some (value_of v).
Proof.
  intros Hin Hv. unfold field_mapping in *. cbn [fold_left map_field].
  repeat (apply elem_of_cons in Hin as [[= -> ->]|Hin]);
    [..|by apply elem_of_nil in Hin];
    rewrite ?Hv;
    repeat match goal with
           | |- context [match dict_get ?k row_dict with _ => _ end] =>
               destruct (dict_get k row_dict)
           end;
    rewrite ?dict_get_set_ne by discriminate; apply dict_get_set_eq.
Qed.

Lemma process_NoDup row_dict r1 :
  foldM place row_dict [] = Return r1 ->
  NoDup (map fst (fold_left (nest_category row_dict) nested_fields
                    (fold_left (map_field row_dict) field_mapping r1))).
Proof.
  intros H1. apply fold_nest_category_NoDup, fold_map_field_NoDup.
  eapply foldM_place_NoDup; [|exact H1]. constructor.
Qed.

Lemma move_deposit_NoDup row_dict r3 r4 :
  NoDup (map fst r3) -> move_deposit row_dict r3 = Return r4 -> NoDup (map fst r4).
Proof.
  intros Hnd. unfold move_deposit.
  destruct (dict_get "deposit" r3) as [deposit|]; [|by intros [= <-]].
  destruct (match dict_get "관리비" row_dict with Some _ => _ | None => _ end) as [price|];
    [|discriminate].
  cbn [mbind outcome_bind mret outcome_ret]. intros [= <-].
  by apply dict_set_NoDup, dict_remove_NoDup.
Qed.

(** X18. A processed row never keeps a
    top-level [deposit] or [recommendation]: what the sheet holds under
    [보증금] ends up as [price]['deposit'] and what it holds under
    [추천 대상 및 종합 의견] as the only entry of [summary]; and the record
    carries the initial [reanalysis_comment]. *)
Theorem deposit_and_recommendation_moved (row_dict : row) (result : dict) :
  process_nested_structure row_dict = Return result ->
  dict_get "deposit" result = None /\
  dict_get "recommendation" result = None /\
  dict_get "reanalysis_comment" result = Some (VStr initial_comment) /\
  (forall v, dict_get "보증금" row_dict = Some v ->
     exists price, dict_get "price" result = Some (VDict price) /\
                   dict_get "deposit" price = Some (value_of v)) /\
  (forall v, dict_get "추천 대상 및 종합 의견" row_dict = Some v ->
     dict_get "summary" result = Some (VDict [("recommendation", value_of v)])).
Proof.
  intros Hp. destruct (process_steps _ _ Hp) as (r1 & r4 & H1 & H4 & ->).
  pose proof (process_NoDup _ _ H1) as Hnd3.
  pose proof (move_deposit_NoDup _ _ _ Hnd3 H4) as Hnd4.
  set (r2 := fold_left (map_field row_dict) field_mapping r1) in *.
  set (r3 := fold_left (nest_category row_dict) nested_fields r2) in *.
  assert (H23 : forall k, k ∉ map fst nested_fields -> dict_get k r3 = dict_get k r2).
  { intros k Hk. by apply fold_nest_category_other. }
  assert (Hcat : forall k, k ∈ ["deposit"; "recommendation"] -> k ∉ map fst nested_fields).
  { intros k Hk Hin. cbn [map fst nested_fields] in Hin.
    repeat (apply elem_of_cons in Hk as [->|Hk]; [|]);
      [..|by apply elem_of_nil in Hk];
      repeat (apply elem_of_cons in Hin as [[=]|Hin]); by apply elem_of_nil in Hin. }
  assert (Hdep : dict_get "deposit" r4 = None).
  { revert H4. unfold move_deposit.
    destruct (dict_get "deposit" r3) as [deposit|] eqn:Ed; [|by intros [= <-]].
    destruct (match dict_get "관리비" row_dict with Some _ => _ | None => _ end) as [price|];
      [|discriminate].
    cbn [mbind outcome_bind mret outcome_ret]. intros [= <-].
    rewrite dict_get_set_ne by discriminate. by apply dict_get_remove_eq. }
  assert (Hrec : dict_get "recommendation" (move_recommendation r4) = None).
  { unfold move_recommendation.
    destruct (dict_get "recommendation" r4) eqn:Er; [|done].
    rewrite dict_get_set_ne by discriminate. by apply dict_get_remove_eq. }
  split; [|split; [|split; [|split]]].
  - rewrite dict_get_set_ne by discriminate.
    by rewrite move_recommendation_other by discriminate.
  - by rewrite dict_get_set_ne by discriminate.
  - apply dict_get_set_eq.
  - intros v Hv.
    assert (Hd3 : dict_get "deposit" r3 = Some (value_of v)).
    { rewrite H23 by (apply Hcat; in_list).
      apply (mapped_field row_dict r1 "보증금" "deposit"); [unfold field_mapping; in_list|done]. }
    rewrite dict_get_set_ne by discriminate.
    rewrite move_recommendation_other by discriminate.
    revert H4. unfold move_deposit. rewrite Hd3.
    destruct (dict_get "관리비" row_dict) as [mc|].
    + destruct (maintenance mc) as [m|]; [|discriminate].
      cbn [mbind outcome_bind mret outcome_ret]. intros [= <-].
      eexists. split; [apply dict_get_set_eq|reflexivity].
    + cbn [mbind outcome_bind mret outcome_ret]. intros [= <-].
      eexists. split; [apply dict_get_set_eq|reflexivity].
  - intros v Hv.
    assert (Hr4 : dict_get "recommendation" r4 = Some (value_of v)).
    { rewrite (move_deposit_other _ _ _ "recommendation" ltac:(discriminate)
                 ltac:(discriminate) H4).
      rewrite H23 by (apply Hcat; in_list).
      apply (mapped_field row_dict r1 "추천 대상 및 종합 의견" "recommendation");
        [unfold field_mapping; in_list|done]. }
    rewrite dict_get_set_ne by discriminate.
    unfold move_recommendation. rewrite Hr4. apply dict_get_set_eq.
Qed.

(** X19. The cells under [매물 ID], [총점 (100점)] and
    [주소] are found in the processed row under [hidx], [total_score] and
    [address], whatever else the row holds: a column that already has the
    new name is overwritten, and no later step touches these keys. *)
Theorem sheet_columns_renamed (row_dict : row) (result : dict) old_key new_key v :
  (old_key, new_key) ∈ [("매물 ID", "hidx"); ("총점 (100점)", "total_score"); ("주소", "address")] ->
  dict_get old_key row_dict = Some v ->
  process_nested_structure row_dict = Return result ->
  dict_get new_key result = Some (value_of v).
Proof.
  intros Hin Hv Hp.
  assert (Hlate : new_key ∉ late_keys).
  { unfold late_keys. intros Hl.
    repeat (apply elem_of_cons in Hin as [[= -> ->]|Hin]);
      [..|by apply elem_of_nil in Hin];
      repeat (apply elem_of_cons in Hl as [[=]|Hl]); by apply elem_of_nil in Hl. }
  destruct (late_frame _ _ _ Hlate Hp) as (r1 & H1 & ->).
  apply (mapped_field row_dict r1 old_key new_key); [|done].
  unfold field_mapping.
  repeat (apply elem_of_cons in Hin as [[= -> ->]|Hin]);
    [..|by apply elem_of_nil in Hin]; in_list.
Qed.

(** *** The category totals *)

Lemma category_fields_other row_dict fm sub k :
  k ∉ map snd fm ->
  dict_get k (fold_left
                (fun sub names =>
                   match dict_get (fst names) row_dict with
                   | Some SNone | None => sub
                   | Some v => dict_set (snd names) (value_of v) sub
                   end) fm sub) = dict_get k sub.
Proof.
  revert sub. induction fm as [|[e a] fm IH]; intros sub Hk; [done|].
  cbn [fold_left fst snd]. rewrite IH by (intros ?; apply Hk; by right).
  assert (k <> a) by (intros ->; apply Hk; left).
  destruct (dict_get e row_dict) as [[]|]; by rewrite ?dict_get_set_ne.
Qed.

Lemma category_fields_last row_dict init excel_field api_field v :
  api_field ∉ map snd init ->
  dict_get excel_field row_dict = Some v ->
  dict_get_default api_field (VInt 0)
    (category_fields row_dict (init ++ [(excel_field, api_field)]))
  = match v with SNone => VInt 0 | _ => value_of v end.
Proof.
  intros Hk Hv. unfold category_fields, dict_get_default.
  rewrite fold_left_app. cbn [fold_left fst snd]. rewrite Hv.
  destruct v; rewrite ?dict_get_set_eq; try reflexivity.
  by rewrite category_fields_other.
Qed.

Lemma fold_nest_category_get row_dict nf result category field_map :
  NoDup (map fst nf) -> (category, field_map) ∈ nf ->
  existsb (fun names => dict_has (fst names) row_dict) field_map = true ->
  dict_get category (fold_left (nest_category row_dict) nf result)
  = Some (VDict (category_fields row_dict field_map)).
Proof.
  revert result. induction nf as [|[c fm] nf IH]; intros result Hnd Hin Hex.
  - by apply elem_of_nil in Hin.
  - cbn [map fst] in Hnd. apply NoDup_cons in Hnd as [Hc Hnd]. cbn [fold_left].
    apply elem_of_cons in Hin as [[= <- <-]|Hin].
    + rewrite fold_nest_category_other by done.
      unfold nest_category. rewrite Hex. apply dict_get_set_eq.
    + by apply IH.
Qed.

Lemma score_of_cell (v : scalar) :
  score_of (match v with SNone => VInt 0 | _ => value_of v end) = score_of (value_of v).
Proof. by destruct v. Qed.

(** X20. The score the percentile engine reads
    for a column from a processed row is the integer conversion of the cell
    of the sheet for that column (the four category totals and the total
    score); an empty cell counts as 0. *)
Theorem sheet_scores_reach_percentile (row_dict : row) (result : dict) (c : column) v :
  dict_get (sheet_column c) row_dict = Some v ->
  process_nested_structure row_dict = Return result ->
  column_score c result = score_of (value_of v).
Proof.
  intros Hv Hp.
  assert (Htotal : c = Total -> column_score c result = score_of (value_of v)).
  { intros ->. unfold column_score. cbn [category_key]. unfold dict_get_default.
    assert (Hlate : "total_score" ∉ late_keys).
    { unfold late_keys. intros Hl.
      repeat (apply elem_of_cons in Hl as [[=]|Hl]); by apply elem_of_nil in Hl. }
    destruct (late_frame _ _ _ Hlate Hp) as (r1 & H1 & ->).
    rewrite (mapped_field row_dict r1 "총점 (100점)" "total_score" v);
      [done|unfold field_mapping; in_list|done]. }
  assert (Hcat : forall cat key init,
             category_key c = Some (cat, key) ->
             (cat, init ++ [(sheet_column c, key)]) ∈ nested_fields ->
             key ∉ map snd init ->
             cat ∉ ["deposit"; "price"; "recommendation"; "summary"; "reanalysis_comment"] ->
             column_score c result = score_of (value_of v)).
  { intros cat key init Hkey Hin Hfresh Hcat.
    destruct (process_steps _ _ Hp) as (r1 & r4 & H1 & H4 & ->).
    unfold column_score. rewrite Hkey.
    assert (Hne : forall k, k ∈ ["deposit"; "price"; "recommendation"; "summary";
                                 "reanalysis_comment"] -> cat <> k).
    { intros k Hk ->. by apply Hcat. }
    rewrite dict_get_set_ne by (apply not_eq_sym, Hne; in_list).
    rewrite move_recommendation_other by (apply Hne; in_list).
    rewrite (move_deposit_other row_dict _ r4 cat) by (done || apply Hne; in_list).
    rewrite (fold_nest_category_get _ _ _ cat (init ++ [(sheet_column c, key)])).
    - rewrite (category_fields_last _ _ _ _ v) by done. apply score_of_cell.
    - unfold nested_fields. cbn [map fst]. repeat (apply NoDup_cons; split;
        [intros Hd; repeat (apply elem_of_cons in Hd as [[=]|Hd]); by apply elem_of_nil in Hd|]).
      apply NoDup_nil_2.
    - done.
    - rewrite existsb_app. cbn [existsb fst]. unfold dict_has. rewrite Hv.
      by rewrite orb_true_r. }
  destruct c; [| | | |by apply Htotal].
  - apply (Hcat "location_accessibility" "location_total"
             [("광화문 접근성 (15점)", "gwanghwamun_score");
              ("주변 편의시설 (15점)", "amenities_score");
              ("교통 편의성 (10점)", "transportation_score")]);
      [reflexivity | unfold nested_fields; cbn [app sheet_column]; in_list | |];
      intros Hd; repeat (apply elem_of_cons in Hd as [[=]|Hd]); by apply elem_of_nil in Hd.
  - apply (Hcat "building_quality" "building_total"
             [("건물 상태 (15점)", "condition_score");
              ("공간 효율성 (10점)", "space_score");
              ("층수/향 (5점)", "floor_score")]);
      [reflexivity | unfold nested_fields; cbn [app sheet_column]; in_list | |];
      intros Hd; repeat (apply elem_of_cons in Hd as [[=]|Hd]); by apply elem_of_nil in Hd.
  - apply (Hcat "living_convenience" "convenience_total"
             [("가전제품 (8점)", "appliances_score");
              ("가구/시설 (7점)", "furniture_score")]);
      [reflexivity | unfold nested_fields; cbn [app sheet_column]; in_list | |];
      intros Hd; repeat (apply elem_of_cons in Hd as [[=]|Hd]); by apply elem_of_nil in Hd.
  - apply (Hcat "price_value" "price_total"
             [("시세 대비 가격 (10점)", "market_score");
              ("관리비/추가비용 (5점)", "extra_cost_score")]);
      [reflexivity | unfold nested_fields; cbn [app sheet_column]; in_list | |];
      intros Hd; repeat (apply elem_of_cons in Hd as [[=]|Hd]); by apply elem_of_nil in Hd.
Qed.

(** *** Loading the rows *)

Lemma digit_no_space c : is_digit c = true -> is_space c = false.
Proof. destruct c as [[] [] [] [] [] [] [] []]; (discriminate || reflexivity). Qed.

Lemma digit_no_sign c r : is_digit c = true -> split_sign (String c r) = (false, String c r).
Proof. destruct c as [[] [] [] [] [] [] [] []]; (discriminate || reflexivity). Qed.

Lemma lstrip_digits u : all_in is_digit u = true -> lstrip u = u.
Proof.
  destruct u as [|c u]; [done|]. cbn [all_in]. intros [Hc _]%andb_true_iff.
  by apply lstrip_fixed, digit_no_space.
Qed.

Lemma strip_digits u : all_in is_digit u = true -> strip u = u.
Proof.
  intros Hu. unfold strip. rewrite (lstrip_digits u Hu).
  rewrite lstrip_digits by (by rewrite all_in_string_rev).
  apply string_rev_involutive.
Qed.

Lemma span_digits_all acc n u :
  all_in is_digit u = true ->
  exists z, span_digits acc n u = (z, (n + String.length u)%nat, "").
Proof.
  revert acc n. induction u as [|c u IH]; intros acc n.
  - intros _. exists acc. cbn. by rewrite Nat.add_0_r.
  - cbn [all_in]. intros [Hc Hu]%andb_true_iff. cbn [span_digits String.length]. rewrite Hc.
    destruct (IH (10 * acc + digit_val c)%Z (S n) Hu) as [z ->].
    exists z. by rewrite Nat.add_succ_r.
Qed.

Lemma int_of_string_digits u :
  all_in is_digit u = true -> u <> "" -> exists z, int_of_string u = Some z.
Proof.
  intros Hu Hne. unfold int_of_string. rewrite (strip_digits u Hu).
  destruct u as [|c u]; [done|].
  cbn [all_in] in Hu. apply andb_true_iff in Hu as [Hc Hu].
  rewrite (digit_no_sign c u Hc).
  destruct (span_digits_all 0 0 (String c u)) as [z ->]; [cbn [all_in]; by rewrite Hc, Hu|].
  cbn [String.length Nat.add]. eauto.
Qed.

(** The first run of digits of a text is no longer than the text. *)
Lemma search_digits s m :
  Re.search (Re.plus is_digit) s = Some m ->
  all_in is_digit (Re.group0 m) = true /\ Re.group0 m <> "" /\
  (String.length (Re.group0 m) <= String.length s)%nat.
Proof.
  intros Hs. apply search_sound in Hs as (s1 & -> & Hm & Hg).
  apply match_at_sound in Hm. apply matches_plus in Hm as (u & -> & Hu & Hne & _).
  rewrite consumed_append in Hg. rewrite Hg. repeat split; [done..|].
  rewrite !length_append. lia.
Qed.

Lemma maintenance_returns maintenance_cost :
  match maintenance_cost with
  | SStr s => (String.length s <= MAX_STR_DIGITS)%nat
  | _ => True
  end ->
  exists m, maintenance maintenance_cost = Return m.
Proof.
  destruct maintenance_cost as [|b|z|f|s]; cbn [maintenance]; intros Hlen;
    try (destruct (is_zero _); by eauto); [by eauto|].
  destruct (existsb _ unknown_keywords); [by eauto|].
  destruct (_ || _); [by eauto|].
  destruct (Re.search (Re.plus is_digit) s) as [m|] eqn:Es; [|by eauto].
  apply search_digits in Es as (Hd & Hne & Hle).
  unfold int_of_digits.
  assert ((MAX_STR_DIGITS <? String.length (Re.group0 m))%nat = false) as ->.
  { apply Nat.ltb_ge. lia. }
  destruct (int_of_string_digits _ Hd Hne) as [z ->].
  cbn [mbind outcome_bind mret outcome_ret]. eauto.
Qed.

Lemma plain_place row_dict result :
  plain_keys row_dict -> exists r1, foldM place row_dict result = Return r1.
Proof.
  revert result. induction row_dict as [|[key value] row_dict IH]; intros result Hp.
  - by exists result.
  - apply Forall_cons in Hp as [Hk Hp]. cbn [fst] in Hk.
    cbn [foldM place]. rewrite Hk. cbn [mbind outcome_bind]. by apply IH.
Qed.

(** A row with plain column names and a maintenance text of moderate
    length is processed without an exception. *)
Lemma plain_row_processed row_dict :
  plain_keys row_dict -> short_maintenance row_dict ->
  exists result, process_nested_structure row_dict = Return result.
Proof.
  intros Hp Hm. unfold process_nested_structure.
  destruct (plain_place row_dict [] Hp) as [r1 ->]. cbn [mbind outcome_bind].
  set (r3 := fold_left _ nested_fields _).
  assert (exists r4, move_deposit row_dict r3 = Return r4) as [r4 ->]; [|by eauto].
  unfold move_deposit. destruct (dict_get "deposit" r3) as [deposit|]; [|by eauto].
  unfold short_maintenance in Hm.
  destruct (dict_get "관리비" row_dict) as [mc|]; [|by eauto].
  destruct (maintenance_returns mc) as [m ->]; [by destruct mc|].
  cbn [mbind outcome_bind mret outcome_ret]. eauto.
Qed.

Section load.
Variable py_repr : value -> string.

Lemma property_of_row_spec index row_dict property_dict :
  property_of_row py_repr index row_dict = Return property_dict ->
  (exists s, dict_get "hidx" property_dict = Some (VStr s)) /\
  loaded_from row_dict property_dict.
Proof.
  unfold property_of_row, loaded_from.
  destruct (process_nested_structure row_dict) as [result|]; [|discriminate].
  cbn [mbind outcome_bind mret outcome_ret].
  set (pd := if dict_has "hidx" result then _ else _).
  assert (Hpd : (exists v, dict_get "hidx" pd = Some v) /\
                forall k, k <> "hidx" -> dict_get k pd = dict_get k result).
  { subst pd. unfold dict_has. destruct (dict_get "hidx" result) as [v|] eqn:Eh.
    - split; [by eauto|done].
    - destruct (dict_get "매물 ID" row_dict) as [v|];
        [|destruct (dict_get "id" result) as [v|]];
        (split; [rewrite dict_get_set_eq; by eauto
                |intros k Hk; by rewrite dict_get_set_ne by done]). }
  destruct Hpd as [[v Hv] Hother]. rewrite Hv.
  intros [= <-]. split.
  - destruct v; rewrite ?dict_get_set_eq; eauto.
  - exists result. split; [done|]. intros k Hk.
    destruct v; rewrite ?dict_get_set_ne by done; by apply Hother.
Qed.

Lemma rows_loaded n (rows : list row) out :
  mapM (fun ir => property_of_row py_repr (fst ir) (snd ir))
       (imap (fun index row_dict => (n + index, row_dict)%nat) rows) = Return out ->
  Forall2 (fun row_dict property_dict =>
             (exists s, dict_get "hidx" property_dict = Some (VStr s)) /\
             loaded_from row_dict property_dict) rows out.
Proof.
  intros E. apply mapM_Return_Forall2 in E.
  revert n out E. induction rows as [|row_dict rows IH]; intros n out H.
  - inversion H. constructor.
  - cbn [imap] in H. inversion H as [|? ? ? ? Hx Hrest]; subst. constructor.
    + cbn [fst snd] in Hx. by eapply property_of_row_spec.
    + apply (IH (S n)). erewrite imap_ext; [exact Hrest|].
      intros i x _. cbn. f_equal. lia.
Qed.

Lemma plain_property index row_dict :
  plain_keys row_dict -> short_maintenance row_dict ->
  exists property_dict, property_of_row py_repr index row_dict = Return property_dict.
Proof.
  intros Hp Hm. unfold property_of_row.
  destruct (plain_row_processed row_dict Hp Hm) as [result ->].
  cbn [mbind outcome_bind mret outcome_ret]. eauto.
Qed.

Lemma plain_rows_load n (rows : list row) :
  Forall plain_keys rows -> Forall short_maintenance rows ->
  exists out,
    mapM (fun ir => property_of_row py_repr (fst ir) (snd ir))
         (imap (fun index row_dict => (n + index, row_dict)%nat) rows) = Return out.
Proof.
  revert n. induction rows as [|row_dict rows IH]; intros n Hp Hm.
  - by exists [].
  - apply Forall_cons in Hp as [Hp Hps]. apply Forall_cons in Hm as [Hm Hms].
    cbn [imap mapM]. fold (mapM (fun ir => property_of_row py_repr (fst ir) (snd ir))).
    cbn [fst snd].
    destruct (plain_property (n + 0) row_dict Hp Hm) as [property_dict ->].
    cbn [mbind outcome_bind].
    destruct (IH (S n) Hps Hms) as [out Hout].
    erewrite imap_ext; [rewrite Hout|]; [by eauto|].
    intros i x _. cbn. f_equal. lia.
Qed.

(** X21. Every record [load_properties_from_excel]
    returns has a text under [hidx]. The function returns either nothing (an
    exception in any row discards the whole sheet) or one record for each
    row, in order, which agrees with the processed row on every key but
    [hidx]. *)
Theorem loaded_records_have_text_hidx (rows : list row) :
  Forall (fun property_dict => exists s, dict_get "hidx" property_dict = Some (VStr s))
         (load_properties_from_excel py_repr rows) /\
  (load_properties_from_excel py_repr rows = [] \/
   Forall2 loaded_from rows (load_properties_from_excel py_repr rows)).
Proof.
  unfold load_properties_from_excel.
  destruct (mapM _ _) as [out|e] eqn:E; [|split; [constructor|by left]].
  apply (rows_loaded 0) in E. split.
  - eapply Forall2_Forall_r; [exact E|]. apply Forall_forall. by intros ? _ ? [? _].
  - right. eapply Forall2_impl; [exact E|]. by intros ? ? [_ ?].
Qed.

(** X22. A sheet none of whose column names holds a dot,
    and whose maintenance texts have at most 4300 characters, always loads:
    there is one record for each row, in order, and it agrees with the
    processed row on every key but [hidx]. *)
Theorem plain_sheet_loads (rows : list row) :
  Forall plain_keys rows -> Forall short_maintenance rows ->
  Forall2 loaded_from rows (load_properties_from_excel py_repr rows).
Proof.
  intros Hp Hm. unfold load_properties_from_excel.
  destruct (plain_rows_load 0 rows Hp Hm) as [out E]. cbn [Nat.add] in E. rewrite E.
  apply (rows_loaded 0) in E.
  eapply Forall2_impl; [exact E|]. by intros ? ? [_ ?].
Qed.

End load.

Lemma deposit_and_recommendation_moved_witness :
  process_nested_structure demo_row = Return demo_property /\
  dict_get "deposit" demo_property = None /\
  dict_get "recommendation" demo_property = None.
Proof.
  split; [vm_compute; reflexivity|].
  pose proof (deposit_and_recommendation_moved demo_row demo_property) as H.
  destruct H as (H1 & H2 & _); [vm_compute; reflexivity|]. by split.
Defined.

Lemma sheet_columns_renamed_witness :
  process_nested_structure demo_row = Return demo_property /\
  dict_get "hidx" demo_property = Some (VInt 101).
Proof.
  split; [vm_compute; reflexivity|].
  apply (sheet_columns_renamed demo_row demo_property "매물 ID" "hidx" (SInt 101));
    [in_list | vm_compute; reflexivity | vm_compute; reflexivity].
Defined.

Lemma sheet_scores_reach_percentile_witness :
  process_nested_structure demo_row = Return demo_property /\
  column_score Location demo_property = Return 31%Z.
Proof.
  split; [vm_compute; reflexivity|].
  etrans; [apply (sheet_scores_reach_percentile demo_row demo_property Location (SStr "31"));
           vm_compute; reflexivity|].
  vm_compute; reflexivity.
Defined.

Lemma plain_sheet_loads_witness :
  Forall plain_keys demo_sheet /\ Forall short_maintenance demo_sheet /\
  Forall2 loaded_from demo_sheet (load_properties_from_excel (fun _ => "") demo_sheet).
Proof.
  assert (Hp : Forall plain_keys demo_sheet).
  { unfold demo_sheet, demo_row, plain_keys.
    repeat (apply Forall_nil_2 || apply Forall_cons_2); vm_compute; reflexivity. }
  assert (Hm : Forall short_maintenance demo_sheet).
  { unfold demo_sheet, demo_row.
    repeat (apply Forall_nil_2 || apply Forall_cons_2);
      unfold short_maintenance; apply Nat.leb_le; vm_compute; reflexivity. }
  split; [exact Hp|]. split; [exact Hm|].
  exact (plain_sheet_loads (fun _ => "") demo_sheet Hp Hm).
Defined.

Example load_ex :
  load_properties_from_excel (fun _ => "") demo_sheet
  = [dict_set "hidx" (VStr "101") demo_property;
     [("주소", VStr "서울 중구"); ("관리비", VStr ""); ("총점 (100점)", VFloat (FFin 77.5));
      ("total_score", VFloat (FFin 77.5)); ("address", VStr "서울 중구");
      ("reanalysis_comment", VStr "초기 분석 결과, 재평가 대기 중"); ("hidx", VStr "2")]]
  /\ load_properties_from_excel (fun _ => "")
       [demo_row; [("price", SStr "월세"); ("price.deposit", SInt 500)]] = [].
Proof. split; vm_compute; reflexivity. Qed.

Example split_ex :
  split "." "a.b..c" = ["a"; "b"; ""; "c"] /\ split "." "" = [""] /\ split "." "abc" = ["abc"].
Proof. repeat split. Qed.

End RowsFacts.

(** ** The drivers *)

Module BatchingFacts.
Import Batching DriverSpec.

Section batches.
Context {A : Type}.
Variable size : nat.
Hypothesis size_pos : (0 < size)%nat.
Variable l : list A.

Lemma slice_length i j :
  length (slice l i j) = Nat.min (j - i) (length l - i).
Proof. unfold slice. by rewrite length_take, length_drop. Qed.

Lemma slice_min i :
  slice l i (Nat.min (i + size) (length l)) = slice l i (i + size).
Proof.
  unfold slice. destruct (Nat.le_gt_cases (i + size) (length l)) as [H|H].
  - by rewrite Nat.min_l.
  - rewrite Nat.min_r by lia.
    rewrite (take_ge _ (length l - i)) by (rewrite length_drop; lia).
    symmetry. apply take_ge. rewrite length_drop. lia.
Qed.

(** The starts of the batches: the multiples of the size below the length. *)
Lemma range_from_lookup fuel start stop k :
  (stop - start <= fuel)%nat ->
  range_from fuel start stop size !! k
  = if (start + k * size <? stop)%nat then Some (start + k * size)%nat else None.
Proof.
  revert start k. induction fuel as [|fuel IH]; intros start k Hf.
  - cbn [range_from]. rewrite lookup_nil.
    destruct (Nat.ltb_spec (start + k * size) stop); [lia|done].
  - cbn [range_from]. destruct (Nat.ltb_spec start stop) as [Hs|Hs].
    + destruct k as [|k].
      * change (Some start = if (start + 0 * size <? stop)%nat
                              then Some (start + 0 * size)%nat else None).
        destruct (Nat.ltb_spec (start + 0 * size) stop); [f_equal; lia | lia].
      * cbn [lookup list_lookup]. rewrite IH by lia.
        replace (start + size + k * size)%nat with (start + S k * size)%nat by lia. done.
    + rewrite lookup_nil. destruct (Nat.ltb_spec (start + k * size) stop); [lia|done].
Qed.

Lemma concat_slices fuel start :
  (length l - start <= fuel)%nat ->
  concat (map (fun i => slice l i (i + size)) (range_from fuel start (length l) size))
  = drop start l.
Proof.
  revert start. induction fuel as [|fuel IH]; intros start Hf.
  - cbn. rewrite drop_ge; [done|lia].
  - cbn [range_from]. destruct (Nat.ltb_spec start (length l)) as [Hs|Hs].
    + cbn [map concat]. rewrite IH by lia. unfold slice.
      replace (start + size - start)%nat with size by lia.
      rewrite <- (take_drop size (drop start l)) at 2. by rewrite drop_drop.
    + cbn. rewrite drop_ge; [done|lia].
Qed.

Lemma batches_lookup k :
  batches size l !! k
  = if (k * size <? length l)%nat then Some (slice l (k * size) (k * size + size)) else None.
Proof.
  unfold batches, range3. rewrite list_lookup_fmap, range_from_lookup by lia.
  cbn [Nat.add]. by destruct (k * size <? length l)%nat.
Qed.

Lemma num_batches_spec n k : (k < num_batches size n)%nat <-> (k * size < n)%nat.
Proof.
  unfold num_batches.
  assert (Hq : (inject_Z (Z.of_nat n) / inject_Z (Z.of_nat size) == Z.of_nat n # Z.to_pos (Z.of_nat size))%Q).
  { rewrite Qmake_Qdiv. rewrite Z2Pos.id by lia. reflexivity. }
  rewrite Hq. unfold Qceiling, Qfloor. cbn [Qopp Qnum Qden].
  rewrite Z2Pos.id by lia.
  set (b := Z.of_nat size). set (a := Z.of_nat n).
  assert (Hb : (0 < b)%Z) by lia.
  pose proof (Z.div_mod (- a) b ltac:(lia)) as Hdm.
  pose proof (Z.mod_pos_bound (- a) b Hb) as Hm.
  assert (Hk : (Z.of_nat k < - (- a / b) <-> Z.of_nat k * b < a)%Z) by nia.
  split; intros H.
  - assert (Z.of_nat k * b < a)%Z; [|nia].
    apply Hk. lia.
  - assert (Z.of_nat k < - (- a / b))%Z; [|lia].
    apply Hk. nia.
Qed.

Lemma range3_seq n : range3 0 n size = map (fun k => (k * size)%nat) (seq 0 (num_batches size n)).
Proof.
  apply list_eq. intros k. unfold range3.
  rewrite range_from_lookup by lia. rewrite list_lookup_fmap. cbn [Nat.add].
  destruct (Nat.ltb_spec (k * size) n) as [H|H].
  - rewrite lookup_seq_lt by (by apply num_batches_spec). done.
  - rewrite lookup_seq_ge; [done|]. apply Nat.nlt_ge. intros H'. apply num_batches_spec in H'. lia.
Qed.

End batches.

Section theorems.
Context {A : Type}.

Lemma filter_all (P : list A -> Prop) `{!forall x, Decision (P x)} (bs : list (list A)) :
  Forall P bs -> filter P bs = bs.
Proof.
  induction 1 as [|batch bs Hb _ IH]; [done|].
  rewrite filter_cons_True by exact Hb. by rewrite IH.
Qed.

(** X23. The batches of a round are a partition of the
    records in order: put together again they are the list, no batch is
    empty or longer than the batch size, and every batch but the last is
    full. *)
Theorem batches_partition (size : nat) (l : list A) :
  (0 < size)%nat ->
  concat (batches size l) = l /\
  Forall (fun batch => (0 < length batch <= size)%nat) (batches size l) /\
  (forall k batch, batches size l !! k = Some batch -> (S k < length (batches size l))%nat ->
                   length batch = size).
Proof.
  intros Hs. split; [|split].
  - unfold batches, range3. rewrite concat_slices by (done || lia). apply drop_0.
  - apply Forall_lookup. intros k batch. rewrite batches_lookup by done.
    destruct (Nat.ltb_spec (k * size) (length l)); [|done]. intros [= <-].
    rewrite slice_length. lia.
  - intros k batch Hk Hlast.
    apply lookup_lt_is_Some in Hlast as [next Hnext].
    rewrite batches_lookup in Hk, Hnext by done.
    destruct (Nat.ltb_spec (k * size) (length l)); [|done].
    destruct (Nat.ltb_spec (S k * size) (length l)); [|done].
    injection Hk as <-. rewrite slice_length. lia.
Qed.

(** X24. The two batch loops of [main.main] cut the list
    into the same batches as the slices of [run_reanalysis.main], although
    they clamp the end of a slice and, for the reanalysis, count the
    batches with [math.ceil]; the check for an empty batch there never
    skips anything. *)
Theorem main_batches_agree (size : nat) (l : list A) :
  (0 < size)%nat ->
  initial_batches size l = batches size l /\
  reanalysis_slices size l = batches size l /\
  reanalysis_batches size l = batches size l.
Proof.
  intros Hs.
  assert (H1 : initial_batches size l = batches size l).
  { unfold initial_batches, batches. apply map_ext. intros i. by apply slice_min. }
  assert (H2 : reanalysis_slices size l = batches size l).
  { unfold reanalysis_slices, batches. rewrite range3_seq by done. rewrite map_map.
    apply map_ext. intros k.
    replace ((k + 1) * size)%nat with (k * size + size)%nat by lia. by apply slice_min. }
  split; [done|]. split; [done|].
  unfold reanalysis_batches. rewrite H2.
  assert (Hne : Forall (fun batch : list A => batch <> []) (batches size l)).
  { apply Forall_lookup. intros k batch. rewrite batches_lookup by done.
    destruct (Nat.ltb_spec (k * size) (length l)); [|done]. intros [= <-] Hnil.
    apply (f_equal length) in Hnil. rewrite slice_length in Hnil. cbn in Hnil. lia. }
  by apply filter_all.
Qed.

End theorems.

Lemma batches_partition_witness :
  (0 < REANALYSIS_BATCH_SIZE)%nat /\
  concat (batches REANALYSIS_BATCH_SIZE forty) = forty /\
  Forall (fun batch => (0 < length batch <= REANALYSIS_BATCH_SIZE)%nat)
         (batches REANALYSIS_BATCH_SIZE forty).
Proof.
  assert (H : (0 < REANALYSIS_BATCH_SIZE)%nat) by (unfold REANALYSIS_BATCH_SIZE; lia).
  split; [exact H|].
  destruct (batches_partition REANALYSIS_BATCH_SIZE forty H) as (H1 & H2 & _). by split.
Defined.

Lemma main_batches_agree_witness :
  (0 < MAIN_REANALYSIS_BATCH_SIZE)%nat /\
  reanalysis_batches MAIN_REANALYSIS_BATCH_SIZE many = batches MAIN_REANALYSIS_BATCH_SIZE many.
Proof.
  assert (H : (0 < MAIN_REANALYSIS_BATCH_SIZE)%nat) by (unfold MAIN_REANALYSIS_BATCH_SIZE; lia).
  split; [exact H|].
  destruct (main_batches_agree MAIN_REANALYSIS_BATCH_SIZE many H) as (_ & _ & H3). exact H3.
Defined.

Example batches_ex :
  batches 3 (seq 0 8) = [[0; 1; 2]; [3; 4; 5]; [6; 7]]%nat /\
  batches 3 (seq 0 9) = [[0; 1; 2]; [3; 4; 5]; [6; 7; 8]]%nat /\
  batches 3 (@nil nat) = [] /\
  map (@length nat) (initial_batches INITIAL_ANALYSIS_BATCH_SIZE many) = [60; 60; 60; 60; 10]%nat.
Proof. repeat split; vm_compute; reflexivity. Qed.

End BatchingFacts.

Module RankingFacts.
Import Percentile Ranking DriverSpec.

(** [get_score_for_sort] raises for an infinite float only. *)
Lemma get_score_for_sort_raises prop e :
  get_score_for_sort prop = Raise e -> e = OverflowError /\ infinite_score prop.
Proof.
  unfold get_score_for_sort, dict_get_default, infinite_score.
  destruct (dict_get "total_score" prop) as [v|]; [|discriminate].
  destruct v as [|b|z|f|s|l|d]; cbn [is_str_int_float int_checked py_int]; try discriminate.
  - destruct f as [q|neg|]; cbn [int_of_float]; try discriminate.
    intros [= <-]. eauto.
  - destruct (_ <? _)%nat; [discriminate|].
    destruct (int_of_string s); discriminate.
Qed.

Lemma get_score_for_sort_infinite prop :
  infinite_score prop -> get_score_for_sort prop = Raise OverflowError.
Proof. intros [neg H]. unfold get_score_for_sort, dict_get_default. by rewrite H. Qed.

Lemma get_score_for_sort_finite prop :
  ~ infinite_score prop -> get_score_for_sort prop = Return (sort_score prop).
Proof.
  intros H. unfold sort_score.
  destruct (get_score_for_sort prop) as [z|e] eqn:E; [done|].
  apply get_score_for_sort_raises in E as [_ ?]. done.
Qed.

Section sort.
Context {A : Type}.
Implicit Types (x : Z * A) (l : list (Z * A)).

Lemma insert_desc_perm x l : insert_desc x l ≡ₚ x :: l.
Proof.
  induction l as [|y l IH]; [done|]. cbn [insert_desc].
  destruct (fst x <? fst y)%Z; [|done]. rewrite IH. apply Permutation_swap.
Qed.

Lemma insert_desc_sorted x l :
  StronglySorted (fun a b => (fst b <= fst a)%Z) l ->
  StronglySorted (fun a b => (fst b <= fst a)%Z) (insert_desc x l).
Proof.
  induction 1 as [|y l Hl IH Hy]; [repeat constructor|]. cbn [insert_desc].
  destruct (Z.ltb_spec (fst x) (fst y)) as [Hxy|Hxy].
  - constructor; [done|]. rewrite insert_desc_perm. constructor; [lia|done].
  - constructor; [by constructor|]. constructor; [done|].
    eapply Forall_impl; [exact Hy|]. cbn. intros. lia.
Qed.

Lemma insert_desc_filter (z : Z) x l :
  filter (fun y => fst y = z) (insert_desc x l) = filter (fun y => fst y = z) (x :: l).
Proof.
  induction l as [|y l IH]; [done|]. cbn [insert_desc].
  destruct (Z.ltb_spec (fst x) (fst y)) as [Hxy|Hxy]; [|done].
  rewrite (filter_cons _ y), IH, !(filter_cons _ x), (filter_cons _ y).
  destruct (decide (fst y = z)) as [Hy|Hy]; [|done].
  destruct (decide (fst x = z)) as [Hx|Hx]; [|done]. lia.
Qed.

Lemma sort_desc_perm l : foldr insert_desc [] l ≡ₚ l.
Proof.
  induction l as [|x l IH]; [done|]. cbn [foldr]. by rewrite insert_desc_perm, IH.
Qed.

Lemma sort_desc_sorted l :
  StronglySorted (fun a b => (fst b <= fst a)%Z) (foldr insert_desc [] l).
Proof.
  induction l as [|x l IH]; [constructor|]. cbn [foldr]. by apply insert_desc_sorted.
Qed.

Lemma sort_desc_filter (z : Z) l :
  filter (fun y => fst y = z) (foldr insert_desc [] l) = filter (fun y => fst y = z) l.
Proof.
  induction l as [|x l IH]; [done|]. cbn [foldr].
  rewrite insert_desc_filter. by rewrite !(filter_cons _ x), IH.
Qed.

End sort.

(** The sort by a key that is computed without an exception. *)
Lemma sorted_by_score (l : list record) :
  let order := map snd (foldr insert_desc [] (map (fun prop => (sort_score prop, prop)) l)) in
  order ≡ₚ l /\
  StronglySorted (fun a b => (sort_score b <= sort_score a)%Z) order /\
  stable l order.
Proof.
  intros order. subst order.
  set (kl := map (fun prop => (sort_score prop, prop)) l).
  assert (Hkey : Forall (fun kp : Z * record => fst kp = sort_score (snd kp))
                        (foldr insert_desc [] kl)).
  { rewrite sort_desc_perm. subst kl. apply Forall_forall. intros kp Hin.
    apply list_elem_of_fmap in Hin as (prop & -> & _). done. }
  assert (Hl : map snd kl = l).
  { subst kl. rewrite map_map. cbn [snd]. apply map_id. }
  split; [|split].
  - rewrite sort_desc_perm. by rewrite Hl.
  - pose proof (sort_desc_sorted kl) as Hs. revert Hkey.
    induction Hs as [|kp s Hs IH Hall]; intros Hkey; [constructor|].
    apply Forall_cons in Hkey as [Hkp Hkey]. cbn [map]. constructor; [by apply IH|].
    apply Forall_forall. intros prop Hin.
    apply list_elem_of_fmap in Hin as (kp' & -> & Hin).
    rewrite Forall_forall in Hall, Hkey.
    rewrite <- Hkp, <- (Hkey kp' Hin). by apply Hall.
  - intros z.
    assert (Hf : forall s : list (Z * record),
               Forall (fun kp => fst kp = sort_score (snd kp)) s ->
               filter (fun prop => sort_score prop = z) (map snd s)
               = map snd (filter (fun kp => fst kp = z) s)).
    { induction 1 as [|kp s Hkp _ IH]; [done|]. cbn [map].
      rewrite !filter_cons. rewrite <- Hkp.
      destruct (decide (fst kp = z)); cbn [map]; by rewrite IH. }
    rewrite Hf by done.
    rewrite sort_desc_filter.
    rewrite <- Hf; [by rewrite Hl|].
    subst kl. apply Forall_forall. intros kp Hin.
    apply list_elem_of_fmap in Hin as (prop & -> & _). done.
Qed.

Lemma sorted_desc_finite (l : list record) :
  Forall (fun prop => ~ infinite_score prop) l ->
  sorted_desc get_score_for_sort l
  = Return (map snd (foldr insert_desc [] (map (fun prop => (sort_score prop, prop)) l))).
Proof.
  intros Hfin. unfold sorted_desc.
  rewrite (mapM_map_Return _ sort_score).
  - cbn [mbind outcome_bind mret outcome_ret]. do 3 f_equal.
    clear Hfin. induction l as [|prop l IH]; [done|]. cbn. by rewrite IH.
  - intros prop Hin. apply get_score_for_sort_finite.
    rewrite Forall_forall in Hfin. by apply Hfin.
Qed.

(** X25. When no total score is an infinite float, the
    ranked list holds the same records, ordered by descending score (a
    score that does not convert counts as 0), records of equal score in
    the order they had, and the record at position [i] gets rank [i + 1]. *)
Theorem ranking_sorts_by_score (l : list record) :
  Forall (fun prop => ~ infinite_score prop) l ->
  exists order,
    rank_by_score l = set_ranks order /\
    order ≡ₚ l /\
    StronglySorted (fun a b => (sort_score b <= sort_score a)%Z) order /\
    stable l order.
Proof.
  intros Hfin. unfold rank_by_score. rewrite (sorted_desc_finite l Hfin).
  eexists. split; [reflexivity|]. apply sorted_by_score.
Qed.

(** X26. One record whose total score is an
    infinite float switches the sort off for the whole list: the
    [OverflowError] of [int] is not caught by [get_score_for_sort], the sort
    is abandoned, and the ranks follow the order of the input. *)
Theorem infinite_score_disables_sorting (l : list record) (prop : record) :
  prop ∈ l -> infinite_score prop -> rank_by_score l = set_ranks l.
Proof.
  intros Hin Hinf. unfold rank_by_score, sorted_desc.
  destruct (mapM_raise get_score_for_sort l prop Hin) as [e ->]; [|done].
  exists OverflowError. by apply get_score_for_sort_infinite.
Qed.

Example rank_by_score_ex :
  map (dict_get "hidx") (rank_by_score unranked_sample)
  = [Some (VStr "b"); Some (VStr "a"); Some (VStr "d"); Some (VStr "c"); Some (VStr "e")] /\
  map (dict_get "rank") (rank_by_score unranked_sample)
  = [Some (VInt 1); Some (VInt 2); Some (VInt 3); Some (VInt 4); Some (VInt 5)] /\
  map (dict_get "hidx") (rank_by_score unrankable_sample)
  = [Some (VStr "a"); Some (VStr "b"); Some (VStr "c")].
Proof. repeat split; vm_compute; reflexivity. Qed.

Lemma ranking_sorts_by_score_witness :
  Forall (fun prop => ~ infinite_score prop) unranked_sample /\
  exists order, rank_by_score unranked_sample = set_ranks order /\ order ≡ₚ unranked_sample.
Proof.
  assert (H : Forall (fun prop => ~ infinite_score prop) unranked_sample).
  { unfold unranked_sample. repeat (apply Forall_nil_2 || apply Forall_cons_2);
      intros [negative Hinf]; vm_compute in Hinf; discriminate. }
  split; [exact H|].
  destruct (ranking_sorts_by_score unranked_sample H) as (order & H1 & H2 & _).
  exists order. by split.
Defined.

Lemma infinite_score_disables_sorting_witness :
  rank_by_score unrankable_sample = set_ranks unrankable_sample.
Proof.
  apply (infinite_score_disables_sorting unrankable_sample
           [("hidx", VStr "b"); ("total_score", VFloat (FInf false))]).
  - unfold unrankable_sample. in_list.
  - exists false. reflexivity.
Defined.

End RankingFacts.

Module FillFacts.
Import Fill FillSpec.

Lemma append_note_other field note prop prop' k :
  k <> field -> append_note field note prop = Return prop' ->
  dict_get k prop' = dict_get k prop.
Proof.
  intros Hk. unfold append_note.
  destruct (dict_get_default field (VStr "") prop); try discriminate.
  intros [= <-]. by apply dict_get_set_ne.
Qed.

Lemma mark_hidx prop prop' :
  mark prop = Return prop' -> dict_get "hidx" prop' = dict_get "hidx" prop.
Proof.
  unfold mark. destruct (append_note "ai_reanalysis_error" note_error prop) as [p1|] eqn:E1;
    cbn [mbind outcome_bind]; [|discriminate]. intros E2.
  etrans; [eapply append_note_other; [|exact E2]; discriminate|].
  eapply append_note_other; [|exact E1]; discriminate.
Qed.

Lemma mark_notes prop prop' : mark prop = Return prop' -> marked prop'.
Proof.
  unfold mark, append_note, marked.
  destruct (dict_get_default "ai_reanalysis_error" (VStr "") prop) as [| | | |s1| |];
    try discriminate. cbn [mbind outcome_bind].
  destruct (dict_get_default "reanalysis_comment" (VStr "") _) as [| | | |s2| |];
    try discriminate. intros [= <-]. split.
  - exists s1. rewrite dict_get_set_ne by discriminate. apply dict_get_set_eq.
  - exists s2. apply dict_get_set_eq.
Qed.

Lemma mark_returns prop : notes_are_text prop -> exists prop', mark prop = Return prop'.
Proof.
  intros [H1 H2]. unfold mark, append_note, dict_get_default, text_or_absent in *.
  destruct (dict_get "ai_reanalysis_error" prop) as [[| | | |s1| |]|]; try done;
    cbn [mbind outcome_bind]; rewrite dict_get_set_ne by discriminate;
    destruct (dict_get "reanalysis_comment" prop) as [[| | | |s2| |]|]; try done; eauto.
Qed.

Section facts.
Variable py_repr : value -> string.

Abbreviation has_hidx := Fill.has_hidx.
Abbreviation hidx_str := (Fill.hidx_str py_repr).
Abbreviation hidx_set := (Fill.hidx_set py_repr).
Abbreviation fill_missing := (Fill.fill_missing py_repr).

Lemma same_hidx_str a b : same_hidx a b -> hidx_str a = hidx_str b /\ has_hidx a = has_hidx b.
Proof.
  unfold same_hidx, Fill.hidx_str, Fill.has_hidx, dict_get_default. by intros ->.
Qed.

Lemma hidx_set_elem props hidx :
  hidx ∈ hidx_set props <-> exists prop, prop ∈ props /\ has_hidx prop = true /\ hidx_str prop = hidx.
Proof.
  unfold Fill.hidx_set. rewrite list_elem_of_fmap. split.
  - intros (prop & -> & Hin). apply list_elem_of_filter in Hin as [H1 H2]. eauto.
  - intros (prop & Hin & H1 & <-). exists prop. split; [done|]. by apply list_elem_of_filter.
Qed.

Lemma untouched_refl (l : list record) :
  Forall2 (fun prop prop' => same_hidx prop prop' /\ (prop' = prop \/ marked prop')) l l.
Proof. induction l; constructor; [by split; [|left]|done]. Qed.

(** What the loop does to the initial records and which it appends. *)
Lemma fill_steps initial final store final' :
  fill_missing initial final = Return (store, final') ->
  exists appended,
    final' = final ++ appended /\
    Forall2 (fun prop prop' => same_hidx prop prop' /\
               (prop' = prop \/ marked prop')) initial store /\
    (forall i prop, initial !! i = Some prop -> has_hidx prop = true ->
                    hidx_str prop ∉ hidx_set (omap (resolve initial) final) ->
                    Initial i ∈ appended) /\
    Forall (fun r => exists i prop prop',
                r = Initial i /\ initial !! i = Some prop /\ store !! i = Some prop' /\
                marked prop' /\
                hidx_str prop ∈ hidx_set initial /\
                (hidx_str prop ∉ hidx_set (omap (resolve initial) final))) appended.
Proof.
  unfold Fill.fill_missing.
  set (R := hidx_set (omap (resolve initial) final)).
  set (M := filter (fun hidx => hidx ∉ R) (hidx_set initial)).
  assert (HM : forall h, h ∈ M <-> (h ∉ R) /\ h ∈ hidx_set initial).
  { intros h. subst M. apply (list_elem_of_filter (fun hidx => hidx ∉ R)). }
  destruct M as [|m M'] eqn:EM.
  - intros [= <- <-]. exists []. split; [by rewrite app_nil_r|]. split; [|split].
    + apply untouched_refl.
    + intros i prop Hi Hh Hn. exfalso.
      assert (hidx_str prop ∈ []) as Hin; [|by apply elem_of_nil in Hin].
      apply HM. split; [done|]. apply hidx_set_elem. exists prop.
      split; [by eapply list_elem_of_lookup_2|done].
    + constructor.
  - rewrite <- EM in *. clear EM m M'.
    destruct (mapM _ initial) as [store0|] eqn:Es; [|discriminate].
    cbn [mbind outcome_bind mret outcome_ret]. intros [= <- <-].
    apply mapM_Return_Forall2 in Es.
    eexists. split; [reflexivity|]. split; [|split].
    + eapply Forall2_impl; [exact Es|]. cbn beta. intros prop prop'.
      destruct (bool_decide _).
      * intros Hm. split; [unfold same_hidx; symmetry; by apply mark_hidx|].
        right. by eapply mark_notes.
      * intros [= <-]. split; [done|by left].
    + intros i prop Hi Hh Hn. apply list_elem_of_omap. exists (i, prop). split.
      * by apply (elem_of_lookup_imap_2 (fun i prop => (i, prop))).
      * cbn [fst snd]. rewrite bool_decide_eq_true_2; [done|].
        apply HM. split; [done|]. apply hidx_set_elem. exists prop.
        split; [by eapply list_elem_of_lookup_2|done].
    + apply Forall_forall. intros r Hr.
      apply list_elem_of_omap in Hr as ([i prop] & Hin & Hr). cbn [fst snd] in Hr.
      apply elem_of_lookup_imap_1 in Hin as (i' & prop0 & [= -> ->] & Hi).
      destruct (bool_decide (hidx_str prop0 ∈ M)) eqn:Eb; [|discriminate].
      injection Hr as <-. apply bool_decide_eq_true_1 in Eb.
      destruct (Forall2_lookup_l _ _ _ _ _ Es Hi) as (prop' & Hs & Hf).
      cbn beta in Hf. rewrite bool_decide_eq_true_2 in Hf by done.
      exists i', prop0, prop'. apply HM in Eb as [Hn Hin].
      repeat split; try done; by eapply mark_notes.
Qed.

(** X27. After the safety net, every identifier of the
    initial analysis is the identifier of a record of the final list. *)
Theorem fill_covers_initial (initial : list record) (final : list ref) result :
  fill_missing initial final = Return result ->
  forall hidx, hidx ∈ hidx_set initial -> hidx ∈ hidx_set (final_records result).
Proof.
  destruct result as [store final']. intros Hf hidx Hin.
  destruct (fill_steps _ _ _ _ Hf) as (appended & -> & Hst & Happ & _).
  unfold final_records. cbn [fst snd]. rewrite omap_app.
  assert (Hsame : forall r prop, resolve initial r = Some prop ->
                    exists prop', resolve store r = Some prop' /\ same_hidx prop prop').
  { intros [i|p] prop; cbn [resolve].
    - intros Hi. destruct (Forall2_lookup_l _ _ _ _ _ Hst Hi) as (prop' & Hs & Hsh & _). eauto.
    - intros [= <-]. by exists p. }
  destruct (decide (hidx ∈ hidx_set (omap (resolve initial) final))) as [Hr|Hr].
  - apply hidx_set_elem in Hr as (prop & Hp & Hh & <-).
    apply list_elem_of_omap in Hp as (r & Hr & Hres).
    destruct (Hsame r prop Hres) as (prop' & Hres' & Hsh).
    apply same_hidx_str in Hsh as [Hs1 Hs2].
    apply hidx_set_elem. exists prop'. split; [|by rewrite <- Hs1, <- Hs2].
    apply elem_of_app. left. apply list_elem_of_omap. eauto.
  - apply hidx_set_elem in Hin as (prop & Hp & Hh & <-).
    apply list_elem_of_lookup_1 in Hp as [i Hi].
    pose proof (Happ i prop Hi Hh Hr) as Hin.
    destruct (Hsame (Initial i) prop Hi) as (prop' & Hres' & Hsh).
    apply same_hidx_str in Hsh as [Hs1 Hs2].
    apply hidx_set_elem. exists prop'. split; [|by rewrite <- Hs1, <- Hs2].
    apply elem_of_app. right. apply list_elem_of_omap. eauto.
Qed.

(** X28. The safety net keeps the final list as a
    prefix and appends only initial records, each marked with the two notes
    and with an identifier no record of the final list had; an initial
    record keeps its identifier and is either untouched or marked. *)
Theorem fill_appends_only_missing (initial : list record) (final : list ref) store final' :
  fill_missing initial final = Return (store, final') ->
  exists appended,
    final' = final ++ appended /\
    Forall2 (fun prop prop' => same_hidx prop prop' /\ (prop' = prop \/ marked prop'))
            initial store /\
    Forall (fun r => exists i prop',
                r = Initial i /\ store !! i = Some prop' /\ marked prop' /\
                (hidx_str prop' ∉ hidx_set (omap (resolve initial) final))) appended.
Proof.
  intros Hf. destruct (fill_steps _ _ _ _ Hf) as (appended & -> & Hst & _ & Happ).
  exists appended. split; [done|]. split; [done|].
  eapply Forall_impl; [exact Happ|]. cbn beta.
  intros r (i & prop & prop' & -> & Hi & Hs & Hm & _ & Hn).
  exists i, prop'. split; [done|]. split; [done|]. split; [done|].
  destruct (Forall2_lookup_l _ _ _ _ _ Hst Hi) as (prop'' & Hs' & Hsh & _).
  assert (prop'' = prop') as -> by congruence.
  apply same_hidx_str in Hsh as [Heq _]. by rewrite <- Heq.
Qed.

(** X29. When the note fields of the initial
    records are absent or texts, the safety net raises nothing. *)
Theorem fill_returns_for_text_notes (initial : list record) (final : list ref) :
  Forall notes_are_text initial ->
  exists result, fill_missing initial final = Return result.
Proof.
  intros Hn. unfold Fill.fill_missing.
  destruct (filter _ _) as [|m M']; [by eauto|].
  edestruct (mapM_returns (fun prop => if bool_decide (hidx_str prop ∈ m :: M')
                                       then mark prop else Return prop) initial)
    as [store Hs].
  - eapply Forall_impl; [exact Hn|]. cbn beta. intros prop Hp.
    destruct (bool_decide _); [by apply mark_returns|by eauto].
  - rewrite Hs. cbn [mbind outcome_bind mret outcome_ret]. eauto.
Qed.

End facts.


Lemma fill_covers_initial_witness :
  Fill.fill_missing (fun _ => "") analysed reanalysed = Return filled /\
  "2" ∈ Fill.hidx_set (fun _ => "") (final_records filled).
Proof.
  split; [vm_compute; reflexivity|].
  apply (fill_covers_initial (fun _ => "") analysed reanalysed filled);
    [vm_compute; reflexivity|].
  vm_compute. in_list.
Defined.

Lemma fill_appends_only_missing_witness :
  Fill.fill_missing (fun _ => "") analysed reanalysed = Return filled /\
  exists appended, snd filled = reanalysed ++ appended.
Proof.
  split; [vm_compute; reflexivity|].
  destruct (fill_appends_only_missing (fun _ => "") analysed reanalysed (fst filled) (snd filled))
    as (appended & H & _); [vm_compute; reflexivity|].
  by exists appended.
Defined.

Lemma fill_returns_for_text_notes_witness :
  Forall notes_are_text analysed /\
  exists result, Fill.fill_missing (fun _ => "") analysed reanalysed = Return result.
Proof.
  assert (H : Forall notes_are_text analysed).
  { unfold analysed. repeat (apply Forall_nil_2 || apply Forall_cons_2);
      split; vm_compute; exact I. }
  split; [exact H|].
  exact (fill_returns_for_text_notes (fun _ => "") analysed reanalysed H).
Defined.

Example fill_missing_ex :
  Fill.fill_missing (fun _ => "") [[("hidx", VStr "1"); ("reanalysis_comment", VNone)]] []
  = Raise TypeError /\
  Fill.fill_missing (fun _ => "") analysed [Initial 2; Initial 0; Other [("hidx", VStr "2")]]
  = Return (analysed, [Initial 2; Initial 0; Other [("hidx", VStr "2")]]).
Proof. split; vm_compute; reflexivity. Qed.

End FillFacts.
